(** * envconfig: binding environment variables into configuration structures

    A shallow embedding of [envconfig.go] (package [envconfig]) and the
    properties of its field discovery ([gatherInfo]), value resolution
    ([processInfo]) and coercion ([processField]).

    Conventions of the embedding.
    - Go strings are byte strings: [string] of the Standard Library.
    - [reflect.Type] is the inductive [type], a finite tree (no type refers
      to itself); what the code asks a type ([Kind], [Elem], [Key],
      [PkgPath], [Name], [String], [Bits], its fields and its methods) is
      read off it.  The theorems are about these types: on a structure
      type that contains itself through a pointer, [gatherInfo] allocates
      and descends without end.
    - A configuration structure is a tree: [value].  A pointer owns its
      pointee ([VPtr (Some v)]), so two fields never share storage.  The
      theorems about what a write leaves elsewhere are about these
      structures, in which no variable is reached in two ways: where two
      pointers point to the same variable, a write through one is seen
      through the other.  The theorems say so where it matters: they take
      the disjointness of the fields ([apart]) as a hypothesis.
    - [strings.ToUpper] is [Str.ToUpper] on ASCII texts ([isASCII]), and
      the sequence case of [processField] is [switchKind] unless the
      element is a defined type of kind [uint8] ([definedByte]), where
      [reflect] panics.
    - An addressable [reflect.Value] is a handle: the type together with the
      path from the structure that [gatherInfo] was given to the storage.
      A function of the package that writes through a [reflect.Value] takes
      what the storage holds and returns what it holds afterwards.
    - The process environment is a finite map from names to values.
    - [strconv]'s and [time]'s number parsers are parameters ([Parsers]). *)

From Stdlib Require Import ZArith String Ascii List Bool Lia Permutation.
From stdpp Require Import base option list strings gmap.

#[local] Set Warnings "-register-all".
Local Open Scope string_scope.
Local Open Scope list_scope.

(** ** Byte strings *)

Module Str.

Definition bytes (s : string) : list ascii := list_ascii_of_string s.
Definition ofBytes (l : list ascii) : string := string_of_list_ascii l.

(** [A-Z] *)
Definition isAZ (a : ascii) : bool :=
  let n := nat_of_ascii a in (65 <=? n)%nat && (n <=? 90)%nat.

(** [a-z] *)
Definition isaz (a : ascii) : bool :=
  let n := nat_of_ascii a in (97 <=? n)%nat && (n <=? 122)%nat.

Definition upperByte (a : ascii) : ascii :=
  if isaz a then ascii_of_nat (nat_of_ascii a - 32) else a.

(** [strings.ToUpper].  Exact on ASCII text; a byte above 0x7f (part of a
    multi-byte rune, which Go maps through the Unicode tables) is kept. *)
Definition ToUpper (s : string) : string := ofBytes (map upperByte (bytes s)).

(** [strings.Split(s, sep)] for a one-byte separator: every separator
    cuts, so a string with n separators gives n+1 pieces. *)
Fixpoint splitBytes (sep : ascii) (l : list ascii) : list (list ascii) :=
  match l with
  | [] => [[]]
  | a :: l' =>
      if Ascii.eqb a sep then [] :: splitBytes sep l'
      else match splitBytes sep l' with
           | [] => [[a]]
           | w :: ws => (a :: w) :: ws
           end
  end.

Definition Split (s : string) (sep : ascii) : list string :=
  map ofBytes (splitBytes sep (bytes s)).

(** The text before the first [sep] and the text after it, when [sep]
    occurs. *)
Fixpoint cutBytes (sep : ascii) (l : list ascii) : option (list ascii * list ascii) :=
  match l with
  | [] => None
  | a :: l' =>
      if Ascii.eqb a sep then Some ([], l')
      else match cutBytes sep l' with
           | Some (before, after) => Some (a :: before, after)
           | None => None
           end
  end.

(** [strings.Cut(s, sep)] for a one-byte separator. *)
Definition Cut (s : string) (sep : ascii) : option (string * string) :=
  match cutBytes sep (bytes s) with
  | Some (before, after) => Some (ofBytes before, ofBytes after)
  | None => None
  end.

(** [strings.Join(elems, sep)] *)
Fixpoint Join (elems : list string) (sep : string) : string :=
  match elems with
  | [] => ""
  | [e] => e
  | e :: rest => e ++ sep ++ Join rest sep
  end.

(** White space of [unicode.IsSpace], as UTF-8 byte sequences:
    U+0009..U+000D, U+0020, U+0085, U+00A0, U+1680, U+2000..U+200A,
    U+2028, U+2029, U+202F, U+205F, U+3000.  [spaceWidth l] is the width
    of the white-space rune that [l] starts with, 0 when there is none. *)
Definition spaceWidth (l : list ascii) : nat :=
  match map nat_of_ascii (firstn 3 l) with
  | b0 :: rest =>
      if ((9 <=? b0) && (b0 <=? 13) || (b0 =? 32))%nat then 1
      else match rest with
           | b1 :: rest' =>
               if ((b0 =? 194) && ((b1 =? 133) || (b1 =? 160)))%nat then 2
               else match rest' with
                    | b2 :: _ =>
                        if ((b0 =? 225) && (b1 =? 154) && (b2 =? 128)
                            || (b0 =? 226) && (b1 =? 128)
                               && ((128 <=? b2) && (b2 <=? 138)
                                   || (b2 =? 168) || (b2 =? 169) || (b2 =? 175))
                            || (b0 =? 226) && (b1 =? 129) && (b2 =? 159)
                            || (b0 =? 227) && (b1 =? 128) && (b2 =? 128))%nat
                        then 3 else 0
                    | [] => 0
                    end
           | [] => 0
           end
  | [] => 0
  end.

(** The same, read backwards from the end of the text ([l] is reversed). *)
Definition spaceWidthRev (l : list ascii) : nat :=
  match l with
  | [] => 0
  | b0 :: _ =>
      if (spaceWidth [b0] =? 1)%nat then 1
      else if (spaceWidth (rev (firstn 2 l)) =? 2)%nat then 2
      else if (spaceWidth (rev (firstn 3 l)) =? 3)%nat then 3
      else 0
  end.

Fixpoint trimWith (width : list ascii -> nat) (fuel : nat) (l : list ascii)
  : list ascii :=
  match fuel with
  | O => l
  | S fuel' =>
      match width l with
      | O => l
      | w => trimWith width fuel' (skipn w l)
      end
  end.

(** [strings.TrimSpace]: leading and trailing white space removed. *)
Definition TrimSpace (s : string) : string :=
  let l := trimWith spaceWidth (String.length s) (bytes s) in
  ofBytes (rev (trimWith spaceWidthRev (List.length l) (rev l))).

(** [strconv.ParseBool]: the value when the literal is accepted. *)
Definition ParseBool (s : string) : option bool :=
  if existsb (String.eqb s) ["1"; "t"; "T"; "TRUE"; "true"; "True"] then Some true
  else if existsb (String.eqb s) ["0"; "f"; "F"; "FALSE"; "false"; "False"] then Some false
  else None.

End Str.

(** [isTrue]: [b, _ := strconv.ParseBool(s); return b]. *)
Definition isTrue (s : string) : bool :=
  match Str.ParseBool s with
  | Some b => b
  | None => false
  end.

(** [isFalse]: false on a parse error, otherwise [!b]. *)
Definition isFalse (s : string) : bool :=
  match Str.ParseBool s with
  | None => false
  | Some b => negb b
  end.

(** ** The two regular expressions of the naming convention

    Go's [regexp] finds the leftmost match and, among the matches starting
    there, the one a backtracking search finds first: alternatives in
    order, repetitions greedy.  [run] lists all the matches of an expression
    at the head of the text in that order of preference, each with the text
    of its capture groups (an unused group captures the empty text). *)

Module Regexp.

Inductive class : Type :=
| AZ      (* [A-Z] *)
| NotAZ.  (* [^A-Z] *)

Inductive regexp : Type :=
| One (c : class)             (* c  *)
| Plus (c : class)            (* c+ *)
| Cat (r1 r2 : regexp)        (* r1 r2 *)
| Alt (r1 r2 : regexp)        (* r1|r2 *)
| Group (r : regexp).         (* (r) *)

Definition inClass (c : class) (a : ascii) : bool :=
  match c with
  | AZ => Str.isAZ a
  | NotAZ => negb (Str.isAZ a)
  end.

Fixpoint numGroups (r : regexp) : nat :=
  match r with
  | One _ | Plus _ => 0
  | Cat r1 r2 | Alt r1 r2 => numGroups r1 + numGroups r2
  | Group r' => S (numGroups r')
  end.

(** One match: the text matched, the captures, the text left. *)
Record hit : Type := Hit {
  matched : list ascii;
  groups : list (list ascii);
  rest : list ascii
}.

(** All the non-empty runs of class [c] at the head of [l], longest first. *)
Fixpoint plusRuns (c : class) (l : list ascii) : list (list ascii * list ascii) :=
  match l with
  | [] => []
  | a :: l' =>
      if inClass c a
      then map (fun mr => (a :: fst mr, snd mr)) (plusRuns c l') ++ [([a], l')]
      else []
  end.

Fixpoint run (r : regexp) (l : list ascii) : list hit :=
  match r with
  | One c =>
      match l with
      | a :: l' => if inClass c a then [Hit [a] [] l'] else []
      | [] => []
      end
  | Plus c => map (fun mr => Hit (fst mr) [] (snd mr)) (plusRuns c l)
  | Cat r1 r2 =>
      flat_map (fun h1 =>
        map (fun h2 => Hit (matched h1 ++ matched h2) (groups h1 ++ groups h2) (rest h2))
            (run r2 (rest h1)))
        (run r1 l)
  | Alt r1 r2 =>
      map (fun h => Hit (matched h) (groups h ++ repeat [] (numGroups r2)) (rest h)) (run r1 l)
      ++ map (fun h => Hit (matched h) (repeat [] (numGroups r1) ++ groups h) (rest h)) (run r2 l)
  | Group r' =>
      map (fun h => Hit (matched h) (matched h :: groups h) (rest h)) (run r' l)
  end.

(** The leftmost match in [l]: the first position with a match, and the
    preferred match there. *)
Fixpoint leftmost (r : regexp) (l : list ascii) : option hit :=
  match run r l with
  | h :: _ => Some h
  | [] =>
      match l with
      | [] => None
      | _ :: l' => leftmost r l'
      end
  end.

Definition submatch (h : hit) : list string :=
  map Str.ofBytes (matched h :: groups h).

(** [re.FindStringSubmatch(s)]: the match and its groups, [nil] without a
    match. *)
Definition FindStringSubmatch (r : regexp) (s : string) : list string :=
  match leftmost r (Str.bytes s) with
  | Some h => submatch h
  | None => []
  end.

(** The successive matches, each search starting where the previous match
    ended.  No expression of [regexp] matches the empty text, so every
    round consumes a byte and [fuel] = length of the text is enough. *)
Fixpoint allMatches (r : regexp) (fuel : nat) (l : list ascii) : list hit :=
  match fuel with
  | O => []
  | S fuel' =>
      match leftmost r l with
      | Some h => h :: allMatches r fuel' (rest h)
      | None => []
      end
  end.

(** [re.FindAllStringSubmatch(s, -1)] *)
Definition FindAllStringSubmatch (r : regexp) (s : string) : list (list string) :=
  map submatch (allMatches r (String.length s) (Str.bytes s)).

End Regexp.

Import Regexp.

(** [regexp.MustCompile("([^A-Z]+|[A-Z]+[^A-Z]+|[A-Z]+)")] *)
Definition gatherRegexp : regexp :=
  Group (Alt (Plus NotAZ) (Alt (Cat (Plus AZ) (Plus NotAZ)) (Plus AZ))).

(** [regexp.MustCompile("([A-Z]+)([A-Z][^A-Z]+)")] *)
Definition acronymRegexp : regexp :=
  Cat (Group (Plus AZ)) (Group (Cat (One AZ) (Plus NotAZ))).

(** The body of [if isTrue(tagSplitWords) || ...] in [gatherInfo]: the key
    that word splitting derives from the field name. *)
Definition splitName (words : list (list string)) : list string :=
  flat_map (fun words0 =>
    let w0 := nth 0 words0 "" in
    match FindStringSubmatch acronymRegexp w0 with
    | [_; m1; m2] => [m1; m2]
    | _ => [w0]
    end) words.

Definition splitWordsKey (name : string) : string :=
  let words := FindAllStringSubmatch gatherRegexp name in
  if (0 <? List.length words)%nat then Str.Join (splitName words) "_" else name.


(** ** Errors

    The package returns one sentinel error, errors made with [fmt.Errorf]
    (the constructor carries the arguments of the format), [*ParseError],
    and whatever [strconv], [time] or a method of the field's type return. *)

Inductive error : Type :=
| ErrInvalidSpecification
    (* errors.New("specification must be a struct pointer") *)
| RequiredValueMissing (key : string)
    (* fmt.Errorf("required key %s missing value", key) *)
| InvalidMapEntry (pair : string)
    (* fmt.Errorf("invalid map item: %q", pair) *)
| ParseError (KeyName FieldName TypeName Value : string) (Err : error)
| MultipleErrors (allErrs : list error)
    (* fmt.Errorf("multiple errors: %v", allErrs) *)
| NumError (Func Num Err : string)
    (* &strconv.NumError{Func, Num, Err} *)
| ExternalError (msg : string).
    (* any other error of strconv, of time, or of a method of the field's
       type *)

Inductive result (A : Type) : Type :=
| Ok (a : A)
| Err (e : error).
Arguments Ok {A} a.
Arguments Err {A} e.

(** ** Values and types of the configuration structure *)

Module reflect.

(** The storage of a field.  Integers of every width are a [Z] (the
    parsers only return a number that fits the width); a float is its bit
    pattern; a nil slice, map or pointer is [None]; [VOther] is the storage
    of any kind the package never reads or writes (array, channel,
    complex number, function, interface, uintptr, unsafe pointer). *)
Inductive value : Type :=
| VBool (b : bool)
| VInt (n : Z)
| VUint (n : Z)
| VFloat (bits : Z)
| VString (s : string)
| VPtr (pointee : option value)
| VSlice (elems : option (list value))
| VMap (entries : option (list (value * value)))
| VStruct (fields : list value)
| VOther (content : Z).

(** [reflect.Kind] *)
Inductive Kind : Type :=
| Invalid | Bool
| Int | Int8 | Int16 | Int32 | Int64
| Uint | Uint8 | Uint16 | Uint32 | Uint64 | Uintptr
| Float32 | Float64 | Complex64 | Complex128
| Array | Chan | Func | Interface | Map | Ptr | Slice | String | Struct
| UnsafePointer.

Definition Kind_eqb (a b : Kind) : bool :=
  match a, b with
  | Invalid, Invalid | Bool, Bool | Int, Int | Int8, Int8 | Int16, Int16
  | Int32, Int32 | Int64, Int64 | Uint, Uint | Uint8, Uint8 | Uint16, Uint16
  | Uint32, Uint32 | Uint64, Uint64 | Uintptr, Uintptr | Float32, Float32
  | Float64, Float64 | Complex64, Complex64 | Complex128, Complex128
  | Array, Array | Chan, Chan | Func, Func | Interface, Interface | Map, Map
  | Ptr, Ptr | Slice, Slice | String, String | Struct, Struct
  | UnsafePointer, UnsafePointer => true
  | _, _ => false
  end.

(** [reflect.StructTag]: the key:"value" pairs of the tag, in order. *)
Definition StructTag : Type := list (string * string).

(** [tag.Get(key)]: the value of the first pair with that key, else "". *)
Fixpoint Get (tag : StructTag) (key : string) : string :=
  match tag with
  | [] => ""
  | (k, v) :: tag' => if String.eqb k key then v else Get tag' key
  end.

(** [reflect.StructField], and whether the field's value can be set
    (the field is exported; the structure itself is always addressable). *)
Record StructField : Type := {
  FieldName : string;
  Tag : StructTag;
  Anonymous : bool;
  CanSet : bool
}.

(** A method that deserializes a text into its receiver: it is given the
    text and the receiver's storage and returns the storage it leaves and
    its error. *)
Definition method : Type := string -> value -> value * option error.

(** What the type says about itself, and the four interfaces its method
    set may satisfy.  A field is addressable, so the methods of T and
    those of *T both count ([interfaceFrom]). *)
Record typeInfo : Type := {
  PkgPath : string;
  TypeName : string;                 (* t.Name() *)
  TypeString : string;               (* t.String() *)
  Decode : option method;            (* Decoder *)
  SetMethod : option method;         (* Setter: Set(value string) error *)
  UnmarshalText : option method;     (* encoding.TextUnmarshaler *)
  UnmarshalBinary : option method    (* encoding.BinaryUnmarshaler *)
}.

Inductive shape (T : Type) : Type :=
| Basic (k : Kind)
| PtrTo (elem : T)
| SliceOf (elem : T)
| MapOf (key elem : T)
| StructOf (fields : list (StructField * T)).
Arguments Basic {T} k.
Arguments PtrTo {T} elem.
Arguments SliceOf {T} elem.
Arguments MapOf {T} key elem.
Arguments StructOf {T} fields.

(** [reflect.Type] *)
Inductive type : Type :=
| Ty (info : typeInfo) (sh : shape type).

Definition infoOf (t : type) : typeInfo := let 'Ty i _ := t in i.
Definition shapeOf (t : type) : shape type := let 'Ty _ s := t in s.

(** [t.Kind()].  A [Basic] shape carries the kind of a type without
    component types; the four composite kinds have their own shapes. *)
Definition KindOf (t : type) : Kind :=
  match shapeOf t with
  | Basic Ptr | Basic Slice | Basic Map | Basic Struct => Invalid
  | Basic k => k
  | PtrTo _ => Ptr
  | SliceOf _ => Slice
  | MapOf _ _ => Map
  | StructOf _ => Struct
  end.

(** [reflect.Zero(t)] *)
Fixpoint Zero (t : type) : value :=
  match t with
  | Ty _ sh =>
      match sh with
      | Basic Bool => VBool false
      | Basic (Int | Int8 | Int16 | Int32 | Int64) => VInt 0
      | Basic (Uint | Uint8 | Uint16 | Uint32 | Uint64) => VUint 0
      | Basic (Float32 | Float64) => VFloat 0
      | Basic String => VString ""
      | Basic _ => VOther 0
      | PtrTo _ => VPtr None
      | SliceOf _ => VSlice None
      | MapOf _ _ => VMap None
      | StructOf fields => VStruct (map (fun ft => Zero (snd ft)) fields)
      end
  end.

End reflect.

Import reflect.

(** ** What the package takes from [strconv] and [time]

    The number parsers are not part of the package; its code is embedded
    over any implementation of them. *)

Class Parsers : Type := {
  (** [strconv.IntSize]: the width of [int] and [uint] *)
  IntSize : Z;
  (** [strconv.ParseInt(s, base, bitSize)] *)
  ParseInt : string -> Z -> Z -> result Z;
  (** [strconv.ParseUint(s, base, bitSize)] *)
  ParseUint : string -> Z -> Z -> result Z;
  (** [strconv.ParseFloat(s, bitSize)], the bit pattern of the float *)
  ParseFloat : string -> Z -> result Z;
  (** [time.ParseDuration(s)], in nanoseconds *)
  ParseDuration : string -> result Z;
  (** [==] on two floats given by their bit patterns *)
  floatEqual : Z -> Z -> bool
}.

(** [t.Bits()] *)
Definition Bits `{Parsers} (t : type) : Z :=
  match KindOf t with
  | Int | Uint | Uintptr => IntSize
  | Int8 | Uint8 => 8
  | Int16 | Uint16 => 16
  | Int32 | Uint32 | Float32 => 32
  | Int64 | Uint64 | Float64 | Complex64 => 64
  | Complex128 => 128
  | _ => 0
  end.

(** ** Capabilities of a field: [interfaceFrom] and its four callers

    Every value the package asks is settable storage, so [CanInterface] and
    [CanAddr] hold and the assertion is tried on the value and on its
    address: the answer is in the type's method set. *)

Definition decoderFrom (field : type) : option method := Decode (infoOf field).
Definition setterFrom (field : type) : option method := SetMethod (infoOf field).
Definition textUnmarshaler (field : type) : option method := UnmarshalText (infoOf field).
Definition binaryUnmarshaler (field : type) : option method := UnmarshalBinary (infoOf field).

(** ** Maps

    A map is the list of its entries with pairwise different keys.
    [keyEqual] is Go's [==] on map keys: a non-nil pointer key made by
    [reflect.New] is a fresh address, equal to no key already in the map. *)

Fixpoint keyEqual `{Parsers} (a b : value) : bool :=
  match a, b with
  | VBool x, VBool y => Bool.eqb x y
  | VInt x, VInt y | VUint x, VUint y | VOther x, VOther y => Z.eqb x y
  | VFloat x, VFloat y => floatEqual x y
  | VString x, VString y => String.eqb x y
  | VPtr None, VPtr None => true
  | VStruct xs, VStruct ys =>
      (fix all2 (xs ys : list value) : bool :=
         match xs, ys with
         | [], [] => true
         | x :: xs', y :: ys' => keyEqual x y && all2 xs' ys'
         | _, _ => false
         end) xs ys
  | _, _ => false
  end.

(** [mp.SetMapIndex(k, v)] *)
Fixpoint SetMapIndex `{Parsers} (mp : list (value * value)) (k v : value)
  : list (value * value) :=
  match mp with
  | [] => [(k, v)]
  | (k0, v0) :: mp' =>
      if keyEqual k0 k then (k0, v) :: mp' else (k0, v0) :: SetMapIndex mp' k v
  end.

(** [mp.MapIndex(k)] *)
Fixpoint MapIndex `{Parsers} (mp : list (value * value)) (k : value) : option value :=
  match mp with
  | [] => None
  | (k0, v0) :: mp' => if keyEqual k0 k then Some v0 else MapIndex mp' k
  end.

(** [[]byte(value)] as the elements of a slice *)
Definition byteSlice (value : string) : list reflect.value :=
  map (fun a => VUint (Z.of_nat (nat_of_ascii a))) (Str.bytes value).

(** ** [processField]

    [processField typ value field] is the call [processField(value, field)]
    on a field of type [typ] whose storage holds [field]: it returns what
    the storage holds afterwards and the error. *)

Section ProcessField.
Context `{Parsers}.

(** The [for i, val := range vals] loop of the slice case: each piece is
    coerced into a fresh element, the first error ends the loop. *)
Fixpoint processElems (processField : string -> value -> value * option error)
    (zero : value) (vals : list string) : result (list value) :=
  match vals with
  | [] => Ok []
  | val :: vals' =>
      match processField val zero with
      | (_, Some err) => Err err
      | (elem, None) =>
          match processElems processField zero vals' with
          | Ok elems => Ok (elem :: elems)
          | Err err => Err err
          end
      end
  end.

(** The [for _, pair := range pairs] loop of the map case ([item] is the
    pair). *)
Fixpoint processPairs (processKey processElem : string -> value -> value * option error)
    (zeroKey zeroElem : value) (pairs : list string) (mp : list (value * value))
  : result (list (value * value)) :=
  match pairs with
  | [] => Ok mp
  | item :: pairs' =>
      match Str.Split item ":" with
      | [kv0; kv1] =>
          match processKey kv0 zeroKey with
          | (_, Some err) => Err err
          | (k, None) =>
              match processElem kv1 zeroElem with
              | (_, Some err) => Err err
              | (v, None) =>
                  processPairs processKey processElem zeroKey zeroElem pairs'
                    (SetMapIndex mp k v)
              end
          end
      | _ => Err (InvalidMapEntry item)
      end
  end.

(** The [switch typ.Kind()] of [processField]; [processField] is the
    function itself, for the elements of a slice and the entries of a
    map. *)
Definition switchKind (processField : type -> string -> value -> value * option error)
    (typ : type) (value : string) (field : reflect.value)
  : reflect.value * option error :=
  match shapeOf typ with
  | Basic String => (VString value, None)
  | Basic (Int | Int8 | Int16 | Int32 | Int64) =>
      let parsed :=
        if Kind_eqb (KindOf typ) Int64 && String.eqb (PkgPath (infoOf typ)) "time"
           && String.eqb (TypeName (infoOf typ)) "Duration"
        then ParseDuration value
        else ParseInt value 0 (Bits typ) in
      match parsed with
      | Err err => (field, Some err)
      | Ok val => (VInt val, None)
      end
  | Basic (Uint | Uint8 | Uint16 | Uint32 | Uint64) =>
      match ParseUint value 0 (Bits typ) with
      | Err err => (field, Some err)
      | Ok val => (VUint val, None)
      end
  | Basic Bool =>
      match Str.ParseBool value with
      | None => (field, Some (NumError "ParseBool" value "invalid syntax"))
      | Some val => (VBool val, None)
      end
  | Basic (Float32 | Float64) =>
      match ParseFloat value (Bits typ) with
      | Err err => (field, Some err)
      | Ok val => (VFloat val, None)
      end
  | SliceOf elem =>
      if Kind_eqb (KindOf elem) Uint8 then (VSlice (Some (byteSlice value)), None)
      else if negb (String.length (Str.TrimSpace value) =? 0)%nat then
        match processElems (processField elem) (Zero elem) (Str.Split value ",") with
        | Err err => (field, Some err)
        | Ok sl => (VSlice (Some sl), None)
        end
      else (VSlice (Some []), None)
  | MapOf key elem =>
      if negb (String.length (Str.TrimSpace value) =? 0)%nat then
        match processPairs (processField key) (processField elem) (Zero key) (Zero elem)
                (Str.Split value ",") [] with
        | Err err => (field, Some err)
        | Ok mp => (VMap (Some mp), None)
        end
      else (VMap (Some []), None)
  | _ => (field, None)
  end.

Fixpoint processField (typ : type) (value : string) (field : reflect.value) {struct typ}
  : reflect.value * option error :=
  match decoderFrom typ with
  | Some decoder => decoder value field
  | None =>
  match setterFrom typ with
  | Some setter => setter value field
  | None =>
  match textUnmarshaler typ with
  | Some t => t value field
  | None =>
  match binaryUnmarshaler typ with
  | Some b => b value field
  | None =>
      match typ with
      | Ty _ (PtrTo elem) =>
          (* typ = typ.Elem(); a nil field is set to reflect.New(typ);
             field = field.Elem() *)
          let pointee :=
            match field with
            | VPtr (Some v) => v
            | _ => Zero elem
            end in
          let (pointee', err) := switchKind processField elem value pointee in
          (VPtr (Some pointee'), err)
      | _ => switchKind processField typ value field
      end
  end end end end.

End ProcessField.

(** ** Field discovery: [gatherInfo] *)

(** Options to change default parsing. *)
Record Options : Type := {
  SplitWords : bool;
  Required : bool;
  ParallelExcecution : bool
}.

(** A settable [reflect.Value] inside the structure under discovery: its
    type and where its storage is, as the steps from the structure:
    [Fld i] for [s.Field(i)] and [Elem] for [f.Elem()] of a pointer. *)
Inductive step : Type :=
| Fld (i : nat)
| Elem.

Record handle : Type := {
  typeOf : type;
  pathOf : list step
}.

(** [varInfo] maintains information about the configuration variable. *)
Record varInfo : Type := {
  Name : string;
  Alt : string;
  Key : string;
  Field : handle;
  Tags : StructTag
}.

(** The handle of a value found in a nested structure, seen from the
    structure that holds it. *)
Definition under (st : step) (info : varInfo) : varInfo :=
  {| Name := Name info; Alt := Alt info; Key := Key info;
     Field := {| typeOf := typeOf (Field info); pathOf := st :: pathOf (Field info) |};
     Tags := Tags info |}.

Definition nonEmpty (s : string) : bool := negb (String.eqb s "").

(** The key of a field ([info.Key] at the time [info] is appended): the
    field name, split into words when asked, overridden by the [envconfig]
    tag, prefixed, upper-cased. *)
Definition deriveKey (options : Options) (prefix : string) (ftype : StructField) : string :=
  let alt := Str.ToUpper (Get (Tag ftype) "envconfig") in
  let key := FieldName ftype in
  let tagSplitWords := Get (Tag ftype) "split_words" in
  let key :=
    if isTrue tagSplitWords || SplitWords options && negb (isFalse tagSplitWords)
    then splitWordsKey (FieldName ftype)
    else key in
  let key := if nonEmpty alt then alt else key in
  let key := if nonEmpty prefix then (prefix ++ "_" ++ key)%string else key in
  Str.ToUpper key.

(** The [varInfo] that the loop body builds for the field [ftype] whose
    value, after the pointers are followed, is [f]. *)
Definition newInfo (options : Options) (prefix : string) (ftype : StructField) (f : handle)
  : varInfo :=
  {| Name := FieldName ftype;
     Field := f;
     Tags := Tag ftype;
     Alt := Str.ToUpper (Get (Tag ftype) "envconfig");
     Key := deriveKey options prefix ftype |}.

(** No [Decode], [Set], [UnmarshalText] or [UnmarshalBinary]. *)
Definition noCapability (typ : type) : bool :=
  match decoderFrom typ, setterFrom typ, textUnmarshaler typ, binaryUnmarshaler typ with
  | None, None, None, None => true
  | _, _, _, _ => false
  end.

(** [f.IsNil()] *)
Definition IsNil (f : value) : bool :=
  match f with
  | VPtr (Some _) => false
  | _ => true
  end.

(** The [for i := 0; i < s.NumField(); i++] loop over the fields that are
    left, [i] being the index of the first of them; [gatherField] is the
    body of the loop for a field that is not skipped.  It returns the
    descriptors and what the fields hold afterwards. *)
Fixpoint gatherFields (gatherField : StructField -> type -> value -> list varInfo * value)
    (fields : list (StructField * type)) (s : list value) (i : nat)
  : list varInfo * list value :=
  match fields, s with
  | (ftype, typ) :: fields', f :: s' =>
      if negb (CanSet ftype) || isTrue (Get (Tag ftype) "ignored")
      then
        let (infos, s'') := gatherFields gatherField fields' s' (S i) in
        (infos, f :: s'')
      else
        let (fieldInfos, f') := gatherField ftype typ f in
        let (infos, s'') := gatherFields gatherField fields' s' (S i) in
        (map (under (Fld i)) fieldInfos ++ infos, f' :: s'')
  | _, _ => ([], s)
  end.

(** The body of the loop for the field [ftype], whose value [f] has type
    [typ]: the pointers are followed (a nil pointer to a structure is set to
    a new zero structure, a nil pointer to anything else ends the walk), the
    descriptor is made, and a structure without capability is replaced by
    the descriptors of its own fields, found with the inner prefix. *)
Fixpoint gatherField (options : Options) (prefix : string) (ftype : StructField)
    (typ : type) (f : value) {struct typ} : list varInfo * value :=
  let info := newInfo options prefix ftype {| typeOf := typ; pathOf := [] |} in
  match typ with
  | Ty _ (PtrTo elem) =>
      if IsNil f && negb (Kind_eqb (KindOf elem) Struct)
      then ([info], f)                      (* nil pointer to a non-struct: break *)
      else
        let pointee :=
          match f with
          | VPtr (Some v) => v
          | _ => Zero elem                  (* f.Set(reflect.New(f.Type().Elem())) *)
          end in
        let (infos, pointee') := gatherField options prefix ftype elem pointee in
        (map (under Elem) infos, VPtr (Some pointee'))
  | Ty _ (StructOf fields) =>
      if noCapability typ then
        let innerPrefix := if Anonymous ftype then prefix else Key info in
        match f with
        | VStruct s =>
            let (embeddedInfos, s') :=
              gatherFields (gatherField options innerPrefix) fields s 0 in
            (embeddedInfos, VStruct s')
        | _ => ([], f)
        end
      else ([info], f)
  | _ => ([info], f)
  end.

(** [gatherInfo(prefix, spec, options)]: [spec] is an interface value, its
    dynamic type and the value.  It returns the descriptors or the error,
    and what [spec] holds afterwards. *)
Definition gatherInfo (prefix : string) (spec : type * value) (options : Options)
  : result (list varInfo) * value :=
  match shapeOf (fst spec), snd spec with
  | PtrTo typeOfSpec, VPtr (Some (VStruct s)) =>
      match shapeOf typeOfSpec with
      | StructOf fields =>
          let (infos, s') := gatherFields (gatherField options prefix) fields s 0 in
          (Ok infos, VPtr (Some (VStruct s')))
      | _ => (Err ErrInvalidSpecification, snd spec)
      end
  | _, _ => (Err ErrInvalidSpecification, snd spec)
  end.

(** ** Value resolution: [processInfo] *)

(** Modelled from the spec: [lookupEnv] is declared in another file of the
    package; it is the environment collaborator
    [lookup(key) -> (value, found)], which tells a variable set to the
    empty text from one that is not set.  [env] is the environment. *)
Definition lookupEnv (env : gmap string string) (key : string) : string * bool :=
  match env !! key with
  | Some value => (value, true)
  | None => ("", false)
  end.

(** The storage a handle points at, in the structure [s]. *)
Fixpoint load (p : list step) (v : value) : option value :=
  match p, v with
  | [], _ => Some v
  | Fld i :: p', VStruct s => s !! i ≫= load p'
  | Elem :: p', VPtr (Some v') => load p' v'
  | _, _ => None
  end.

(** Running [g] on the storage a handle points at: the structure
    afterwards and the error of [g].  A handle that points nowhere in [v]
    (none that [gatherInfo] returns does) leaves [v] as it is. *)
Fixpoint withField (p : list step) (g : value -> value * option error) (v : value)
  : value * option error :=
  match p, v with
  | [], _ => g v
  | Fld i :: p', VStruct s =>
      match s !! i with
      | Some f => let (f', err) := withField p' g f in (VStruct (<[i := f']> s), err)
      | None => (v, None)
      end
  | Elem :: p', VPtr (Some v') =>
      let (v'', err) := withField p' g v' in (VPtr (Some v''), err)
  | _, _ => (v, None)
  end.

Section Process.
Context `{Parsers}.
Variable env : gmap string string.

(** [processInfo(info, options)] on the structure [s] that holds the
    field. *)
Definition processInfo (info : varInfo) (options : Options) (s : value)
  : value * option error :=
  let (value, ok) := lookupEnv env (Key info) in
  let (value, ok) :=
    if negb ok && nonEmpty (Alt info) then lookupEnv env (Alt info) else (value, ok) in
  let def := Get (Tags info) "default" in
  let value := if nonEmpty def && negb ok then def else value in
  let req := Get (Tags info) "required" in
  if negb ok && String.eqb def "" then
    if isTrue req || (Required options && negb (isFalse req)) then
      let key := if nonEmpty (Alt info) then Alt info else Key info in
      (s, Some (RequiredValueMissing key))
    else (s, None)
  else
    match withField (pathOf (Field info)) (processField (typeOf (Field info)) value) s with
    | (s', Some err) =>
        (s', Some (ParseError (Key info) (Name info)
                     (TypeString (infoOf (typeOf (Field info)))) value err))
    | (s', None) => (s', None)
    end.

(** The sequential loop of [ProcessWithOptions]: the first error ends it. *)
Fixpoint processEach (infos : list varInfo) (options : Options) (s : value)
  : value * option error :=
  match infos with
  | [] => (s, None)
  | info :: infos' =>
      match processInfo info options s with
      | (s', Some err) => (s', Some err)
      | (s', None) => processEach infos' options s'
      end
  end.

(** The parallel branch, for the schedule in which the goroutines run one
    after the other in the order they were started: every descriptor is
    processed and the errors are collected in that order. *)
Fixpoint processAll (infos : list varInfo) (options : Options) (s : value)
  : value * list error :=
  match infos with
  | [] => (s, [])
  | info :: infos' =>
      let (s', e) := processInfo info options s in
      let (s'', allErrs) := processAll infos' options s' in
      (s'', match e with Some err => err :: allErrs | None => allErrs end)
  end.

(** [ProcessWithOptions(prefix, spec, options)]: what [spec] holds
    afterwards, and the error. *)
Definition ProcessWithOptions (prefix : string) (spec : type * value) (options : Options)
  : value * option error :=
  match gatherInfo prefix spec options with
  | (Err err, spec') => (spec', Some err)
  | (Ok infos, VPtr (Some s)) =>
      if ParallelExcecution options then
        let (s', allErrs) := processAll infos options s in
        (VPtr (Some s'),
         if (0 <? List.length allErrs)%nat then Some (MultipleErrors allErrs) else None)
      else
        let (s', err) := processEach infos options s in
        (VPtr (Some s'), err)
  | (Ok infos, spec') => (spec', None)
  end.

(** [Process(prefix, spec)] *)
Definition Process (prefix : string) (spec : type * value) : value * option error :=
  ProcessWithOptions prefix spec
    {| SplitWords := false; Required := false; ParallelExcecution := false |}.

End Process.

(** ** The cross-check: [CheckDisallowed] *)

(** [strings.HasPrefix(s, prefix)] on the bytes. *)
Fixpoint hasPrefixBytes (l prefix : list ascii) : bool :=
  match prefix, l with
  | [], _ => true
  | a :: prefix', b :: l' => Ascii.eqb a b && hasPrefixBytes l' prefix'
  | _ :: _, [] => false
  end.

Definition HasPrefix (s prefix : string) : bool :=
  hasPrefixBytes (Str.bytes s) (Str.bytes prefix).

(** [strings.SplitN(s, sep, 2)[0]]: the text before the first [sep], the
    whole text when [sep] does not occur. *)
Definition SplitN2_0 (s : string) (sep : ascii) : string :=
  match Str.Cut s sep with
  | Some (before, _) => before
  | None => s
  end.

(** What [CheckDisallowedWithOptions] returns: the error of [gatherInfo],
    or [fmt.Errorf("unknown environment variable %s", v)]. *)
Inductive checkError : Type :=
| DiscoveryError (err : error)
| UnknownVariable (v : string).

(** The [for _, env := range os.Environ()] loop: [vars] is the set of the
    keys, [environ] what is left of the "KEY=VALUE" entries. *)
Fixpoint checkEnviron (vars : gset string) (prefix : string) (environ : list string)
  : option checkError :=
  match environ with
  | [] => None
  | env :: environ' =>
      if negb (HasPrefix env prefix) then checkEnviron vars prefix environ'
      else
        let v := SplitN2_0 env "=" in
        if decide (v ∈ vars) then checkEnviron vars prefix environ'
        else Some (UnknownVariable v)
  end.

(** An entry of the environment that the loop lets pass: it does not begin
    with the prefix, or its name is a key. *)
Definition allowed (vars : gset string) (prefix : string) (env : string) : Prop :=
  HasPrefix env prefix = true -> SplitN2_0 env "=" ∈ vars.

(** [CheckDisallowedWithOptions(prefix, spec, options)], [environ] being
    [os.Environ()]: what [spec] holds afterwards, and the error. *)
Definition CheckDisallowedWithOptions (environ : list string)
    (prefix : string) (spec : type * value) (options : Options)
  : value * option checkError :=
  match gatherInfo prefix spec options with
  | (Err err, spec') => (spec', Some (DiscoveryError err))
  | (Ok infos, spec') =>
      let vars : gset string := list_to_set (map Key infos) in
      let prefix :=
        if nonEmpty prefix then (Str.ToUpper prefix ++ "_")%string else prefix in
      (spec', checkEnviron vars prefix environ)
  end.

(** [CheckDisallowed(prefix, spec)] *)
Definition CheckDisallowed (environ : list string) (prefix : string) (spec : type * value)
  : value * option checkError :=
  CheckDisallowedWithOptions environ prefix spec
    {| SplitWords := false; Required := false; ParallelExcecution := false |}.

(** ** Types and parsers for the examples *)

Module Examples.

(** An unnamed type without methods. *)
Definition plain (sh : shape type) (str : string) : type :=
  Ty {| PkgPath := ""; TypeName := ""; TypeString := str;
        Decode := None; SetMethod := None;
        UnmarshalText := None; UnmarshalBinary := None |} sh.

Definition tString : type := plain (Basic String) "string".
Definition tBool : type := plain (Basic Bool) "bool".
Definition tInt : type := plain (Basic Int) "int".
Definition tComplex : type := plain (Basic Complex128) "complex128".
Definition tMapStringString : type := plain (MapOf tString tString) "map[string]string".
Definition tSliceString : type := plain (SliceOf tString) "[]string".

(** A field declaration: exported, not embedded. *)
Definition field (name : string) (tag : StructTag) : StructField :=
  {| FieldName := name; Tag := tag; Anonymous := false; CanSet := true |}.

Definition embedded (name : string) (tag : StructTag) : StructField :=
  {| FieldName := name; Tag := tag; Anonymous := true; CanSet := true |}.

(** A structure with one text field, and a structure that holds a pointer
    to it and a text. *)
Definition tInner : type := plain (StructOf [(field "Host" [], tString)]) "Inner".
Definition tInnerPtr : type := plain (PtrTo tInner) "*Inner".
Definition tHolder : type :=
  plain (StructOf [(field "Inner" [], tInnerPtr); (field "Name" [], tString)]) "Holder".
Definition tHolderPtr : type := plain (PtrTo tHolder) "*Holder".

(** A structure of three texts, the second one required. *)
Definition tServer : type :=
  plain (StructOf [(field "Name" [], tString);
                   (field "Port" [("required", "true")], tString);
                   (field "Host" [], tString)]) "Server".
Definition tServerPtr : type := plain (PtrTo tServer) "*Server".

(** The descriptor of the text field [name] at index [i]. *)
Definition textAt (i : nat) (name : string) (tag : StructTag) : varInfo :=
  {| Name := name; Alt := ""; Key := Str.ToUpper name;
     Field := {| typeOf := tString; pathOf := [Fld i] |}; Tags := tag |}.

(** The descriptor of a text field at index 0, with the given tag. *)
Definition textInfo (name : string) (tag : StructTag) (options : Options) : varInfo :=
  newInfo options "" (field name tag) {| typeOf := tString; pathOf := [Fld 0] |}.

Definition defaults : Options :=
  {| SplitWords := false; Required := false; ParallelExcecution := false |}.

(** Parsers that accept nothing: enough for structures of texts. *)
#[local] Instance noNumbers : Parsers := {|
  IntSize := 64;
  ParseInt s _ _ := Err (NumError "ParseInt" s "invalid syntax");
  ParseUint s _ _ := Err (NumError "ParseUint" s "invalid syntax");
  ParseFloat s _ := Err (NumError "ParseFloat" s "invalid syntax");
  ParseDuration s := Err (ExternalError "time: invalid duration");
  floatEqual := Z.eqb
|}.

End Examples.

(** More structures: pointers to basic types, a structure with an ignored
    field, and descriptors under a prefix. *)
Module Samples.

Definition tIntPtr : type := Examples.plain (PtrTo Examples.tInt) "*int".
Definition tStringPtr : type := Examples.plain (PtrTo Examples.tString) "*string".


(** A structure whose first field is a required text and whose second
    field is a pointer to [Inner]. *)
Definition tStrict : type :=
  Examples.plain
    (StructOf [(Examples.field "Port" [("required", "true")], Examples.tString);
               (Examples.field "Inner" [], Examples.tInnerPtr)]) "Strict".
Definition tStrictPtr : type := Examples.plain (PtrTo tStrict) "*Strict".



(** The descriptor of a text field with the given key and handle. *)
Definition textWith (name key : string) (path : list step) (tag : StructTag) : varInfo :=
  {| Name := name; Alt := ""; Key := key;
     Field := {| typeOf := Examples.tString; pathOf := path |}; Tags := tag |}.

(** The descriptors of [Server], without prefix and under the prefix app,
    and those of [Holder]. *)
Definition serverInfos : list varInfo :=
  [Examples.textAt 0 "Name" []; Examples.textAt 1 "Port" [("required", "true")];
   Examples.textAt 2 "Host" []].
Definition appServerInfos : list varInfo :=
  [textWith "Name" "APP_NAME" [Fld 0] [];
   textWith "Port" "APP_PORT" [Fld 1] [("required", "true")];
   textWith "Host" "APP_HOST" [Fld 2] []].
Definition holderInfos : list varInfo :=
  [textWith "Host" "INNER_HOST" [Fld 0; Elem; Fld 0] [];
   textWith "Name" "NAME" [Fld 1] []].

Definition parallel : Options :=
  {| SplitWords := false; Required := false; ParallelExcecution := true |}.

End Samples.



(** ** The naming rule in words

    The words of an identifier: a run of non-uppercase letters, or an
    uppercase run followed by non-uppercase letters, or the uppercase run
    that ends the identifier. *)

(** The longest run of class [c] at the head of [l], and what follows. *)
Fixpoint span (c : class) (l : list ascii) : list ascii * list ascii :=
  match l with
  | [] => ([], [])
  | a :: l' =>
      if inClass c a then let (run, after) := span c l' in (a :: run, after)
      else ([], l)
  end.

(** [l] starts with a letter of class [c]. *)
Definition headIn (c : class) (l : list ascii) : bool :=
  match l with
  | a :: _ => inClass c a
  | [] => false
  end.

(** The first word of [l] and what follows it. *)
Definition nextWord (l : list ascii) : list ascii * list ascii :=
  match l with
  | [] => ([], [])
  | a :: _ =>
      if Str.isAZ a then
        let (upper, l1) := span AZ l in
        let (lower, l2) := span NotAZ l1 in
        (upper ++ lower, l2)
      else span NotAZ l
  end.

(** The words of [l]; each word takes a letter at least, so [fuel] = length
    of [l] is enough. *)
Fixpoint wordsOf (fuel : nat) (l : list ascii) : list (list ascii) :=
  match fuel, l with
  | S fuel', _ :: _ => let (w, after) := nextWord l in w :: wordsOf fuel' after
  | _, _ => []
  end.

(** A word that is an acronym followed by a capitalized word (two uppercase
    letters at least, then something) is split before the last uppercase
    letter; any other word is kept. *)
Definition splitAcronym (w : list ascii) : list (list ascii) :=
  let (upper, lower) := span AZ w in
  if (2 <=? List.length upper)%nat && (1 <=? List.length lower)%nat
  then [List.removelast upper; List.last upper "A"%char :: lower]
  else [w].

(** A word begins with uppercase letters (or none) and goes on with
    non-uppercase letters (or none). *)
Definition wordShape (w : list ascii) : Prop :=
  exists upper lower,
    w = upper ++ lower
    /\ Forall (fun a => inClass AZ a = true) upper
    /\ Forall (fun a => inClass NotAZ a = true) lower.

(** The matches of "[A-Z][^A-Z]+" at the head of [r], after the acronym
    [m]: the text of the whole match, the two groups, the text left. *)
Definition tailHits (m r : list ascii) : list hit :=
  match r with
  | b :: r' =>
      if Str.isAZ b
      then map (fun mr => Hit (m ++ b :: fst mr) [m; b :: fst mr] (snd mr)) (plusRuns NotAZ r')
      else []
  | [] => []
  end.

(** One more letter in front of a match and of its first group. *)
Definition longerBy (a : ascii) (h : hit) : hit :=
  Hit (a :: matched h)
      (match groups h with
       | g :: gs => (a :: g) :: gs
       | [] => []
       end)
      (rest h).

(** The segments of an identifier. *)
Definition segmentsOf (name : string) : list (list ascii) :=
  flat_map splitAcronym (wordsOf (String.length name) (Str.bytes name)).

(** ** The claims' vocabulary

    Definitions the statements below are written with. *)

Section Vocabulary.
Context `{Parsers}.
Implicit Types (env : gmap string string) (info : varInfo) (options : Options).

(** The built-in coercion by target shape: what [processField] does once
    no capability was found (from [if typ.Kind() == reflect.Ptr] on). *)
Definition builtinCoercion (typ : type) (value : string) (field : reflect.value)
  : reflect.value * option error :=
  match shapeOf typ with
  | PtrTo elem =>
      let pointee := match field with VPtr (Some v) => v | _ => Zero elem end in
      let (pointee', err) := switchKind processField elem value pointee in
      (VPtr (Some pointee'), err)
  | _ => switchKind processField typ value field
  end.

(** The kinds that [processField] coerces by itself: the cases of its
    [switch], and pointers. *)
Definition coercibleKind (k : Kind) : bool :=
  match k with
  | String | Int | Int8 | Int16 | Int32 | Int64
  | Uint | Uint8 | Uint16 | Uint32 | Uint64
  | Bool | Float32 | Float64 | Ptr | Slice | Map => true
  | _ => false
  end.

(** What [processInfo] returns once it has the text [value] for the
    field: the coercion at the destination, its error wrapped in a
    [ParseError]. *)
Definition coerceInto info (value : string) (s : reflect.value)
  : reflect.value * option error :=
  let (s', e) :=
    withField (pathOf (Field info)) (processField (typeOf (Field info)) value) s in
  (s', option_map (ParseError (Key info) (Name info)
                     (TypeString (infoOf (typeOf (Field info)))) value) e).

(** The required policy, for a field without value and without default. *)
Definition requiredByPolicy info options : bool :=
  isTrue (Get (Tags info) "required")
  || Required options && negb (isFalse (Get (Tags info) "required")).

(** Neither the key nor the alternate key, if there is one, is set. *)
Definition unset env info : Prop :=
  env !! Key info = None /\ (Alt info = "" \/ env !! Alt info = None).

(** The entries of a mapping value, pair by pair, for a given way [cut] of
    taking a pair apart into its two sides: a pair that [cut] refuses is an
    [InvalidMapEntry], otherwise each side is coerced and the entry
    inserted. *)
Fixpoint entriesBy (cut : string -> option (string * string))
    (key elem : type) (pairs : list string) (mp : list (value * value))
  : result (list (value * value)) :=
  match pairs with
  | [] => Ok mp
  | item :: pairs' =>
      match cut item with
      | None => Err (InvalidMapEntry item)
      | Some (kv0, kv1) =>
          match processField key kv0 (Zero key) with
          | (_, Some err) => Err err
          | (k, None) =>
              match processField elem kv1 (Zero elem) with
              | (_, Some err) => Err err
              | (v, None) => entriesBy cut key elem pairs' (SetMapIndex mp k v)
              end
          end
      end
  end.

(** The coercion of [value] into a mapping from [key] to [elem], for a way
    of taking the pairs apart. *)
Definition mapCoercionBy (cut : string -> option (string * string))
    (key elem : type) (value : string) (field : reflect.value)
  : reflect.value * option error :=
  if (String.length (Str.TrimSpace value) =? 0)%nat then (VMap (Some []), None)
  else match entriesBy cut key elem (Str.Split value ",") [] with
       | Ok mp => (VMap (Some mp), None)
       | Err err => (field, Some err)
       end.

(** A pair taken apart at its first ':' (what is after may hold more of
    them); refused when it has none. *)
Definition atFirstColon (item : string) : option (string * string) :=
  Str.Cut item ":".

(** A pair taken apart at its only ':'; refused when it has none or more
    than one. *)
Definition atOnlyColon (item : string) : option (string * string) :=
  match Str.Cut item ":" with
  | Some (kv0, kv1) =>
      match Str.Cut kv1 ":" with
      | None => Some (kv0, kv1)
      | Some _ => None
      end
  | None => None
  end.

(** A descriptor that resolution passes over: nothing is set for it, it
    has no default, and the required policy does not ask for it. *)
Definition unbound env options info : Prop :=
  unset env info /\ Get (Tags info) "default" = "" /\ requiredByPolicy info options = false.

(** What discovery leaves in the fields of a structure, [alloc] being what
    it leaves in a field that is not skipped. *)
Fixpoint allocatedFields (alloc : type -> value -> value)
    (fields : list (StructField * type)) (s : list value) : list value :=
  match fields, s with
  | (ftype, typ) :: fields', f :: s' =>
      (if negb (CanSet ftype) || isTrue (Get (Tag ftype) "ignored") then f else alloc typ f)
      :: allocatedFields alloc fields' s'
  | _, _ => s
  end.

(** What discovery leaves in a field of type [typ] that holds [f]: a nil
    pointer to a structure points to a new structure, whose own nil
    pointers to structures are allocated in turn; a nil pointer to anything
    else stays nil; the structures without capability are visited; nothing
    else changes. *)
Fixpoint allocated (typ : type) (f : value) {struct typ} : value :=
  match typ with
  | Ty _ (PtrTo elem) =>
      match f with
      | VPtr (Some v) => VPtr (Some (allocated elem v))
      | _ =>
          if Kind_eqb (KindOf elem) Struct
          then VPtr (Some (allocated elem (Zero elem)))
          else f
      end
  | Ty _ (StructOf fields) =>
      if noCapability typ then
        match f with
        | VStruct s => VStruct (allocatedFields allocated fields s)
        | _ => f
        end
      else f
  | _ => f
  end.

(** Two handles part ways: at some structure on the way they enter
    different fields. *)
Fixpoint diverge (p q : list step) : Prop :=
  match p, q with
  | Fld i :: p', Fld j :: q' => i <> j \/ diverge p' q'
  | Elem :: p', Elem :: q' => diverge p' q'
  | _, _ => False
  end.

(** Two descriptors whose handles part ways. *)
Definition apart (a b : varInfo) : Prop :=
  diverge (pathOf (Field a)) (pathOf (Field b)).

(** The keys of the entries of [mp]: no entry has a key equal to the key of
    a later one. *)
Definition distinctKeys (mp : list (value * value)) : Prop :=
  ForallOrdPairs (fun a b => keyEqual (fst a) (fst b) = false) mp.

(** What a descriptor is for: not a structure that discovery goes into, and
    a pointer only when it is a nil pointer to something that is not a
    structure. *)
Definition leaf (typ : type) (v : value) : Prop :=
  (KindOf typ = Struct -> noCapability typ = false)
  /\ (forall elem, shapeOf typ = PtrTo elem ->
        IsNil v = true /\ Kind_eqb (KindOf elem) Struct = false).

(** The options with parallel execution switched on or off. *)
Definition withParallel (b : bool) (options : Options) : Options :=
  {| SplitWords := SplitWords options; Required := Required options;
     ParallelExcecution := b |}.

(** The errors of resolution. *)
Definition resolutionError (err : error) : Prop :=
  (exists key, err = RequiredValueMissing key)
  \/ (exists key name typeName text cause, err = ParseError key name typeName text cause).

(** The errors collected so far, with one more result. *)
Definition collect (e : option error) (errs : list error) : list error :=
  match e with
  | Some err => err :: errs
  | None => errs
  end.

(** The text that resolution finds for a descriptor: the value of the key,
    else the value of the alternate key, else the default; none when there
    is none of them. *)
Definition textFor env info : option string :=
  match env !! Key info with
  | Some text => Some text
  | None =>
      match (if nonEmpty (Alt info) then env !! Alt info else None) with
      | Some text => Some text
      | None =>
          if nonEmpty (Get (Tags info) "default")
          then Some (Get (Tags info) "default")
          else None
      end
  end.

(** What the field of a descriptor holds after its resolution, when it held
    [v] before. *)
Definition resolved env info (v : reflect.value) : reflect.value :=
  match textFor env info with
  | Some text => fst (processField (typeOf (Field info)) text v)
  | None => v
  end.

(** [field.Set(reflect.ValueOf([]byte(value)))], in the sequence case of
    [processField], needs [[]byte] to be assignable to the type of the
    field: the element type has to be [uint8] itself.  For a defined type
    of kind [uint8] (type MyByte uint8), which has a package path,
    [reflect] panics there; [definedByte] tells that case. *)
Definition definedByte (elem : type) : bool :=
  Kind_eqb (KindOf elem) Uint8 && nonEmpty (PkgPath (infoOf elem)).

(** The runs of [processField] that end in that panic instead of
    returning, along the control flow of [processField]: [switchKind] and
    [processField] say what a run returns, [panics] whether it returns.
    The loops stop at the first error, before a later element is looked
    at. *)
Fixpoint elemsPanic (panics : string -> bool)
    (processField : string -> value -> value * option error)
    (zero : value) (vals : list string) : bool :=
  match vals with
  | [] => false
  | val :: vals' =>
      panics val
      || match processField val zero with
         | (_, Some _) => false
         | (_, None) => elemsPanic panics processField zero vals'
         end
  end.

Fixpoint pairsPanic (panicsKey panicsElem : string -> bool)
    (processKey processElem : string -> value -> value * option error)
    (zeroKey zeroElem : value) (pairs : list string) : bool :=
  match pairs with
  | [] => false
  | item :: pairs' =>
      match Str.Split item ":" with
      | [kv0; kv1] =>
          panicsKey kv0
          || match processKey kv0 zeroKey with
             | (_, Some _) => false
             | (_, None) =>
                 panicsElem kv1
                 || match processElem kv1 zeroElem with
                    | (_, Some _) => false
                    | (_, None) =>
                        pairsPanic panicsKey panicsElem processKey processElem
                          zeroKey zeroElem pairs'
                    end
             end
      | _ => false
      end
  end.

Definition switchPanics (panics : type -> string -> bool) (typ : type) (value : string)
  : bool :=
  match shapeOf typ with
  | SliceOf elem =>
      if Kind_eqb (KindOf elem) Uint8 then definedByte elem
      else if negb (String.length (Str.TrimSpace value) =? 0)%nat then
        elemsPanic (panics elem) (processField elem) (Zero elem) (Str.Split value ",")
      else false
  | MapOf key elem =>
      if negb (String.length (Str.TrimSpace value) =? 0)%nat then
        pairsPanic (panics key) (panics elem) (processField key) (processField elem)
          (Zero key) (Zero elem) (Str.Split value ",")
      else false
  | _ => false
  end.

Fixpoint panics (typ : type) (value : string) {struct typ} : bool :=
  if noCapability typ then
    match typ with
    | Ty _ (PtrTo elem) => switchPanics panics elem value
    | _ => switchPanics panics typ value
    end
  else false.

(** A text of ASCII bytes only: [Str.ToUpper] is [strings.ToUpper] on
    it. *)
Definition isASCII (s : string) : bool :=
  forallb (fun a => (nat_of_ascii a <? 128)%nat) (Str.bytes s).

(** The names and [envconfig] tags of the fields of a structure type, and
    of the structures in it, are ASCII texts. *)
Fixpoint asciiFields (asciiNames : type -> bool) (fields : list (StructField * type))
  : bool :=
  match fields with
  | [] => true
  | (ftype, typ) :: fields' =>
      isASCII (FieldName ftype) && isASCII (Get (Tag ftype) "envconfig")
      && asciiNames typ && asciiFields asciiNames fields'
  end.

Fixpoint asciiNames (typ : type) : bool :=
  match typ with
  | Ty _ (PtrTo elem) => asciiNames elem
  | Ty _ (StructOf fields) => asciiFields asciiNames fields
  | _ => true
  end.

End Vocabulary.

(** Induction on a type, with the fields of a structure. *)
Section TypeInduction.
Variable P : type -> Prop.
Hypothesis onBasic : forall info k, P (Ty info (Basic k)).
Hypothesis onPtr : forall info elem, P elem -> P (Ty info (PtrTo elem)).
Hypothesis onSlice : forall info elem, P elem -> P (Ty info (SliceOf elem)).
Hypothesis onMap : forall info key elem, P key -> P elem -> P (Ty info (MapOf key elem)).
Hypothesis onStruct : forall info fields,
  Forall (fun ft => P (snd ft)) fields -> P (Ty info (StructOf fields)).

Fixpoint type_induction (t : type) : P t :=
  match t with
  | Ty info sh =>
      match sh with
      | Basic k => onBasic info k
      | PtrTo elem => onPtr info elem (type_induction elem)
      | SliceOf elem => onSlice info elem (type_induction elem)
      | MapOf key elem => onMap info key elem (type_induction key) (type_induction elem)
      | StructOf fields =>
          onStruct info fields
            ((fix all (fs : list (StructField * type)) : Forall (fun ft => P (snd ft)) fs :=
                match fs with
                | [] => @List.Forall_nil _ _
                | ft :: fs' => @List.Forall_cons _ _ ft fs' (type_induction (snd ft)) (all fs')
                end) fields)
      end
  end.
End TypeInduction.

(** * Properties *)

(** ** Coercion: the order of the capabilities *)

Section Coercion.
Context `{Parsers}.

Lemma processField_unfold typ value field :
  processField typ value field =
  match decoderFrom typ with
  | Some decoder => decoder value field
  | None =>
  match setterFrom typ with
  | Some setter => setter value field
  | None =>
  match textUnmarshaler typ with
  | Some t => t value field
  | None =>
  match binaryUnmarshaler typ with
  | Some b => b value field
  | None => builtinCoercion typ value field
  end end end end.
Proof.
  destruct typ as [info sh].
  unfold decoderFrom, setterFrom, textUnmarshaler, binaryUnmarshaler.
  cbn [processField infoOf].
  unfold decoderFrom, setterFrom, textUnmarshaler, binaryUnmarshaler.
  cbn [infoOf].
  destruct (Decode info), (SetMethod info), (UnmarshalText info), (UnmarshalBinary info);
    reflexivity.
Qed.

Lemma noCapability_inv typ :
  noCapability typ = true ->
  decoderFrom typ = None /\ setterFrom typ = None /\
  textUnmarshaler typ = None /\ binaryUnmarshaler typ = None.
Proof.
  unfold noCapability.
  destruct (decoderFrom typ), (setterFrom typ), (textUnmarshaler typ),
    (binaryUnmarshaler typ); intros; try discriminate; auto.
Qed.

Lemma processField_builtin typ value field :
  noCapability typ = true ->
  processField typ value field = builtinCoercion typ value field.
Proof.
  intros (Hd & Hs & Ht & Hb)%noCapability_inv.
  rewrite processField_unfold, Hd, Hs, Ht, Hb. reflexivity.
Qed.

(** C5.  The capabilities of the destination are tried in the order
    decode-from-string, set-from-string, unmarshal-from-text,
    unmarshal-from-binary; the first one present is the whole conversion
    (the shape of the type and the later capabilities play no part), and
    the built-in coercion by shape runs only when there is none. *)
Theorem processField_capability_order (typ : type) (value : string) (field : reflect.value) :
  processField typ value field =
  match decoderFrom typ, setterFrom typ, textUnmarshaler typ, binaryUnmarshaler typ with
  | Some decoder, _, _, _ => decoder value field
  | None, Some setter, _, _ => setter value field
  | None, None, Some t, _ => t value field
  | None, None, None, Some b => b value field
  | None, None, None, None => builtinCoercion typ value field
  end.
Proof.
  rewrite processField_unfold.
  destruct (decoderFrom typ), (setterFrom typ), (textUnmarshaler typ),
    (binaryUnmarshaler typ); reflexivity.
Qed.

(** C10.  A destination without capability whose kind is none of the
    built-in coercible ones (text, integer, unsigned, boolean, float,
    pointer, sequence, mapping) accepts every value: no error, and the
    destination keeps what it held. *)
Theorem processField_unsupported_kind (typ : type) (value : string) (field : reflect.value) :
  noCapability typ = true ->
  coercibleKind (KindOf typ) = false ->
  processField typ value field = (field, None).
Proof.
  intros Hcap Hkind. rewrite processField_builtin by assumption.
  destruct typ as [info sh]. unfold builtinCoercion, switchKind, KindOf in *.
  cbn [shapeOf] in *.
  destruct sh as [k| | | |]; try discriminate; try reflexivity.
  destruct k; try discriminate; reflexivity.
Qed.

End Coercion.


(** ** Resolution: required fields, defaults, empty values *)

Section Resolution.
Context `{Parsers}.
Implicit Types (env : gmap string string) (info : varInfo) (options : Options).

Lemma lookupEnv_None env key : env !! key = None -> lookupEnv env key = ("", false).
Proof. unfold lookupEnv. intros ->. reflexivity. Qed.

Lemma lookupEnv_Some env key value :
  env !! key = Some value -> lookupEnv env key = (value, true).
Proof. unfold lookupEnv. intros ->. reflexivity. Qed.

Lemma nonEmpty_false (s : string) : nonEmpty s = false <-> s = "".
Proof.
  unfold nonEmpty. rewrite negb_false_iff. apply String.eqb_eq.
Qed.

Lemma nonEmpty_true (s : string) : nonEmpty s = true <-> s <> "".
Proof.
  unfold nonEmpty. rewrite negb_true_iff. apply String.eqb_neq.
Qed.

(** The two lookups of [processInfo] when nothing is set. *)
Lemma lookups_unset env info :
  unset env info ->
  (let (value, ok) := lookupEnv env (Key info) in
   if negb ok && nonEmpty (Alt info) then lookupEnv env (Alt info) else (value, ok))
  = ("", false).
Proof.
  intros [Hkey Halt]. rewrite (lookupEnv_None _ _ Hkey). cbn [negb andb].
  destruct Halt as [Halt | Halt].
  - apply nonEmpty_false in Halt. rewrite Halt. reflexivity.
  - rewrite (lookupEnv_None _ _ Halt). destruct (nonEmpty _); reflexivity.
Qed.

Lemma processInfo_found env info options s (value : string) :
  env !! Key info = Some value ->
  processInfo env info options s = coerceInto info value s.
Proof.
  intros Hkey. unfold processInfo, coerceInto.
  rewrite (lookupEnv_Some _ _ _ Hkey). cbn [negb andb].
  rewrite andb_false_r. cbn [andb].
  destruct (withField _ _ _) as [s' [e|]]; reflexivity.
Qed.

Lemma processInfo_unset_default env info options s :
  unset env info ->
  Get (Tags info) "default" <> "" ->
  processInfo env info options s = coerceInto info (Get (Tags info) "default") s.
Proof.
  intros Hunset Hdef. unfold processInfo, coerceInto.
  pose proof (lookups_unset env info Hunset) as Hl.
  destruct (lookupEnv env (Key info)) as [v0 ok0].
  rewrite Hl. apply nonEmpty_true in Hdef as Hne. rewrite Hne.
  apply String.eqb_neq in Hdef. rewrite Hdef. cbn [negb andb].
  destruct (withField _ _ _) as [s' [e|]]; reflexivity.
Qed.

Lemma processInfo_unset_no_default env info options (s : reflect.value) :
  unset env info ->
  Get (Tags info) "default" = "" ->
  processInfo env info options s =
  if requiredByPolicy info options
  then (s, Some (RequiredValueMissing (if nonEmpty (Alt info) then Alt info else Key info)))
  else (s, None).
Proof.
  intros Hunset Hdef. unfold processInfo, requiredByPolicy.
  pose proof (lookups_unset env info Hunset) as Hl.
  destruct (lookupEnv env (Key info)) as [v0 ok0].
  rewrite Hl, Hdef. reflexivity.
Qed.

(** C3.  When neither the key nor the alternate key is set and the field
    has no default, resolution fails exactly when the field is marked
    required, or the global option is on and the field is not marked
    not-required; the error names the alternate key if there is one, else
    the key; otherwise it succeeds.  Either way the structure is left as
    it was. *)
Theorem processInfo_required env info options (s : reflect.value) :
  unset env info ->
  Get (Tags info) "default" = "" ->
  processInfo env info options s =
  (s, if isTrue (Get (Tags info) "required")
         || Required options && negb (isFalse (Get (Tags info) "required"))
      then Some (RequiredValueMissing
                   (if String.eqb (Alt info) "" then Key info else Alt info))
      else None).
Proof.
  intros Hunset Hdef. rewrite processInfo_unset_no_default by assumption.
  unfold requiredByPolicy, nonEmpty.
  destruct (isTrue _ || _); [|reflexivity].
  destruct (String.eqb (Alt info) ""); reflexivity.
Qed.

(** C8.  When neither the key nor the alternate key is set and the field
    has a default, resolution coerces the default into the destination,
    exactly as if the environment had held the default under the key, and
    the required policy does not fire whatever the field and the options
    say. *)
Theorem processInfo_default env info options (s : reflect.value) (def : string) :
  unset env info ->
  Get (Tags info) "default" = def ->
  def <> "" ->
  processInfo env info options s = coerceInto info def s
  /\ processInfo env info options s = processInfo (<[Key info := def]> env) info options s
  /\ forall key, snd (processInfo env info options s) <> Some (RequiredValueMissing key).
Proof.
  intros Hunset <- Hdef.
  assert (Heq : processInfo env info options s
                = coerceInto info (Get (Tags info) "default") s)
    by (apply processInfo_unset_default; assumption).
  split; [exact Heq|]. split.
  - rewrite Heq. symmetry. apply processInfo_found. apply lookup_insert_eq.
  - intros key. rewrite Heq. unfold coerceInto.
    destruct (withField _ _ _) as [s' [e|]]; cbn; discriminate.
Qed.


End Resolution.

(** ** Coercion into a mapping *)

Section Mapping.
Context `{Parsers}.

Lemma bytes_ofBytes (l : list ascii) : Str.bytes (Str.ofBytes l) = l.
Proof. apply list_ascii_of_string_of_list_ascii. Qed.

Lemma ofBytes_bytes (s : string) : Str.ofBytes (Str.bytes s) = s.
Proof. apply string_of_list_ascii_of_string. Qed.

(** [Split] cuts at the first separator and splits what is left. *)
Lemma splitBytes_cutBytes (sep : ascii) (l : list ascii) :
  Str.splitBytes sep l =
  match Str.cutBytes sep l with
  | None => [l]
  | Some (before, after) => before :: Str.splitBytes sep after
  end.
Proof.
  induction l as [|a l IH]; [reflexivity|].
  cbn [Str.splitBytes Str.cutBytes].
  destruct (Ascii.eqb a sep); [reflexivity|].
  rewrite IH. destruct (Str.cutBytes sep l) as [[before after]|]; reflexivity.
Qed.

(** A pair splits into exactly two parts when it has exactly one ':'. *)
Lemma Split_two_parts (A : Type) (item : string) (two : string -> string -> A) (other : A) :
  match Str.Split item ":" with
  | [kv0; kv1] => two kv0 kv1
  | _ => other
  end =
  match atOnlyColon item with
  | Some (kv0, kv1) => two kv0 kv1
  | None => other
  end.
Proof.
  unfold Str.Split, atOnlyColon, Str.Cut.
  rewrite splitBytes_cutBytes.
  destruct (Str.cutBytes ":" (Str.bytes item)) as [[before after]|]; [|reflexivity].
  rewrite bytes_ofBytes, splitBytes_cutBytes.
  destruct (Str.cutBytes ":" after) as [[before' after']|]; [|reflexivity].
  rewrite splitBytes_cutBytes.
  destruct (Str.cutBytes ":" after') as [[? ?]|]; reflexivity.
Qed.

Lemma processPairs_entriesBy (key elem : type) (pairs : list string) mp :
  processPairs (processField key) (processField elem) (Zero key) (Zero elem) pairs mp
  = entriesBy atOnlyColon key elem pairs mp.
Proof.
  revert mp. induction pairs as [|item pairs IH]; intros mp; [reflexivity|].
  cbn [processPairs entriesBy].
  rewrite (Split_two_parts _ item
             (fun kv0 kv1 =>
                match processField key kv0 (Zero key) with
                | (_, Some err) => Err err
                | (k, None) =>
                    match processField elem kv1 (Zero elem) with
                    | (_, Some err) => Err err
                    | (v, None) =>
                        processPairs (processField key) (processField elem)
                          (Zero key) (Zero elem) pairs (SetMapIndex mp k v)
                    end
                end) (Err (InvalidMapEntry item))).
  destruct (atOnlyColon item) as [[kv0 kv1]|]; [|reflexivity].
  destruct (processField key kv0 (Zero key)) as [k [e|]]; [reflexivity|].
  destruct (processField elem kv1 (Zero elem)) as [v [e|]]; [reflexivity|].
  apply IH.
Qed.

(** The last write to a key is what the map holds for it. *)
Lemma MapIndex_SetMapIndex mp (k v : value) :
  keyEqual k k = true -> MapIndex (SetMapIndex mp k v) k = Some v.
Proof.
  intros Hk. induction mp as [|[k0 v0] mp IH]; cbn [SetMapIndex MapIndex].
  - rewrite Hk. reflexivity.
  - destruct (keyEqual k0 k) eqn:E; cbn [MapIndex]; rewrite E; [reflexivity|exact IH].
Qed.

(** C1, as the code has it.  For a mapping-shaped destination without
    capability: an empty or all-white-space value gives the empty mapping;
    any other value is split on ',' into pairs and each pair on every ':',
    a pair that has no ':' or more than one is an [InvalidMapEntry], and
    otherwise each side is coerced (an error of either ends the coercion,
    the destination untouched) and the entry inserted, the last write to a
    key winning.  So "k1:v1,k2:v2" gives {k1:v1, k2:v2}, and "badpair"
    fails. *)
Theorem processField_mapping (typ key elem : type) (value : string) (field : reflect.value) :
  noCapability typ = true ->
  shapeOf typ = MapOf key elem ->
  processField typ value field = mapCoercionBy atOnlyColon key elem value field
  /\ (forall mp k v, keyEqual k k = true -> MapIndex (SetMapIndex mp k v) k = Some v)
  /\ processField Examples.tMapStringString "k1:v1,k2:v2" field
     = (VMap (Some [(VString "k1", VString "v1"); (VString "k2", VString "v2")]), None)
  /\ processField Examples.tMapStringString "k:v1,k:v2" field
     = (VMap (Some [(VString "k", VString "v2")]), None)
  /\ processField Examples.tMapStringString "badpair" field
     = (field, Some (InvalidMapEntry "badpair")).
Proof.
  intros Hcap Hshape. split; [|split; [apply MapIndex_SetMapIndex|repeat split]].
  rewrite processField_builtin by assumption.
  unfold builtinCoercion, switchKind, mapCoercionBy. rewrite Hshape.
  destruct (String.length (Str.TrimSpace value) =? 0)%nat; cbn [negb]; [reflexivity|].
  rewrite processPairs_entriesBy. reflexivity.
Qed.

End Mapping.

(** ** Discovery: nested structures *)

Section Discovery.
Implicit Types (options : Options) (prefix : string) (ftype : StructField).

(** Every descriptor of the loop over the fields is the descriptor of
    something inside one of the fields still to come. *)
Lemma gatherFields_paths g fields (s : list value) (i : nat) :
  Forall (fun info => exists j p, pathOf (Field info) = Fld j :: p /\ i <= j)
    (fst (gatherFields g fields s i)).
Proof.
  revert s i. induction fields as [|[ftype typ] fields IH]; intros s i; [constructor|].
  destruct s as [|f s]; [constructor|]. cbn [gatherFields].
  specialize (IH s (S i)).
  destruct (gatherFields g fields s (S i)) as [infos s''] eqn:E. cbn [fst] in IH.
  assert (Hrest : Forall (fun info => exists j p, pathOf (Field info) = Fld j :: p /\ i <= j)
                    infos).
  { eapply List.Forall_impl; [|exact IH]. intros info (j & p & Hp & Hj). exists j, p. split; [exact Hp|lia]. }
  destruct (negb (CanSet ftype) || isTrue (Get (Tag ftype) "ignored")); [exact Hrest|].
  destruct (g ftype typ f) as [fieldInfos f']. cbn [fst].
  apply Forall_app. split; [|exact Hrest].
  apply List.Forall_forall. intros info (x & <- & _)%List.in_map_iff.
  exists i, (pathOf (Field x)). split; [reflexivity|lia].
Qed.

(** C2.  A structure-valued field without capability is recursed into: its
    descriptors are those that [gatherInfo] returns for the structure under
    the inner prefix, which is the field's own key for a named field and
    the outer prefix for an embedded one; the field's own descriptor is not
    among them (each is the descriptor of something inside a field of the
    structure); and a pointer to such a structure is followed to it, a nil
    one being set to a new structure first. *)
Theorem gatherField_nested_structure options prefix ftype (typ : type)
    (fields : list (StructField * type)) (s : list value) (ptrInfo : typeInfo) :
  shapeOf typ = StructOf fields ->
  noCapability typ = true ->
  let innerPrefix := if Anonymous ftype then prefix else deriveKey options prefix ftype in
  let nested := gatherField options prefix ftype typ (VStruct s) in
  gatherInfo innerPrefix (Ty ptrInfo (PtrTo typ), VPtr (Some (VStruct s))) options
    = (Ok (fst nested), VPtr (Some (snd nested)))
  /\ Forall (fun info => exists j p, pathOf (Field info) = Fld j :: p) (fst nested)
  /\ gatherField options prefix ftype (Ty ptrInfo (PtrTo typ)) (VPtr (Some (VStruct s)))
     = (map (under Elem) (fst nested), VPtr (Some (snd nested)))
  /\ gatherField options prefix ftype (Ty ptrInfo (PtrTo typ)) (VPtr None)
     = (map (under Elem) (fst (gatherField options prefix ftype typ (Zero typ))),
        VPtr (Some (snd (gatherField options prefix ftype typ (Zero typ))))).
Proof.
  intros Hshape Hcap innerPrefix nested.
  assert (Hnested : nested =
            (let (infos, s') := gatherFields (gatherField options innerPrefix) fields s 0 in
             (infos, VStruct s'))).
  { subst nested innerPrefix. destruct typ as [info sh]. cbn [shapeOf] in Hshape. subst sh.
    cbn [gatherField]. rewrite Hcap. reflexivity. }
  assert (Hkind : Kind_eqb (KindOf typ) Struct = true).
  { unfold KindOf. rewrite Hshape. reflexivity. }
  split; [|split; [|split]].
  - unfold gatherInfo. cbn [fst snd shapeOf]. rewrite Hshape, Hnested.
    destruct (gatherFields _ fields s 0) as [infos s']. reflexivity.
  - rewrite Hnested.
    pose proof (gatherFields_paths (gatherField options innerPrefix) fields s 0) as Hp.
    destruct (gatherFields _ fields s 0) as [infos s']. cbn [fst] in *.
    eapply List.Forall_impl; [|exact Hp]. intros info (j & p & Hj & _). eauto.
  - cbn [gatherField IsNil andb]. fold nested. destruct nested. reflexivity.
  - cbn [gatherField IsNil andb]. rewrite Hkind. cbn [negb].
    destruct (gatherField options prefix ftype typ (Zero typ)). reflexivity.
Qed.

End Discovery.

(** ** Structures in which nothing is bound *)

Section Unbound.
Context `{Parsers}.
Implicit Types (env : gmap string string) (options : Options).

(** What the loop over the fields leaves is what the body leaves in each
    field that is not skipped. *)
Lemma gatherFields_allocated g alloc fields (s : list value) (i : nat) :
  Forall (fun ft => forall ftype f, snd (g ftype (snd ft) f) = alloc (snd ft) f) fields ->
  snd (gatherFields g fields s i) = allocatedFields alloc fields s.
Proof.
  intros Hall. revert s i.
  induction Hall as [|[ftype typ] fields Hhd _ IH]; intros s i; [reflexivity|].
  destruct s as [|f s]; [reflexivity|]. cbn [gatherFields allocatedFields].
  specialize (IH s (S i)). specialize (Hhd ftype f). cbn [snd] in Hhd.
  destruct (gatherFields g fields s (S i)) as [infos s'']. cbn [snd] in IH. subst s''.
  destruct (negb (CanSet ftype) || isTrue (Get (Tag ftype) "ignored")); [reflexivity|].
  destruct (g ftype typ f) as [fieldInfos f']. cbn [snd] in *. subst f'. reflexivity.
Qed.

Lemma gatherField_allocated (typ : type) :
  forall options prefix ftype (f : value),
    snd (gatherField options prefix ftype typ f) = allocated typ f.
Proof.
  induction typ as [info k|info elem IH|info elem _|info key elem _ _|info fields IH]
    using type_induction; intros options prefix ftype f; try reflexivity.
  - cbn [gatherField allocated].
    destruct f as [| | | | |[v|]| | | |];
      cbn [IsNil andb];
      try (destruct (Kind_eqb (KindOf elem) Struct); cbn [negb snd]; [|reflexivity];
           specialize (IH options prefix ftype (Zero elem));
           destruct (gatherField options prefix ftype elem (Zero elem)); cbn [snd] in *;
           congruence).
    specialize (IH options prefix ftype v).
    destruct (gatherField options prefix ftype elem v); cbn [snd] in *. congruence.
  - cbn [gatherField allocated].
    destruct (noCapability (Ty info (StructOf fields))); [|reflexivity].
    destruct f; try reflexivity.
    match goal with
    | |- context [gatherFields ?g fields ?s 0] =>
        pose proof (gatherFields_allocated g allocated fields s 0) as Hs
    end.
    destruct (gatherFields _ fields _ 0) as [infos s']. cbn [snd] in *.
    rewrite Hs; [reflexivity|].
    eapply List.Forall_impl; [|exact IH]. intros [ftype' typ'] Htyp ftype0 f0.
    apply Htyp.
Qed.

Lemma processInfo_unbound env options info (s : value) :
  unbound env options info -> processInfo env info options s = (s, None).
Proof.
  intros (Hunset & Hdef & Hreq).
  rewrite (processInfo_unset_no_default env info options s Hunset Hdef), Hreq.
  reflexivity.
Qed.

Lemma processEach_unbound env options infos (s : value) :
  Forall (unbound env options) infos -> processEach env infos options s = (s, None).
Proof.
  induction 1 as [|info infos Hinfo _ IH]; [reflexivity|].
  cbn [processEach]. rewrite (processInfo_unbound _ _ _ _ Hinfo). exact IH.
Qed.

Lemma processAll_unbound env options infos (s : value) :
  Forall (unbound env options) infos -> processAll env infos options s = (s, []).
Proof.
  induction 1 as [|info infos Hinfo _ IH]; [reflexivity|].
  cbn [processAll]. rewrite (processInfo_unbound _ _ _ _ Hinfo), IH. reflexivity.
Qed.

(** C6, as the code has it.  For a pointer to a structure (of a type that
    does not contain itself: those are the types here) discovery returns
    its descriptors.  When every discovered field is optional and without
    default and the environment holds none of the keys or alternate keys,
    [ProcessWithOptions] succeeds (in either mode: no descriptor writes
    anything) and the structure is what discovery left: every nil pointer
    to a structure that discovery went through now points to a new
    structure (itself treated the same way), and nothing else has changed:
    a field of another kind keeps its value, and a nil pointer to anything
    but a structure stays nil. *)
Theorem ProcessWithOptions_unbound env prefix options (ptrInfo : typeInfo)
    (typeOfSpec : type) (fields : list (StructField * type)) (s : list value) :
  shapeOf typeOfSpec = StructOf fields ->
  (exists infos,
     fst (gatherInfo prefix (Ty ptrInfo (PtrTo typeOfSpec), VPtr (Some (VStruct s))) options)
     = Ok infos)
  /\ (forall infos,
        fst (gatherInfo prefix (Ty ptrInfo (PtrTo typeOfSpec), VPtr (Some (VStruct s)))
               options) = Ok infos ->
        Forall (unbound env options) infos ->
        ProcessWithOptions env prefix
          (Ty ptrInfo (PtrTo typeOfSpec), VPtr (Some (VStruct s))) options
        = (VPtr (Some (VStruct (allocatedFields allocated fields s))), None))
  /\ (forall typ f, KindOf typ <> Ptr -> KindOf typ <> Struct -> allocated typ f = f)
  /\ (forall info elem, KindOf elem <> Struct ->
        allocated (Ty info (PtrTo elem)) (VPtr None) = VPtr None)
  /\ (forall info elem, KindOf elem = Struct ->
        allocated (Ty info (PtrTo elem)) (VPtr None)
        = VPtr (Some (allocated elem (Zero elem)))).
Proof.
  intros Hshape. split; [|split; [|split; [|split]]].
  - unfold gatherInfo. cbn [fst snd shapeOf]. rewrite Hshape.
    destruct (gatherFields _ fields s 0) as [infos s']. exists infos. reflexivity.
  - intros infos Hinfos Hunbound.
    unfold ProcessWithOptions. unfold gatherInfo in *. cbn [fst snd shapeOf] in *.
    rewrite Hshape in *.
    pose proof (gatherFields_allocated (gatherField options prefix) allocated fields s 0) as Hs.
    destruct (gatherFields _ fields s 0) as [infos' s']. cbn [fst snd] in *.
    injection Hinfos as ->.
    rewrite Hs.
    2:{ apply List.Forall_forall. intros [ftype typ] _ ftype0 f0.
        apply gatherField_allocated. }
    destruct (ParallelExcecution options).
    + rewrite processAll_unbound by assumption. reflexivity.
    + rewrite processEach_unbound by assumption. reflexivity.
  - intros [info sh] f Hptr Hstruct. unfold KindOf in *. cbn [shapeOf] in *.
    destruct sh; try reflexivity; congruence.
  - intros info elem Hkind. cbn [allocated].
    destruct (Kind_eqb (KindOf elem) Struct) eqn:E; [|reflexivity].
    exfalso. apply Hkind. destruct (KindOf elem); try discriminate. reflexivity.
  - intros info elem Hkind. cbn [allocated]. rewrite Hkind. reflexivity.
Qed.

End Unbound.

(** ** Sequential processing: fail fast *)

Section Pairs.
Variables (A : Type) (R : A -> A -> Prop).

Lemma ForallOrdPairs_app (l1 l2 : list A) :
  ForallOrdPairs R l1 -> ForallOrdPairs R l2 ->
  (forall x y, In x l1 -> In y l2 -> R x y) ->
  ForallOrdPairs R (l1 ++ l2).
Proof.
  intros H1 H2 Hcross. induction H1 as [|a l1 Ha _ IH]; [exact H2|].
  cbn [app]. constructor.
  - apply List.Forall_app. split; [exact Ha|].
    apply List.Forall_forall. intros y Hy. apply Hcross; [left; reflexivity|exact Hy].
  - apply IH. intros x y Hx Hy. apply Hcross; [right; exact Hx|exact Hy].
Qed.

Lemma ForallOrdPairs_app_inv (l1 l2 : list A) :
  ForallOrdPairs R (l1 ++ l2) ->
  ForallOrdPairs R l1 /\ ForallOrdPairs R l2
  /\ (forall x y, In x l1 -> In y l2 -> R x y).
Proof.
  induction l1 as [|a l1 IH]; cbn [app]; intros Hall.
  - split; [constructor|]. split; [exact Hall|]. intros x y [].
  - inversion Hall as [|a' l' Ha Hrest]; subst.
    destruct (IH Hrest) as (H1 & H2 & Hcross).
    apply List.Forall_app in Ha as [Ha1 Ha2].
    split; [constructor; assumption|]. split; [exact H2|].
    intros x y [<-|Hx] Hy.
    + eapply List.Forall_forall in Ha2; eauto.
    + apply Hcross; assumption.
Qed.

End Pairs.

Section FailFast.
Context `{Parsers}.
Implicit Types (env : gmap string string) (options : Options) (p q : list step).

Lemma diverge_sym p q : diverge p q -> diverge q p.
Proof.
  revert q. induction p as [|[i|] p IH]; intros [|[j|] q]; cbn [diverge]; try tauto.
  - intros [Hne|Hd]; [left; congruence|right; apply IH; exact Hd].
  - apply IH.
Qed.

(** Writing through a handle leaves what is behind a handle that parts ways
    with it. *)
Lemma withField_frame p q g (v : value) :
  diverge p q -> load q (fst (withField p g v)) = load q v.
Proof.
  revert q v. induction p as [|[i|] p IH]; intros [|[j|] q] v; cbn [diverge]; try tauto.
  - intros Hd. destruct v; try reflexivity. cbn [withField].
    destruct (fields !! i) as [f|] eqn:Ei; [|reflexivity].
    specialize (IH q f).
    destruct (withField p g f) as [f' err]. cbn [fst load] in *.
    destruct (decide (i = j)) as [<-|Hne].
    + rewrite list_lookup_insert_eq by (eapply lookup_lt_Some; exact Ei).
      rewrite Ei. cbn. destruct Hd as [Hd|Hd]; [congruence|]. apply IH. exact Hd.
    + rewrite list_lookup_insert_ne by exact Hne. reflexivity.
  - intros Hd. destruct v as [| | | | |[v|]| | | |]; try reflexivity. cbn [withField].
    specialize (IH q v Hd). destruct (withField p g v) as [v' err]. exact IH.
Qed.

Lemma processInfo_frame env options info q (s : value) :
  diverge (pathOf (Field info)) q ->
  load q (fst (processInfo env info options s)) = load q s.
Proof.
  intros Hd. unfold processInfo.
  destruct (lookupEnv env (Key info)) as [v0 ok0].
  destruct (if negb ok0 && nonEmpty (Alt info) then _ else _) as [v1 ok1].
  destruct (negb ok1 && _).
  - destruct (isTrue _ || _); reflexivity.
  - match goal with
    | |- context [withField ?p ?g s] => pose proof (withField_frame p q g s Hd) as Hf
    end.
    destruct (withField _ _ s) as [s' [e|]]; exact Hf.
Qed.

Lemma processEach_frame env options infos q (s : value) :
  Forall (fun info => diverge (pathOf (Field info)) q) infos ->
  load q (fst (processEach env infos options s)) = load q s.
Proof.
  intros Hall. revert s. induction Hall as [|info infos Hinfo _ IH]; intros s; [reflexivity|].
  cbn [processEach].
  pose proof (processInfo_frame env options info q s Hinfo) as Hf.
  destruct (processInfo env info options s) as [s' [e|]]; cbn [fst] in *; [exact Hf|].
  rewrite IH. exact Hf.
Qed.

Lemma processEach_app env options pre post (s : value) :
  processEach env (pre ++ post) options s =
  match processEach env pre options s with
  | (s', Some err) => (s', Some err)
  | (s', None) => processEach env post options s'
  end.
Proof.
  revert s. induction pre as [|info pre IH]; intros s; cbn [app processEach].
  - reflexivity.
  - destruct (processInfo env info options s) as [s' [e|]]; [reflexivity|apply IH].
Qed.

Lemma apart_under st (a b : varInfo) : apart a b -> apart (under st a) (under st b).
Proof.
  unfold apart. destruct st; cbn [under Field pathOf diverge]; [right|]; trivial.
Qed.

Lemma ForallOrdPairs_under st (infos : list varInfo) :
  ForallOrdPairs apart infos -> ForallOrdPairs apart (map (under st) infos).
Proof.
  induction 1 as [|a l Ha _ IH]; cbn [map]; constructor; [|exact IH].
  apply List.Forall_forall. intros y (b & <- & Hb)%List.in_map_iff.
  apply apart_under. eapply List.Forall_forall in Ha; eauto.
Qed.

Lemma gatherFields_apart g fields (s : list value) (i : nat) :
  Forall (fun ft => forall ftype f, ForallOrdPairs apart (fst (g ftype (snd ft) f))) fields ->
  ForallOrdPairs apart (fst (gatherFields g fields s i)).
Proof.
  intros Hall. revert s i.
  induction Hall as [|[ftype typ] fields Hhd _ IH]; intros s i; [constructor|].
  destruct s as [|f s]; [constructor|]. cbn [gatherFields].
  specialize (IH s (S i)). specialize (Hhd ftype f). cbn [snd] in Hhd.
  pose proof (gatherFields_paths g fields s (S i)) as Hpaths.
  destruct (gatherFields g fields s (S i)) as [infos s'']. cbn [fst] in *.
  destruct (negb (CanSet ftype) || isTrue (Get (Tag ftype) "ignored")); [exact IH|].
  destruct (g ftype typ f) as [fieldInfos f']. cbn [fst] in *.
  apply ForallOrdPairs_app; [apply ForallOrdPairs_under; exact Hhd|exact IH|].
  intros x y (a & <- & _)%List.in_map_iff Hy.
  eapply List.Forall_forall in Hpaths as (j & p & Hp & Hj); [|exact Hy].
  unfold apart. rewrite Hp. cbn [under Field pathOf diverge]. left. lia.
Qed.

(** The descriptors that discovery returns for a field have handles that
    part ways pairwise: no two of them share storage. *)
Lemma gatherField_apart (typ : type) :
  forall options prefix ftype (f : value),
    ForallOrdPairs apart (fst (gatherField options prefix ftype typ f)).
Proof.
  assert (Hone : forall info : varInfo, ForallOrdPairs apart [info])
    by (intros info; constructor; constructor).
  induction typ as [info k|info elem IH|info elem _|info key elem _ _|info fields IH]
    using type_induction; intros options prefix ftype f; try apply Hone.
  - cbn [gatherField]. destruct (IsNil f && _); [apply Hone|].
    match goal with
    | |- context [gatherField options prefix ftype elem ?v] =>
        specialize (IH options prefix ftype v);
        destruct (gatherField options prefix ftype elem v) as [infos v']
    end.
    cbn [fst] in *. apply ForallOrdPairs_under. exact IH.
  - cbn [gatherField]. destruct (noCapability _); [|apply Hone].
    destruct f; try constructor.
    match goal with
    | |- context [gatherFields ?g fields ?s 0] =>
        pose proof (gatherFields_apart g fields s 0) as Hs
    end.
    destruct (gatherFields _ fields _ 0) as [infos s']. cbn [fst] in *.
    apply Hs. eapply List.Forall_impl; [|exact IH].
    intros [ftype' typ'] Htyp ftype0 f0. apply Htyp.
Qed.

(** The handles that discovery returns point into the structure it
    leaves. *)
Lemma gatherFields_load g fields (s : list value) (i : nat) :
  Forall (fun ft => forall ftype f,
            Forall (fun info => is_Some (load (pathOf (Field info)) (snd (g ftype (snd ft) f))))
              (fst (g ftype (snd ft) f))) fields ->
  Forall (fun info => exists j p f',
            pathOf (Field info) = Fld (i + j) :: p
            /\ snd (gatherFields g fields s i) !! j = Some f'
            /\ is_Some (load p f'))
    (fst (gatherFields g fields s i)).
Proof.
  intros Hall. revert s i.
  induction Hall as [|[ftype typ] fields Hhd _ IH]; intros s i; [constructor|].
  destruct s as [|f s]; [constructor|]. cbn [gatherFields].
  specialize (IH s (S i)). specialize (Hhd ftype f). cbn [snd] in Hhd.
  destruct (gatherFields g fields s (S i)) as [infos s'']. cbn [fst snd] in IH.
  assert (Hrest : forall f0,
            Forall (fun info => exists j p f',
                      pathOf (Field info) = Fld (i + j) :: p
                      /\ (f0 :: s'') !! j = Some f' /\ is_Some (load p f')) infos).
  { intros f0. eapply List.Forall_impl; [|exact IH].
    intros info (j & p & f' & Hp & Hj & Hl). exists (S j), p, f'.
    split; [rewrite Hp; f_equal; f_equal; lia|]. split; assumption. }
  destruct (negb (CanSet ftype) || isTrue (Get (Tag ftype) "ignored")); [apply Hrest|].
  destruct (g ftype typ f) as [fieldInfos f']. cbn [fst snd] in *.
  apply List.Forall_app. split; [|apply Hrest].
  apply List.Forall_forall. intros info (x & <- & Hx)%List.in_map_iff.
  eapply List.Forall_forall in Hhd; [|exact Hx].
  exists 0, (pathOf (Field x)), f'. cbn [under Field pathOf].
  split; [f_equal; f_equal; lia|]. split; [reflexivity|exact Hhd].
Qed.

Lemma gatherField_load (typ : type) :
  forall options prefix ftype (f : value),
    Forall (fun info =>
              is_Some (load (pathOf (Field info))
                         (snd (gatherField options prefix ftype typ f))))
      (fst (gatherField options prefix ftype typ f)).
Proof.
  assert (Hone : forall (info : varInfo) (f : value),
             pathOf (Field info) = [] ->
             Forall (fun info => is_Some (load (pathOf (Field info)) f)) [info]).
  { intros info f Hp. constructor; [|constructor]. rewrite Hp. cbn. eauto. }
  induction typ as [info k|info elem IH|info elem _|info key elem _ _|info fields IH]
    using type_induction; intros options prefix ftype f;
    try (apply Hone; reflexivity).
  - cbn [gatherField]. destruct (IsNil f && _); [apply Hone; reflexivity|].
    match goal with
    | |- context [gatherField options prefix ftype elem ?v] =>
        specialize (IH options prefix ftype v);
        destruct (gatherField options prefix ftype elem v) as [infos v']
    end.
    cbn [fst snd] in *. apply List.Forall_forall.
    intros info0 (x & <- & Hx)%List.in_map_iff.
    eapply List.Forall_forall in IH; [|exact Hx]. exact IH.
  - cbn [gatherField]. destruct (noCapability _); [|apply Hone; reflexivity].
    destruct f; try constructor.
    match goal with
    | |- context [gatherFields ?g fields ?s 0] =>
        pose proof (gatherFields_load g fields s 0) as Hs
    end.
    destruct (gatherFields _ fields _ 0) as [infos s']. cbn [fst snd] in *.
    eapply List.Forall_impl; [|apply Hs].
    + intros info0 (j & p & f' & Hp & Hj & Hl). rewrite Hp. change (0 + j) with j.
      cbn [load]. cbn [snd] in Hj. rewrite Hj. exact Hl.
    + eapply List.Forall_impl; [|exact IH].
      intros [ftype' typ'] Htyp ftype0 f0. apply Htyp.
Qed.

Lemma gatherInfo_load prefix spec options infos (s0 : value) :
  gatherInfo prefix spec options = (Ok infos, VPtr (Some s0)) ->
  Forall (fun info => is_Some (load (pathOf (Field info)) s0)) infos.
Proof.
  unfold gatherInfo. destruct (shapeOf (fst spec)); try discriminate.
  destruct (snd spec) as [| | | | |[[| | | | | | | |s|]|]| | | |]; try discriminate.
  destruct (shapeOf elem); try discriminate.
  pose proof (gatherFields_load (gatherField options prefix) fields s 0) as Hs.
  destruct (gatherFields _ fields s 0) as [infos' s']. cbn [fst snd] in *.
  intros [= <- <-].
  eapply List.Forall_impl; [|apply Hs].
  - intros info0 (j & p & f' & Hp & Hj & Hl). rewrite Hp. change (0 + j) with j.
    cbn [load]. cbn [snd] in Hj. rewrite Hj. exact Hl.
  - apply List.Forall_forall. intros [ftype typ] _ ftype0 f0. apply gatherField_load.
Qed.

Lemma gatherInfo_apart prefix spec options infos (spec' : value) :
  gatherInfo prefix spec options = (Ok infos, spec') ->
  ForallOrdPairs apart infos
  /\ exists s', spec' = VPtr (Some (VStruct s')).
Proof.
  unfold gatherInfo. destruct (shapeOf (fst spec)); try discriminate.
  destruct (snd spec) as [| | | | |[[| | | | | | | |s|]|]| | | |]; try discriminate.
  destruct (shapeOf elem); try discriminate.
  pose proof (gatherFields_apart (gatherField options prefix) fields s 0) as Hs.
  destruct (gatherFields _ fields s 0) as [infos' s']. cbn [fst] in *.
  intros [= <- <-]. split; [|eauto].
  apply Hs. apply List.Forall_forall. intros [ftype typ] _ ftype0 f0.
  apply gatherField_apart.
Qed.

(** What discovery returns for a pointer to a structure: its descriptors,
    and the structure with its nil pointers to structures allocated. *)
Lemma gatherInfo_struct prefix options (ptrInfo : typeInfo) (typeOfSpec : type)
    (fields : list (StructField * type)) (s : list value) (infos : list varInfo) :
  shapeOf typeOfSpec = StructOf fields ->
  fst (gatherInfo prefix (Ty ptrInfo (PtrTo typeOfSpec), VPtr (Some (VStruct s))) options)
  = Ok infos ->
  gatherInfo prefix (Ty ptrInfo (PtrTo typeOfSpec), VPtr (Some (VStruct s))) options
  = (Ok infos, VPtr (Some (VStruct (allocatedFields allocated fields s)))).
Proof.
  intros Hshape. unfold gatherInfo. cbn [fst snd shapeOf]. rewrite Hshape.
  pose proof (gatherFields_allocated (gatherField options prefix) allocated fields s 0) as Hs.
  destruct (gatherFields _ fields s 0) as [infos' s']. cbn [fst snd] in *.
  intros [= ->]. rewrite Hs; [reflexivity|].
  apply List.Forall_forall. intros [ftype typ] _ ftype0 f0. apply gatherField_allocated.
Qed.

(** C7, as the code has it.  With parallel execution disabled, the
    descriptors are resolved in discovery order and the first error is
    returned at once: when the descriptors before [d] resolve and [d]
    fails, [ProcessWithOptions] returns the error of [d] and the structure
    as [d] left it.  Discovery has run to its end before: the resolutions
    start from the structure of the caller with its nil pointers to
    structures allocated.  Every descriptor has its own field in that
    structure; a field resolved before [d] holds the value its resolution
    gave it, and a field after [d] holds what discovery left in it: what
    it held before the call, unless it is, or is reached through, a nil
    pointer to a structure.  (Structures are trees here: no two pointers
    point to the same variable.) *)
Theorem ProcessWithOptions_fail_fast env prefix options (ptrInfo : typeInfo)
    (typeOfSpec : type) (fields : list (StructField * type)) (s : list value)
    (infos pre post : list varInfo) (d : varInfo) (s1 s2 : value) (err : error) :
  ParallelExcecution options = false ->
  shapeOf typeOfSpec = StructOf fields ->
  fst (gatherInfo prefix (Ty ptrInfo (PtrTo typeOfSpec), VPtr (Some (VStruct s))) options)
  = Ok infos ->
  ForallOrdPairs apart infos ->
  infos = pre ++ d :: post ->
  processEach env pre options (VStruct (allocatedFields allocated fields s)) = (s1, None) ->
  processInfo env d options s1 = (s2, Some err) ->
  ProcessWithOptions env prefix
    (Ty ptrInfo (PtrTo typeOfSpec), VPtr (Some (VStruct s))) options
  = (VPtr (Some s2), Some err)
  /\ (forall x, In x infos ->
        is_Some (load (pathOf (Field x)) (VStruct (allocatedFields allocated fields s))))
  /\ (forall x, In x post ->
        load (pathOf (Field x)) s2
        = load (pathOf (Field x)) (VStruct (allocatedFields allocated fields s)))
  /\ (forall pre1 x pre2 sx,
        pre = pre1 ++ x :: pre2 ->
        processEach env (pre1 ++ [x]) options (VStruct (allocatedFields allocated fields s))
        = (sx, None) ->
        load (pathOf (Field x)) s2 = load (pathOf (Field x)) sx)
  /\ (forall typ f, KindOf typ <> Ptr -> KindOf typ <> Struct -> allocated typ f = f)
  /\ (forall info elem f, KindOf elem <> Struct -> IsNil f = true ->
        allocated (Ty info (PtrTo elem)) f = f)
  /\ (forall info elem, KindOf elem = Struct ->
        allocated (Ty info (PtrTo elem)) (VPtr None)
        = VPtr (Some (allocated elem (Zero elem)))).
Proof.
  intros Hseq Hshape Hinfos Hapart Hsplit Hpre Hd.
  pose proof (gatherInfo_struct _ _ _ _ _ _ _ Hshape Hinfos) as Hgather.
  set (spec := (Ty ptrInfo (PtrTo typeOfSpec), VPtr (Some (VStruct s)))) in *.
  set (s0 := VStruct (allocatedFields allocated fields s)) in *.
  clearbody spec s0. clear Hinfos. subst infos.
  pose proof Hapart as Hall.
  apply ForallOrdPairs_app_inv in Hapart as (_ & Hdpost & Hcross).
  inversion Hdpost as [|d' post' Hd_post Hpost]; subst.
  assert (Hrun : processEach env (pre ++ d :: post) options s0 = (s2, Some err)).
  { rewrite processEach_app, Hpre. cbn [processEach]. rewrite Hd. reflexivity. }
  split; [|split; [|split; [|split; [|split; [|split]]]]].
  - unfold ProcessWithOptions. rewrite Hgather, Hseq, Hrun. reflexivity.
  - apply List.Forall_forall. eapply gatherInfo_load. exact Hgather.
  - intros x Hx.
    transitivity (load (pathOf (Field x)) s1).
    + change s2 with (fst (s2, Some err)). rewrite <- Hd. apply processInfo_frame.
      eapply List.Forall_forall in Hd_post; [exact Hd_post|exact Hx].
    + change s1 with (fst (s1, @None error)). rewrite <- Hpre. apply processEach_frame.
      apply List.Forall_forall. intros y Hy. apply Hcross; [exact Hy|right; exact Hx].
  - intros pre1 x pre2 sx -> Hsx.
    assert (Hx : forall y, In y (pre2 ++ [d]) ->
                           diverge (pathOf (Field y)) (pathOf (Field x))).
    { intros y Hy. apply diverge_sym.
      destruct (ForallOrdPairs_app_inv _ apart (pre1 ++ [x]) (pre2 ++ [d])) as (_ & _ & Hc).
      - replace ((pre1 ++ x :: pre2) ++ d :: post)
          with (((pre1 ++ [x]) ++ pre2 ++ [d]) ++ post) in Hall
          by (rewrite <- !app_assoc; reflexivity).
        apply ForallOrdPairs_app_inv in Hall as [Hall _]. exact Hall.
      - apply Hc; [apply List.in_or_app; right; left; reflexivity|exact Hy]. }
    assert (Hrest : processEach env (pre2 ++ [d]) options sx = (s2, Some err)).
    { replace (pre1 ++ x :: pre2) with ((pre1 ++ [x]) ++ pre2) in Hpre
        by (rewrite <- app_assoc; reflexivity).
      rewrite processEach_app, Hsx in Hpre.
      rewrite processEach_app, Hpre. cbn [processEach]. rewrite Hd. reflexivity. }
    change s2 with (fst (s2, Some err)). rewrite <- Hrest. apply processEach_frame.
    apply List.Forall_forall. exact Hx.
  - intros [info sh] f Hptr Hstruct. unfold KindOf in *. cbn [shapeOf] in *.
    destruct sh; try reflexivity; congruence.
  - intros info elem f Hkind Hnil. cbn [allocated].
    destruct f as [| | | | |[v|]| | | |]; try discriminate Hnil;
      (destruct (Kind_eqb (KindOf elem) Struct) eqn:E; [|reflexivity];
       exfalso; apply Hkind; destruct (KindOf elem); try discriminate; reflexivity).
  - intros info elem Hkind. cbn [allocated]. rewrite Hkind. reflexivity.
Qed.

End FailFast.

(** ** Key derivation: the words of a field name *)

Section Naming.

Lemma plusRuns_nil c l : headIn c l = false -> plusRuns c l = [].
Proof. destruct l as [|a l]; [reflexivity|]. cbn. intros ->. reflexivity. Qed.

Lemma span_nil c l : headIn c l = false -> span c l = ([], l).
Proof. destruct l as [|a l]; [reflexivity|]. cbn. intros ->. reflexivity. Qed.

(** The preferred match of [c+] is the longest run. *)
Lemma plusRuns_head c l :
  headIn c l = true -> exists tl, plusRuns c l = span c l :: tl.
Proof.
  induction l as [|a l IH]; [discriminate|]. cbn [headIn plusRuns span]. intros ->.
  destruct (headIn c l) eqn:E.
  - destruct (IH eq_refl) as [tl ->]. destruct (span c l) as [run after].
    cbn. eauto.
  - rewrite (plusRuns_nil _ _ E), (span_nil _ _ E). cbn. eauto.
Qed.

(** Any other match of [c+] stops inside the run. *)
Lemma plusRuns_others c l mr :
  In mr (plusRuns c l) -> mr = span c l \/ headIn c (snd mr) = true.
Proof.
  revert mr. induction l as [|a l IH]; intros mr; [intros []|].
  cbn [plusRuns span]. destruct (inClass c a) eqn:Ea; [|intros []].
  intros [(mr' & <- & Hin)%List.in_map_iff|[<-|[]]]%List.in_app_or.
  - destruct (IH _ Hin) as [->|Hh].
    + left. destruct (span c l). reflexivity.
    + right. exact Hh.
  - cbn [snd]. destruct (headIn c l) eqn:E; [right; reflexivity|left].
    rewrite (span_nil _ _ E). reflexivity.
Qed.

Lemma span_after c l : headIn c (snd (span c l)) = false.
Proof.
  induction l as [|a l IH]; [reflexivity|]. cbn [span].
  destruct (inClass c a) eqn:E; [|exact E].
  destruct (span c l). exact IH.
Qed.

Lemma span_run c l : Forall (fun a => inClass c a = true) (fst (span c l)).
Proof.
  induction l as [|a l IH]; [constructor|]. cbn [span].
  destruct (inClass c a) eqn:E; [|constructor].
  destruct (span c l). constructor; assumption.
Qed.

Lemma span_app_eq c l : fst (span c l) ++ snd (span c l) = l.
Proof.
  induction l as [|a l IH]; [reflexivity|]. cbn [span].
  destruct (inClass c a); [|reflexivity].
  destruct (span c l). cbn in *. congruence.
Qed.

Lemma span_all c u l :
  Forall (fun a => inClass c a = true) u -> headIn c l = false -> span c (u ++ l) = (u, l).
Proof.
  intros Hu Hl. induction Hu as [|a u Ha _ IH]; [apply span_nil; exact Hl|].
  cbn [app span]. rewrite Ha, IH. reflexivity.
Qed.

Lemma headIn_NotAZ l : headIn AZ l = false -> l <> [] -> headIn NotAZ l = true.
Proof. destruct l; [congruence|]. cbn. intros ->. reflexivity. Qed.

Lemma headIn_AZ_NotAZ l : headIn AZ l = true -> headIn NotAZ l = false.
Proof. destruct l; [discriminate|]. cbn. intros ->. reflexivity. Qed.

Lemma flat_map_nil (A B : Type) (f : A -> list B) (l : list A) :
  (forall x, In x l -> f x = []) -> flat_map f l = [].
Proof.
  induction l as [|x l IH]; [reflexivity|]. intros Hall. cbn [flat_map].
  rewrite (Hall x) by (left; reflexivity). apply IH. intros y Hy. apply Hall. right. exact Hy.
Qed.

(** The preferred match of [gatherRegexp] at the head of a text that is not
    empty is the first word of the rule. *)
Lemma run_gatherRegexp l :
  l <> [] ->
  exists tl, run gatherRegexp l
             = Hit (fst (nextWord l)) [fst (nextWord l)] (snd (nextWord l)) :: tl.
Proof.
  destruct l as [|a l']; [congruence|]. intros _.
  unfold gatherRegexp, nextWord. cbn [run numGroups Nat.add repeat].
  destruct (Str.isAZ a) eqn:Ea.
  - assert (HAZ : headIn AZ (a :: l') = true) by exact Ea.
    rewrite (plusRuns_nil NotAZ (a :: l')) by (apply headIn_AZ_NotAZ; exact HAZ).
    cbn [map app].
    destruct (plusRuns_head AZ _ HAZ) as [tl Htl]. rewrite Htl.
    pose proof (span_after AZ (a :: l')) as Hafter.
    destruct (span AZ (a :: l')) as [upper l1] eqn:Es. cbn [snd] in Hafter.
    cbn [map flat_map fst snd matched groups rest].
    destruct l1 as [|b l1'].
    + cbn [span plusRuns map app fst snd].
      rewrite flat_map_nil.
      * cbn [map app fst snd matched groups rest]. rewrite ?app_nil_r. eauto.
      * intros h (mr & <- & Hin)%List.in_map_iff. cbn [rest].
        assert (Hin' : In mr (plusRuns AZ (a :: l'))) by (rewrite Htl; right; exact Hin).
        apply plusRuns_others in Hin' as [->|Hh].
        -- rewrite Es. reflexivity.
        -- rewrite (plusRuns_nil NotAZ) by (apply headIn_AZ_NotAZ; exact Hh). reflexivity.
    + assert (HN : headIn NotAZ (b :: l1') = true)
        by (apply headIn_NotAZ; [exact Hafter|discriminate]).
      destruct (plusRuns_head NotAZ _ HN) as [tl' ->].
      destruct (span NotAZ (b :: l1')) as [lower l2].
      cbn [map app fst snd matched groups rest]. rewrite ?app_nil_r. eauto.
  - assert (HN : headIn NotAZ (a :: l') = true) by (cbn; rewrite Ea; reflexivity).
    destruct (plusRuns_head NotAZ _ HN) as [tl ->].
    destruct (span NotAZ (a :: l')) as [lower l1].
    cbn [map app fst snd matched groups rest]. rewrite ?app_nil_r. eauto.
Qed.

Lemma leftmost_gatherRegexp l :
  l <> [] ->
  leftmost gatherRegexp l
  = Some (Hit (fst (nextWord l)) [fst (nextWord l)] (snd (nextWord l))).
Proof.
  intros Hl. destruct (run_gatherRegexp l Hl) as [tl Htl].
  destruct l; cbn [leftmost]; rewrite Htl; reflexivity.
Qed.

(** The successive matches of [gatherRegexp] are the words of the rule. *)
Lemma allMatches_gatherRegexp fuel l :
  map matched (allMatches gatherRegexp fuel l) = wordsOf fuel l.
Proof.
  revert l. induction fuel as [|fuel IH]; intros l; [reflexivity|].
  cbn [allMatches wordsOf]. destruct l as [|a l'].
  - reflexivity.
  - rewrite leftmost_gatherRegexp by discriminate.
    destruct (nextWord (a :: l')) as [w after]. cbn [map matched rest fst snd].
    rewrite IH. reflexivity.
Qed.

(** The matches of [acronymRegexp]: an uppercase run, then an uppercase
    letter and a non-uppercase run. *)
Lemma run_acronymRegexp l :
  run acronymRegexp l = flat_map (fun mr => tailHits (fst mr) (snd mr)) (plusRuns AZ l).
Proof.
  unfold acronymRegexp. cbn [run].
  induction (plusRuns AZ l) as [|[m r] L IH]; [reflexivity|].
  cbn [map flat_map matched groups rest fst snd]. rewrite IH. f_equal.
  unfold tailHits. destruct r as [|b r']; [reflexivity|].
  cbn [inClass]. destruct (Str.isAZ b); [|reflexivity].
  cbn [flat_map map matched groups rest]. rewrite app_nil_r, !map_map.
  apply map_ext. intros [m2 r2]. reflexivity.
Qed.

Lemma tailHits_longer a m r : tailHits (a :: m) r = map (longerBy a) (tailHits m r).
Proof.
  unfold tailHits. destruct r as [|b r']; [reflexivity|].
  destruct (Str.isAZ b); [|reflexivity].
  rewrite map_map. apply map_ext. intros [m2 r2]. reflexivity.
Qed.

Lemma run_acronymRegexp_cons a l :
  Str.isAZ a = true ->
  run acronymRegexp (a :: l) = map (longerBy a) (run acronymRegexp l) ++ tailHits [a] l.
Proof.
  intros Ha. rewrite !run_acronymRegexp. cbn [plusRuns inClass]. rewrite Ha.
  rewrite flat_map_app. cbn [flat_map fst snd]. rewrite app_nil_r. f_equal.
  induction (plusRuns AZ l) as [|[m r] L IH]; [reflexivity|].
  cbn [map flat_map fst snd]. rewrite map_app, IH, tailHits_longer. reflexivity.
Qed.

(** At the head of an uppercase run [u] followed by [lower], which does not
    start with an uppercase letter, [acronymRegexp] matches when the run has
    two letters at least: the acronym is the run without its last letter,
    the word begins with that letter. *)
Lemma run_acronymRegexp_word u lower :
  Forall (fun a => inClass AZ a = true) u ->
  headIn AZ lower = false ->
  run acronymRegexp (u ++ lower)
  = if (2 <=? List.length u)%nat
    then map (fun mr => Hit (u ++ fst mr)
                          [List.removelast u; List.last u "A"%char :: fst mr] (snd mr))
           (plusRuns NotAZ lower)
    else [].
Proof.
  intros Hu Hlower. induction Hu as [|a u Ha Hu IH].
  - cbn [app List.length Nat.leb]. rewrite run_acronymRegexp, (plusRuns_nil _ _ Hlower).
    reflexivity.
  - cbn [app]. rewrite (run_acronymRegexp_cons _ _ Ha), IH.
    destruct Hu as [|b u Hb Hu].
    + cbn [app List.length Nat.leb map]. unfold tailHits.
      destruct lower as [|c lower]; [reflexivity|].
      cbn [headIn inClass] in Hlower. rewrite Hlower. reflexivity.
    + destruct Hu as [|c u Hc Hu].
      * cbn [app List.length Nat.leb map tailHits]. cbn [inClass] in Hb. rewrite Hb.
        reflexivity.
      * cbn [List.length Nat.leb app tailHits]. cbn [inClass] in Hb. rewrite Hb.
        cbn [inClass] in Hc.
        rewrite (plusRuns_nil NotAZ (c :: u ++ lower))
          by (cbn [headIn inClass]; rewrite Hc; reflexivity).
        cbn [map]. rewrite app_nil_r, map_map. apply map_ext. intros [m2 r2]. reflexivity.
Qed.

Lemma Forall_NotAZ_headIn lower :
  Forall (fun a => inClass NotAZ a = true) lower -> headIn AZ lower = false.
Proof.
  intros [|a l Ha _]; [reflexivity|]. cbn in *. apply negb_true_iff. exact Ha.
Qed.

(** A word that is not an acronym followed by a capitalized word has no
    match of [acronymRegexp] anywhere. *)
Lemma leftmost_acronymRegexp_none u lower :
  Forall (fun a => inClass AZ a = true) u ->
  Forall (fun a => inClass NotAZ a = true) lower ->
  (List.length u < 2 \/ lower = []) ->
  leftmost acronymRegexp (u ++ lower) = None.
Proof.
  intros Hu Hlower Hcase. induction Hu as [|a u Ha Hu IH].
  - clear Hcase. cbn [app]. induction Hlower as [|c lower Hc Hlower IH].
    + reflexivity.
    + cbn [leftmost].
      change (c :: lower) with ([] ++ c :: lower) at 1.
      rewrite (run_acronymRegexp_word [] (c :: lower)) by
        (try constructor; cbn; apply negb_true_iff; exact Hc).
      exact IH.
  - cbn [app leftmost].
    change (a :: u ++ lower) with ((a :: u) ++ lower).
    rewrite (run_acronymRegexp_word (a :: u) lower)
      by (try (constructor; assumption); apply Forall_NotAZ_headIn; assumption).
    assert (Hnone : (if (2 <=? List.length (a :: u))%nat
                     then map (fun mr => Hit ((a :: u) ++ fst mr)
                                 [List.removelast (a :: u);
                                  List.last (a :: u) "A"%char :: fst mr] (snd mr))
                            (plusRuns NotAZ lower)
                     else []) = []).
    { destruct Hcase as [Hlen| ->].
      - destruct (Nat.leb_spec 2 (List.length (a :: u))); [lia|reflexivity].
      - destruct (2 <=? _)%nat; reflexivity. }
    rewrite Hnone. apply IH. destruct Hcase as [Hlen|Hnil]; [left|right; exact Hnil].
    cbn [List.length] in Hlen. lia.
Qed.

(** An acronym followed by a capitalized word is matched whole. *)
Lemma leftmost_acronymRegexp_some u lower :
  Forall (fun a => inClass AZ a = true) u ->
  Forall (fun a => inClass NotAZ a = true) lower ->
  2 <= List.length u -> lower <> [] ->
  leftmost acronymRegexp (u ++ lower)
  = Some (Hit (u ++ lower) [List.removelast u; List.last u "A"%char :: lower] []).
Proof.
  intros Hu Hlower Hlen Hne.
  assert (Hrun : exists tl, run acronymRegexp (u ++ lower)
            = Hit (u ++ lower) [List.removelast u; List.last u "A"%char :: lower] [] :: tl).
  { rewrite run_acronymRegexp_word by (try assumption; apply Forall_NotAZ_headIn; assumption).
    destruct (Nat.leb_spec 2 (List.length u)); [|lia].
    assert (HN : headIn NotAZ lower = true).
    { destruct Hlower as [|c lower Hc _]; [congruence|exact Hc]. }
    destruct (plusRuns_head NotAZ lower HN) as [tl ->].
    pose proof (span_all NotAZ lower [] Hlower eq_refl) as Hs. rewrite app_nil_r in Hs.
    rewrite Hs. cbn [map fst snd]. eauto. }
  destruct Hrun as [tl Htl].
  destruct (u ++ lower); cbn [leftmost]; rewrite Htl; reflexivity.
Qed.

(** What the loop of [gatherInfo] appends for a word. *)
Lemma acronym_of_word (w : list ascii) :
  wordShape w ->
  match FindStringSubmatch acronymRegexp (Str.ofBytes w) with
  | [_; m1; m2] => [m1; m2]
  | _ => [Str.ofBytes w]
  end = map Str.ofBytes (splitAcronym w).
Proof.
  intros (u & lower & -> & Hu & Hlower).
  unfold FindStringSubmatch, splitAcronym. rewrite bytes_ofBytes.
  rewrite (span_all AZ u lower Hu (Forall_NotAZ_headIn _ Hlower)).
  destruct (Nat.leb_spec 2 (List.length u)) as [Hlen|Hlen];
    [destruct lower as [|c lower]|].
  - rewrite leftmost_acronymRegexp_none by (try assumption; right; reflexivity).
    reflexivity.
  - rewrite leftmost_acronymRegexp_some by (try assumption; discriminate).
    reflexivity.
  - rewrite leftmost_acronymRegexp_none by (try assumption; left; lia).
    reflexivity.
Qed.

Lemma nextWord_shape l : wordShape (fst (nextWord l)).
Proof.
  destruct l as [|a l']; [exists [], []; repeat split; constructor|].
  unfold nextWord. destruct (Str.isAZ a).
  - pose proof (span_run AZ (a :: l')) as Hu.
    destruct (span AZ (a :: l')) as [upper l1].
    pose proof (span_run NotAZ l1) as Hl.
    destruct (span NotAZ l1) as [lower l2]. cbn [fst] in *.
    exists upper, lower. auto.
  - pose proof (span_run NotAZ (a :: l')) as Hl.
    destruct (span NotAZ (a :: l')) as [lower l1]. cbn [fst] in *.
    exists [], lower. repeat split; [constructor|exact Hl].
Qed.

Lemma wordsOf_shape fuel l : Forall wordShape (wordsOf fuel l).
Proof.
  revert l. induction fuel as [|fuel IH]; intros l; [constructor|].
  cbn [wordsOf]. destruct l as [|a l']; [constructor|].
  pose proof (nextWord_shape (a :: l')) as Hw.
  destruct (nextWord (a :: l')) as [w after]. constructor; [exact Hw|apply IH].
Qed.

Lemma splitName_hits (hits : list hit) :
  Forall wordShape (map matched hits) ->
  splitName (map submatch hits) = map Str.ofBytes (flat_map splitAcronym (map matched hits)).
Proof.
  induction hits as [|h hits IH]; [reflexivity|].
  cbn [map]. intros Hall. inversion Hall as [|w ws Hw Hws]; subst.
  unfold splitName in *. cbn [flat_map]. rewrite map_app, (IH Hws). f_equal.
  unfold submatch. cbn [map nth]. apply acronym_of_word. exact Hw.
Qed.

(** [gatherInfo]'s two regular expressions compute the segments of the
    rule. *)
Lemma splitName_segmentsOf (name : string) :
  splitName (FindAllStringSubmatch gatherRegexp name) = map Str.ofBytes (segmentsOf name).
Proof.
  unfold FindAllStringSubmatch, segmentsOf.
  rewrite <- allMatches_gatherRegexp. apply splitName_hits.
  rewrite allMatches_gatherRegexp. apply wordsOf_shape.
Qed.

Lemma nextWord_app l : fst (nextWord l) ++ snd (nextWord l) = l.
Proof.
  destruct l as [|a l']; [reflexivity|]. unfold nextWord. destruct (Str.isAZ a).
  - pose proof (span_app_eq AZ (a :: l')) as H1.
    destruct (span AZ (a :: l')) as [upper l1].
    pose proof (span_app_eq NotAZ l1) as H2.
    destruct (span NotAZ l1) as [lower l2]. cbn [fst snd] in *.
    rewrite <- app_assoc, H2. exact H1.
  - apply span_app_eq.
Qed.

Lemma nextWord_nonempty a l' : fst (nextWord (a :: l')) <> [].
Proof.
  unfold nextWord. destruct (Str.isAZ a) eqn:Ea.
  - cbn [span inClass]. rewrite Ea. destruct (span AZ l') as [upper l1].
    destruct (span NotAZ l1). discriminate.
  - cbn [span inClass]. rewrite Ea. cbn [negb]. destruct (span NotAZ l'). discriminate.
Qed.

(** The words are the identifier, cut into pieces. *)
Lemma wordsOf_concat fuel l : List.length l <= fuel -> concat (wordsOf fuel l) = l.
Proof.
  revert l. induction fuel as [|fuel IH]; intros l Hlen.
  - destruct l; [reflexivity|cbn in Hlen; lia].
  - cbn [wordsOf]. destruct l as [|a l']; [reflexivity|].
    pose proof (nextWord_app (a :: l')) as Happ.
    pose proof (nextWord_nonempty a l') as Hne.
    destruct (nextWord (a :: l')) as [w after]. cbn [fst snd concat] in *.
    rewrite IH; [exact Happ|].
    apply (f_equal (@List.length ascii)) in Happ. rewrite length_app in Happ.
    destruct w; [congruence|]. cbn [List.length] in *. lia.
Qed.

Lemma splitAcronym_concat w : concat (splitAcronym w) = w.
Proof.
  unfold splitAcronym. pose proof (span_app_eq AZ w) as Happ.
  destruct (span AZ w) as [upper lower]. cbn [fst snd] in Happ.
  destruct (_ && _) eqn:E; cbn [concat]; [|apply app_nil_r].
  rewrite app_nil_r. apply andb_true_iff in E as [Hlen _].
  rewrite (app_removelast_last "A"%char (l := upper)) in Happ at 1.
  - rewrite <- app_assoc in Happ. exact Happ.
  - destruct upper; [discriminate|discriminate].
Qed.

Lemma length_bytes (s : string) : List.length (Str.bytes s) = String.length s.
Proof. induction s as [|a s IH]; [reflexivity|]. cbn. f_equal. exact IH. Qed.

Lemma segmentsOf_concat (name : string) : concat (segmentsOf name) = Str.bytes name.
Proof.
  unfold segmentsOf.
  transitivity (concat (wordsOf (String.length name) (Str.bytes name)));
    [|apply wordsOf_concat; rewrite length_bytes; lia].
  induction (wordsOf _ _) as [|w ws IH]; [reflexivity|].
  cbn [flat_map concat]. rewrite concat_app, IH, splitAcronym_concat. reflexivity.
Qed.

Lemma splitWordsKey_segmentsOf (name : string) :
  splitWordsKey name = Str.Join (map Str.ofBytes (segmentsOf name)) "_".
Proof.
  unfold splitWordsKey. rewrite splitName_segmentsOf.
  destruct name as [|a name']; [reflexivity|].
  unfold FindAllStringSubmatch.
  cbn [String.length Str.bytes list_ascii_of_string allMatches].
  rewrite leftmost_gatherRegexp by discriminate. reflexivity.
Qed.

(** C4.  With word splitting in effect, the key is derived from the
    segments of the field name joined with underscores (then prefixed and
    upper-cased, when no alternate name overrides it).  The segments are the
    words of the name, a word being a run of non-uppercase letters, an
    uppercase run followed by non-uppercase letters, or the uppercase run
    that ends the name, with every acronym followed by a capitalized word
    split into the acronym and the word; together they are the whole name.
    MyISCSIVolume has the segments My, ISCSI, Volume and the key
    MY_ISCSI_VOLUME. *)
Theorem deriveKey_split_words :
  (forall name : string,
     splitWordsKey name = Str.Join (map Str.ofBytes (segmentsOf name)) "_"
     /\ concat (segmentsOf name) = Str.bytes name
     /\ Forall wordShape (wordsOf (String.length name) (Str.bytes name)))
  /\ (forall options prefix ftype,
        isTrue (Get (Tag ftype) "split_words")
        || SplitWords options && negb (isFalse (Get (Tag ftype) "split_words")) = true ->
        Get (Tag ftype) "envconfig" = "" ->
        let joined := Str.Join (map Str.ofBytes (segmentsOf (FieldName ftype))) "_" in
        deriveKey options prefix ftype
        = Str.ToUpper (if nonEmpty prefix then (prefix ++ "_" ++ joined)%string else joined))
  /\ map Str.ofBytes (segmentsOf "MyISCSIVolume") = ["My"; "ISCSI"; "Volume"]
  /\ deriveKey {| SplitWords := true; Required := false; ParallelExcecution := false |} ""
       (Examples.field "MyISCSIVolume" []) = "MY_ISCSI_VOLUME".
Proof.
  split; [|split; [|split; reflexivity]].
  - intros name. split; [apply splitWordsKey_segmentsOf|].
    split; [apply segmentsOf_concat|apply wordsOf_shape].
  - intros options prefix ftype Hsplit Halt joined. unfold deriveKey.
    rewrite Hsplit, Halt, splitWordsKey_segmentsOf. reflexivity.
Qed.

End Naming.

(** * More properties of the package *)

(** ** Resolution: where the value comes from *)

Section Lookup.
Context `{Parsers}.
Implicit Types (env : gmap string string) (info : varInfo) (options : Options).

(** [processInfo] either leaves the structure alone, with or without the
    required error, or coerces one text into the field; which of the two
    does not depend on the structure. *)
Lemma processInfo_cases env info options :
  (exists e, (e = None \/ exists key, e = Some (RequiredValueMissing key))
             /\ forall s : value, processInfo env info options s = (s, e))
  \/ (exists text, forall s : value, processInfo env info options s = coerceInto info text s).
Proof.
  unfold processInfo, coerceInto.
  destruct (lookupEnv env (Key info)) as [v0 ok0].
  destruct (if negb ok0 && nonEmpty (Alt info) then _ else _) as [v1 ok1].
  destruct (negb ok1 && _).
  - left. destruct (isTrue _ || _); eexists; (split; [|intros s; reflexivity]); eauto.
  - right.
    exists (if nonEmpty (Get (Tags info) "default") && negb ok1
            then Get (Tags info) "default" else v1).
    intros s. destruct (withField _ _ s) as [s' [e|]]; reflexivity.
Qed.

Lemma processInfo_found_alt env info options (s : value) (text : string) :
  env !! Key info = None -> Alt info <> "" -> env !! Alt info = Some text ->
  processInfo env info options s = coerceInto info text s.
Proof.
  intros Hkey Halt Hfound. unfold processInfo, coerceInto.
  rewrite (lookupEnv_None _ _ Hkey). apply nonEmpty_true in Halt. rewrite Halt.
  cbn [negb andb]. rewrite (lookupEnv_Some _ _ _ Hfound). cbn [negb andb].
  rewrite andb_false_r. cbn [andb].
  destruct (withField _ _ _) as [s' [e|]]; reflexivity.
Qed.

(** X1.  The value of a field is the value of its key when the key is set,
    whatever the alternate key and the default are; the alternate key is
    looked up only when the key is not set, and its value is used whatever
    the default is.  A coercion error is reported under the key, also when
    the value was found under the alternate key. *)
Theorem processInfo_lookup_order env info options (s : value) :
  (forall text, env !! Key info = Some text ->
     processInfo env info options s = coerceInto info text s)
  /\ (forall text, env !! Key info = None -> Alt info <> "" ->
        env !! Alt info = Some text ->
        processInfo env info options s = coerceInto info text s)
  /\ (forall text s' cause,
        coerceInto info text s = (s', Some cause) ->
        exists err, cause = ParseError (Key info) (Name info)
                              (TypeString (infoOf (typeOf (Field info)))) text err).
Proof.
  split; [|split].
  - intros text Hkey. apply processInfo_found. exact Hkey.
  - intros text. apply processInfo_found_alt.
  - intros text s' cause. unfold coerceInto.
    destruct (withField _ _ _) as [s'' [e|]]; cbn [option_map]; intros [= <- <-].
    eauto.
Qed.

(** X2.  The [required] tag has three readings: one of the six literals of
    true, one of the six literals of false, or anything else (no tag, "yes",
    ...), which is neither; a field that is neither is required exactly
    when the global option is on. *)
Theorem required_tag_readings (req : string) info options :
  (isTrue req = true <-> In req ["1"; "t"; "T"; "TRUE"; "true"; "True"])
  /\ (isFalse req = true <-> In req ["0"; "f"; "F"; "FALSE"; "false"; "False"])
  /\ (isTrue req = true -> isFalse req = false)
  /\ requiredByPolicy info options
     = (if isTrue (Get (Tags info) "required") then true
        else if isFalse (Get (Tags info) "required") then false
        else Required options).
Proof.
  assert (Hex : forall l, existsb (String.eqb req) l = true <-> In req l).
  { intros l. rewrite existsb_exists. split.
    - intros (x & Hx & ->%String.eqb_eq). exact Hx.
    - intros Hin. exists req. split; [exact Hin|apply String.eqb_refl]. }
  unfold isTrue, isFalse, Str.ParseBool.
  split; [|split; [|split]].
  - rewrite <- Hex. destruct (existsb _ _); [tauto|].
    destruct (existsb _ _); split; discriminate.
  - rewrite <- Hex.
    destruct (existsb (String.eqb req) ["1"; "t"; "T"; "TRUE"; "true"; "True"]) eqn:Et.
    + split; [discriminate|]. intros Hf. exfalso.
      apply Hex in Et. apply Hex in Hf.
      repeat (destruct Et as [<-|Et]; [cbn in Hf; intuition discriminate|]).
      destruct Et.
    + destruct (existsb (String.eqb req) ["0"; "f"; "F"; "FALSE"; "false"; "False"]);
        cbn [negb]; split; intros; (discriminate || reflexivity).
  - destruct (existsb _ _); [reflexivity|]. destruct (existsb _ _); discriminate.
  - unfold requiredByPolicy, isTrue, isFalse, Str.ParseBool.
    destruct (existsb _ _); [reflexivity|].
    destruct (existsb _ _); cbn; destruct (Required options); reflexivity.
Qed.

End Lookup.

(** ** Coercion: failures, pointers, sequences, mappings *)

Section MoreCoercion.
Context `{Parsers}.

Lemma processElems_untouched (f : string -> value -> value * option error) zero vals sl :
  processElems f zero vals = Ok sl -> List.length sl = List.length vals.
Proof.
  revert sl. induction vals as [|val vals IH]; intros sl; cbn [processElems].
  - intros [= <-]. reflexivity.
  - destruct (f val zero) as [elem [e|]]; [discriminate|].
    destruct (processElems f zero vals) as [elems|e]; [|discriminate].
    intros [= <-]. cbn. f_equal. apply IH. reflexivity.
Qed.

(** X3.  A built-in coercion that fails writes nothing: the destination
    holds what it held (a sequence or a mapping is never left half filled).
    The one exception is a nil pointer, which is allocated before the text
    is parsed: after a coercion into a pointer, failed or not, the pointer
    is not nil, and after a failed one a pointer that was nil points to the
    zero value. *)
Theorem processField_failure (typ : type) (text : string) (field : value) (err : error) :
  noCapability typ = true ->
  snd (processField typ text field) = Some err ->
  (KindOf typ <> Ptr -> fst (processField typ text field) = field)
  /\ (forall elem, shapeOf typ = PtrTo elem ->
        fst (processField typ text field)
        = VPtr (Some (match field with VPtr (Some v) => v | _ => Zero elem end))).
Proof.
  intros Hcap. rewrite processField_builtin by assumption.
  assert (Hswitch : forall t v e,
             snd (switchKind processField t text v) = Some e ->
             fst (switchKind processField t text v) = v).
  { intros [i sh] v e. unfold switchKind. cbn [shapeOf].
    destruct sh as [k|elem|elem|key elem|fields]; try discriminate.
    - destruct k; try discriminate;
        repeat match goal with
               | |- context [match ?x with _ => _ end] => destruct x; try discriminate
               end; reflexivity.
    - destruct (Kind_eqb _ _); [discriminate|].
      destruct (negb _); [|discriminate].
      destruct (processElems _ _ _); [discriminate|reflexivity].
    - destruct (negb _); [|discriminate].
      destruct (processPairs _ _ _ _ _ _); [discriminate|reflexivity]. }
  unfold builtinCoercion. destruct typ as [i sh]. unfold KindOf. cbn [shapeOf].
  destruct sh as [k|elem|elem|key elem|fields]; intros Herr;
    (split; [intros Hkind|intros elem' [= <-]]);
    try (eapply Hswitch; exact Herr); try congruence.
  specialize (Hswitch elem (match field with VPtr (Some v) => v | _ => Zero elem end)).
  destruct (switchKind processField elem text _) as [pointee' e'].
  cbn [fst snd] in *. subst e'. rewrite (Hswitch err eq_refl). reflexivity.
Qed.

(** X4.  Coercion into a pointer gives its pointee what coercion into a
    field of the pointee's type gives it (from the zero value when the
    pointer was nil), and leaves the pointer non-nil. *)
Theorem processField_pointer (typ elem : type) (text : string) (field : value) :
  noCapability typ = true ->
  shapeOf typ = PtrTo elem ->
  noCapability elem = true ->
  KindOf elem <> Ptr ->
  processField typ text field
  = (VPtr (Some (fst (processField elem text
                        (match field with VPtr (Some v) => v | _ => Zero elem end)))),
     snd (processField elem text
            (match field with VPtr (Some v) => v | _ => Zero elem end))).
Proof.
  intros Hcap Hshape Hcap' Hkind.
  rewrite !processField_builtin by assumption.
  unfold builtinCoercion. rewrite Hshape.
  destruct elem as [i sh]. unfold KindOf in Hkind. cbn [shapeOf] in *.
  destruct sh; try congruence;
    destruct (switchKind processField _ text _); reflexivity.
Qed.

Lemma processElems_text (elem : type) (vals : list string) :
  noCapability elem = true -> KindOf elem = String ->
  processElems (processField elem) (Zero elem) vals = Ok (map VString vals).
Proof.
  intros Hcap Hkind. induction vals as [|val vals IH]; [reflexivity|].
  cbn [processElems map]. rewrite processField_builtin by assumption.
  destruct elem as [i sh]. unfold builtinCoercion, switchKind, KindOf in *.
  cbn [shapeOf] in *. destruct sh as [k| | | |]; try discriminate.
  destruct k; try discriminate. rewrite IH. reflexivity.
Qed.

Lemma splitBytes_cons (sep : ascii) (l : list ascii) :
  exists w ws, Str.splitBytes sep l = w :: ws.
Proof.
  destruct l as [|a l]; cbn [Str.splitBytes]; [eauto|].
  destruct (Ascii.eqb a sep); [eauto|]. destruct (Str.splitBytes sep l); eauto.
Qed.

Lemma Join_longer (a : ascii) (w : list ascii) (ws : list (list ascii)) (sep : string) :
  Str.Join (map Str.ofBytes ((a :: w) :: ws)) sep
  = String.String a (Str.Join (map Str.ofBytes (w :: ws)) sep).
Proof. destruct ws; reflexivity. Qed.

Lemma Join_splitBytes (sep : ascii) (l : list ascii) :
  Str.Join (map Str.ofBytes (Str.splitBytes sep l)) (String.String sep "") = Str.ofBytes l.
Proof.
  induction l as [|a l IH]; [reflexivity|]. cbn [Str.splitBytes].
  destruct (splitBytes_cons sep l) as (w & ws & Es). rewrite Es in *.
  destruct (Ascii.eqb a sep) eqn:E.
  - apply Ascii.eqb_eq in E as ->.
    change (Str.Join (map Str.ofBytes ([] :: w :: ws)) (String.String sep ""))
      with (String.String sep (Str.Join (map Str.ofBytes (w :: ws)) (String.String sep ""))).
    rewrite IH. reflexivity.
  - rewrite Join_longer, IH. reflexivity.
Qed.

(** X5.  Coercion into a sequence of texts cuts the value at every comma
    and keeps every piece as it is (empty pieces and spaces included):
    there is one element more than there are commas, and the elements
    joined with commas are the value.  For any element type, a coercion
    that succeeds gives as many elements as there are pieces. *)
Theorem processField_text_sequence (typ elem : type) (text : string) (field : value) :
  noCapability typ = true ->
  shapeOf typ = SliceOf elem ->
  Str.TrimSpace text <> "" ->
  (noCapability elem = true -> KindOf elem = String ->
     processField typ text field = (VSlice (Some (map VString (Str.Split text ","))), None))
  /\ Str.Join (Str.Split text ",") "," = text
  /\ (KindOf elem <> Uint8 ->
      forall sl, processField typ text field = (VSlice (Some sl), None) ->
                 List.length sl = List.length (Str.Split text ",")).
Proof.
  intros Hcap Hshape Hblank.
  assert (Hlen : (String.length (Str.TrimSpace text) =? 0)%nat = false).
  { destruct (Str.TrimSpace text); [congruence|reflexivity]. }
  split; [|split].
  - intros Hcap' Hkind. rewrite processField_builtin by assumption.
    unfold builtinCoercion, switchKind. rewrite Hshape, Hkind, Hlen. cbn [Kind_eqb negb].
    rewrite processElems_text by assumption. reflexivity.
  - unfold Str.Split. rewrite Join_splitBytes. apply ofBytes_bytes.
  - intros Hkind sl. rewrite processField_builtin by assumption.
    unfold builtinCoercion, switchKind. rewrite Hshape, Hlen. cbn [negb].
    destruct (Kind_eqb (KindOf elem) Uint8) eqn:E.
    { exfalso. apply Hkind. destruct (KindOf elem); try discriminate. reflexivity. }
    destruct (processElems _ _ _) as [sl'|e] eqn:Es; intros [= <-].
    eapply processElems_untouched. exact Es.
Qed.

Lemma SetMapIndex_keys (P : value -> Prop) mp (k v : value) :
  Forall (fun kv => P (fst kv)) mp -> P k ->
  Forall (fun kv => P (fst kv)) (SetMapIndex mp k v).
Proof.
  intros Hmp Hk. induction Hmp as [|[k0 v0] mp Hk0 Hmp IH]; cbn [SetMapIndex].
  - constructor; [exact Hk|constructor].
  - destruct (keyEqual k0 k); constructor; assumption.
Qed.

Lemma SetMapIndex_distinct mp (k v : value) :
  distinctKeys mp ->
  distinctKeys (SetMapIndex mp k v)
  /\ List.length (SetMapIndex mp k v) <= S (List.length mp).
Proof.
  unfold distinctKeys. induction 1 as [|[k0 v0] mp Hk0 Hmp IH]; cbn [SetMapIndex].
  - split; [repeat constructor|cbn; lia].
  - destruct (keyEqual k0 k) eqn:E.
    + split; [constructor; assumption|cbn; lia].
    + destruct IH as [IH Hlen]. split; [|cbn [List.length]; lia].
      constructor; [|exact IH].
      apply (SetMapIndex_keys (fun k' => keyEqual k0 k' = false)); assumption.
Qed.

Lemma processPairs_distinct (pk pe : string -> value -> value * option error)
    zk ze pairs mp0 mp :
  distinctKeys mp0 ->
  processPairs pk pe zk ze pairs mp0 = Ok mp ->
  distinctKeys mp /\ List.length mp <= List.length mp0 + List.length pairs.
Proof.
  revert mp0. induction pairs as [|item pairs IH]; intros mp0 Hmp0; cbn [processPairs].
  - intros [= <-]. split; [exact Hmp0|lia].
  - destruct (Str.Split item ":") as [|kv0 [|kv1 [|]]]; try discriminate.
    destruct (pk kv0 zk) as [k [e|]]; [discriminate|].
    destruct (pe kv1 ze) as [v [e|]]; [discriminate|].
    intros Hrun. destruct (SetMapIndex_distinct mp0 k v Hmp0) as [Hd Hlen].
    destruct (IH _ Hd Hrun) as [Hd' Hlen']. split; [exact Hd'|cbn [List.length]; lia].
Qed.

(** X6.  The mapping that a coercion builds never holds two entries with
    equal keys, and has at most as many entries as the value has pairs. *)
Theorem processField_mapping_distinct (typ key elem : type) (text : string)
    (field : value) (mp : list (value * value)) :
  noCapability typ = true ->
  shapeOf typ = MapOf key elem ->
  processField typ text field = (VMap (Some mp), None) ->
  distinctKeys mp /\ List.length mp <= List.length (Str.Split text ",").
Proof.
  intros Hcap Hshape. rewrite processField_builtin by assumption.
  unfold builtinCoercion, switchKind. rewrite Hshape.
  destruct (negb _).
  - destruct (processPairs _ _ _ _ _ _) as [mp'|e] eqn:Ep; intros [= <-].
    eapply processPairs_distinct in Ep; [exact Ep|constructor].
  - intros [= <-]. split; [constructor|cbn; lia].
Qed.

End MoreCoercion.

(** ** Discovery: what the descriptors are *)

Section Descriptors.
Implicit Types (options : Options) (prefix : string) (ftype : StructField).

Lemma gatherFields_leaves g fields (s : list value) (i : nat) :
  Forall (fun ft => forall ftype f,
            Forall (fun info => exists v,
                      load (pathOf (Field info)) (snd (g ftype (snd ft) f)) = Some v
                      /\ leaf (typeOf (Field info)) v)
              (fst (g ftype (snd ft) f))) fields ->
  Forall (fun info => exists j p f' v,
            pathOf (Field info) = Fld (i + j) :: p
            /\ snd (gatherFields g fields s i) !! j = Some f'
            /\ load p f' = Some v /\ leaf (typeOf (Field info)) v)
    (fst (gatherFields g fields s i)).
Proof.
  intros Hall. revert s i.
  induction Hall as [|[ftype typ] fields Hhd _ IH]; intros s i; [constructor|].
  destruct s as [|f s]; [constructor|]. cbn [gatherFields].
  specialize (IH s (S i)). specialize (Hhd ftype f). cbn [snd] in Hhd.
  destruct (gatherFields g fields s (S i)) as [infos s'']. cbn [fst snd] in IH.
  assert (Hrest : forall f0,
            Forall (fun info => exists j p f' v,
                      pathOf (Field info) = Fld (i + j) :: p
                      /\ (f0 :: s'') !! j = Some f'
                      /\ load p f' = Some v /\ leaf (typeOf (Field info)) v) infos).
  { intros f0. eapply List.Forall_impl; [|exact IH].
    intros info (j & p & f' & v & Hp & Hj & Hl & Hleaf). exists (S j), p, f', v.
    split; [rewrite Hp; f_equal; f_equal; lia|].
    split; [exact Hj|]. split; [exact Hl|exact Hleaf]. }
  destruct (negb (CanSet ftype) || isTrue (Get (Tag ftype) "ignored")); [apply Hrest|].
  destruct (g ftype typ f) as [fieldInfos f']. cbn [fst snd] in *.
  apply List.Forall_app. split; [|apply Hrest].
  apply List.Forall_forall. intros info (x & <- & Hx)%List.in_map_iff.
  eapply List.Forall_forall in Hhd as (v & Hl & Hleaf); [|exact Hx].
  exists 0, (pathOf (Field x)), f', v. cbn [under Field pathOf typeOf].
  split; [f_equal; f_equal; lia|].
  split; [reflexivity|]. split; [exact Hl|exact Hleaf].
Qed.

Lemma gatherField_leaves (typ : type) :
  forall options prefix ftype (f : value),
    Forall (fun info => exists v,
              load (pathOf (Field info)) (snd (gatherField options prefix ftype typ f))
              = Some v
              /\ leaf (typeOf (Field info)) v)
      (fst (gatherField options prefix ftype typ f)).
Proof.
  assert (Hone : forall (info : varInfo) (f : value),
             pathOf (Field info) = [] -> leaf (typeOf (Field info)) f ->
             Forall (fun info => exists v,
                       load (pathOf (Field info)) f = Some v
                       /\ leaf (typeOf (Field info)) v) [info]).
  { intros info f Hp Hleaf. constructor; [|constructor]. rewrite Hp. exists f. auto. }
  induction typ as [info k|info elem IH|info elem _|info key elem _ _|info fields IH]
    using type_induction; intros options prefix ftype f.
  - apply Hone; [reflexivity|]. split; [|discriminate].
    unfold KindOf. cbn. destruct k; discriminate.
  - cbn [gatherField]. destruct (IsNil f && _) eqn:E.
    + apply Hone; [reflexivity|]. apply andb_true_iff in E as [Hnil Hk].
      split; [discriminate|]. intros elem' [= <-]. split; [exact Hnil|].
      apply negb_true_iff. exact Hk.
    + match goal with
      | |- context [gatherField options prefix ftype elem ?v] =>
          specialize (IH options prefix ftype v);
          destruct (gatherField options prefix ftype elem v) as [infos v']
      end.
      cbn [fst snd] in *. apply List.Forall_forall.
      intros info0 (x & <- & Hx)%List.in_map_iff.
      eapply List.Forall_forall in IH; [|exact Hx]. exact IH.
  - apply Hone; [reflexivity|]. split; discriminate.
  - apply Hone; [reflexivity|]. split; discriminate.
  - cbn [gatherField]. destruct (noCapability _) eqn:Ecap.
    + destruct f; try constructor.
      match goal with
      | |- context [gatherFields ?g fields ?s 0] =>
          pose proof (gatherFields_leaves g fields s 0) as Hs
      end.
      destruct (gatherFields _ fields _ 0) as [infos s']. cbn [fst snd] in *.
      eapply List.Forall_impl; [|apply Hs].
      * intros info0 (j & p & f' & v & Hp & Hj & Hl & Hleaf). rewrite Hp.
        change (0 + j) with j. cbn [load]. cbn [snd] in Hj. rewrite Hj. eauto.
      * eapply List.Forall_impl; [|exact IH].
        intros [ftype' typ'] Htyp ftype0 f0. apply Htyp.
    + apply Hone; [reflexivity|]. split; [intros _; exact Ecap|discriminate].
Qed.

(** X7.  The handles of the descriptors that discovery returns, as paths
    of field selections and pointer dereferences from the structure: each
    path leads to a value in the structure that discovery leaves; no two
    descriptors have the same path, and none has a path that continues the
    path of another (so that, in a structure where no two pointers point
    to the same variable, no two fields overlap); each path ends at a
    leaf: never a structure without capability (those are gone into), and
    a pointer only when it is nil and points to something that is not a
    structure. *)
Theorem gatherInfo_destinations prefix (spec : type * value) options
    (infos : list varInfo) (s0 : value) :
  gatherInfo prefix spec options = (Ok infos, VPtr (Some s0)) ->
  ForallOrdPairs apart infos
  /\ Forall (fun info => exists v,
               load (pathOf (Field info)) s0 = Some v /\ leaf (typeOf (Field info)) v)
       infos.
Proof.
  intros Hgather. split; [eapply gatherInfo_apart; exact Hgather|].
  revert Hgather. unfold gatherInfo. destruct (shapeOf (fst spec)); try discriminate.
  destruct (snd spec) as [| | | | |[[| | | | | | | |s|]|]| | | |]; try discriminate.
  destruct (shapeOf elem); try discriminate.
  pose proof (gatherFields_leaves (gatherField options prefix) fields s 0) as Hs.
  destruct (gatherFields _ fields s 0) as [infos' s']. cbn [fst snd] in *.
  intros [= <- <-].
  eapply List.Forall_impl; [|apply Hs].
  - intros info0 (j & p & f' & v & Hp & Hj & Hl & Hleaf). rewrite Hp.
    change (0 + j) with j. cbn [load]. cbn [snd] in Hj. rewrite Hj. eauto.
  - apply List.Forall_forall. intros [ftype typ] _ ftype0 f0. apply gatherField_leaves.
Qed.

End Descriptors.

(** ** Discovery: the keys *)

Section Keys.
Implicit Types (options : Options) (prefix : string) (ftype : StructField).

Lemma upperByte_idempotent (a : ascii) : Str.upperByte (Str.upperByte a) = Str.upperByte a.
Proof. destruct a as [[] [] [] [] [] [] [] []]; reflexivity. Qed.

Lemma ToUpper_idempotent (s : string) : Str.ToUpper (Str.ToUpper s) = Str.ToUpper s.
Proof.
  unfold Str.ToUpper. rewrite bytes_ofBytes, map_map. f_equal.
  apply map_ext. intros a. apply upperByte_idempotent.
Qed.

Lemma bytes_app (s1 s2 : string) :
  Str.bytes (s1 ++ s2)%string = Str.bytes s1 ++ Str.bytes s2.
Proof.
  induction s1 as [|a s1 IH]; [reflexivity|].
  change (String.String a s1 ++ s2)%string with (String.String a (s1 ++ s2)%string).
  unfold Str.bytes in *. cbn [list_ascii_of_string app]. f_equal. exact IH.
Qed.

Lemma append_assoc (s1 s2 s3 : string) :
  ((s1 ++ s2) ++ s3 = s1 ++ s2 ++ s3)%string.
Proof.
  induction s1 as [|a s1 IH]; [reflexivity|].
  change (String.String a ((s1 ++ s2) ++ s3) = String.String a (s1 ++ s2 ++ s3))%string.
  rewrite IH. reflexivity.
Qed.

Lemma ofBytes_app (l1 l2 : list ascii) :
  Str.ofBytes (l1 ++ l2) = (Str.ofBytes l1 ++ Str.ofBytes l2)%string.
Proof.
  induction l1 as [|a l1 IH]; [reflexivity|].
  unfold Str.ofBytes in *. cbn [app string_of_list_ascii]. rewrite IH. reflexivity.
Qed.

Lemma ToUpper_app (s1 s2 : string) :
  Str.ToUpper (s1 ++ s2)%string = (Str.ToUpper s1 ++ Str.ToUpper s2)%string.
Proof. unfold Str.ToUpper. rewrite bytes_app, map_app, ofBytes_app. reflexivity. Qed.

Lemma HasPrefix_app (s rest : string) : HasPrefix (s ++ rest)%string s = true.
Proof.
  unfold HasPrefix. rewrite bytes_app. generalize (Str.bytes rest) as r. intros r.
  induction (Str.bytes s) as [|a l IH]; [destruct r; reflexivity|].
  cbn [app hasPrefixBytes]. rewrite Ascii.eqb_refl. exact IH.
Qed.

(** The key of a field under a prefix: the upper-cased prefix, an
    underscore, and the rest. *)
Lemma deriveKey_prefixed options prefix ftype :
  prefix <> "" ->
  exists rest, deriveKey options prefix ftype = (Str.ToUpper prefix ++ "_" ++ rest)%string.
Proof.
  intros Hp. unfold deriveKey. apply nonEmpty_true in Hp. rewrite Hp.
  rewrite !ToUpper_app. eauto.
Qed.

Lemma deriveKey_upper options prefix ftype :
  Str.ToUpper (deriveKey options prefix ftype) = deriveKey options prefix ftype.
Proof. unfold deriveKey. apply ToUpper_idempotent. Qed.

(** A property of the descriptors that does not look at the handle holds of
    the descriptors of a structure when it holds of those of its fields. *)
Lemma gatherFields_Forall (P : varInfo -> Prop) g fields (s : list value) (i : nat) :
  (forall st info, P info -> P (under st info)) ->
  Forall (fun ft => forall ftype f, Forall P (fst (g ftype (snd ft) f))) fields ->
  Forall P (fst (gatherFields g fields s i)).
Proof.
  intros Hunder Hall. revert s i.
  induction Hall as [|[ftype typ] fields Hhd _ IH]; intros s i; [constructor|].
  destruct s as [|f s]; [constructor|]. cbn [gatherFields].
  specialize (IH s (S i)). specialize (Hhd ftype f). cbn [snd] in Hhd.
  destruct (gatherFields g fields s (S i)) as [infos s'']. cbn [fst] in *.
  destruct (negb (CanSet ftype) || isTrue (Get (Tag ftype) "ignored")); [exact IH|].
  destruct (g ftype typ f) as [fieldInfos f']. cbn [fst] in *.
  apply List.Forall_app. split; [|exact IH].
  apply List.Forall_forall. intros info (x & <- & Hx)%List.in_map_iff.
  apply Hunder. eapply List.Forall_forall in Hhd; eauto.
Qed.

Lemma gatherField_keys (typ : type) :
  forall options prefix ftype (f : value),
    Forall (fun info =>
              Str.ToUpper (Key info) = Key info
              /\ Str.ToUpper (Alt info) = Alt info
              /\ (prefix <> "" ->
                  exists rest, Key info = (Str.ToUpper prefix ++ "_" ++ rest)%string))
      (fst (gatherField options prefix ftype typ f)).
Proof.
  assert (Hone : forall options prefix ftype h,
             Forall (fun info =>
                       Str.ToUpper (Key info) = Key info
                       /\ Str.ToUpper (Alt info) = Alt info
                       /\ (prefix <> "" ->
                           exists rest,
                             Key info = (Str.ToUpper prefix ++ "_" ++ rest)%string))
               [newInfo options prefix ftype h]).
  { intros options prefix ftype h. constructor; [|constructor]. cbn [newInfo Key Alt].
    split; [apply deriveKey_upper|]. split; [apply ToUpper_idempotent|].
    apply deriveKey_prefixed. }
  induction typ as [info k|info elem IH|info elem _|info key elem _ _|info fields IH]
    using type_induction; intros options prefix ftype f; try apply Hone.
  - cbn [gatherField]. destruct (IsNil f && _); [apply Hone|].
    match goal with
    | |- context [gatherField options prefix ftype elem ?v] =>
        specialize (IH options prefix ftype v);
        destruct (gatherField options prefix ftype elem v) as [infos v']
    end.
    cbn [fst] in *. apply List.Forall_forall.
    intros info0 (x & <- & Hx)%List.in_map_iff.
    eapply List.Forall_forall in IH; [|exact Hx]. exact IH.
  - cbn [gatherField]. destruct (noCapability _); [|apply Hone].
    destruct f; try constructor.
    match goal with
    | |- context [gatherFields ?g fields ?s 0] =>
        pose proof (fun P Hu => gatherFields_Forall P g fields s 0 Hu) as Hs
    end.
    destruct (gatherFields _ fields _ 0) as [infos s']. cbn [fst] in *.
    apply Hs; [intros st info0 Hinfo; exact Hinfo|].
    eapply List.Forall_impl; [|exact IH].
    intros [ftype' typ'] Htyp ftype0 f0. cbn [snd] in *.
    destruct (Anonymous ftype); [apply Htyp|].
    eapply List.Forall_impl; [|apply Htyp].
    intros info0 (Hk & Ha & Hp). split; [exact Hk|]. split; [exact Ha|].
    intros Hprefix. cbn [newInfo Key] in Hp.
    destruct (deriveKey_prefixed options prefix ftype Hprefix) as [r0 Hr0].
    destruct Hp as [rest Hrest].
    { rewrite Hr0. destruct (Str.ToUpper prefix); discriminate. }
    rewrite deriveKey_upper, Hr0 in Hrest.
    exists (r0 ++ "_" ++ rest)%string. rewrite Hrest.
    rewrite !append_assoc. reflexivity.
Qed.

(** ASCII texts stay ASCII through what derives a key. *)
Lemma isASCII_app (s1 s2 : string) :
  isASCII (s1 ++ s2)%string = isASCII s1 && isASCII s2.
Proof. unfold isASCII. rewrite bytes_app. apply forallb_app. Qed.

Lemma isASCII_ofBytes (l : list ascii) :
  isASCII (Str.ofBytes l) = forallb (fun a => (nat_of_ascii a <? 128)%nat) l.
Proof. unfold isASCII. rewrite bytes_ofBytes. reflexivity. Qed.

Lemma upperByte_ascii (a : ascii) :
  (nat_of_ascii a <? 128)%nat = true -> (nat_of_ascii (Str.upperByte a) <? 128)%nat = true.
Proof. destruct a as [[] [] [] [] [] [] [] []]; vm_compute; intros E; exact E. Qed.

Lemma isASCII_ToUpper (s : string) : isASCII s = true -> isASCII (Str.ToUpper s) = true.
Proof.
  unfold Str.ToUpper. rewrite isASCII_ofBytes. unfold isASCII.
  induction (Str.bytes s) as [|a l IH]; [reflexivity|].
  cbn [forallb map]. intros [Ha Hl]%andb_prop.
  rewrite (upperByte_ascii a Ha). apply IH. exact Hl.
Qed.

Lemma isASCII_Join (elems : list string) (sep : string) :
  Forall (fun e => isASCII e = true) elems -> isASCII sep = true ->
  isASCII (Str.Join elems sep) = true.
Proof.
  intros Hall Hsep. induction Hall as [|e rest He Hrest IH]; [reflexivity|].
  destruct rest as [|e' rest]; [exact He|].
  change (Str.Join (e :: e' :: rest) sep)
    with (e ++ sep ++ Str.Join (e' :: rest) sep)%string.
  rewrite !isASCII_app, He, Hsep, IH. reflexivity.
Qed.

Lemma isASCII_splitWordsKey (name : string) :
  isASCII name = true -> isASCII (splitWordsKey name) = true.
Proof.
  intros Hname. rewrite splitWordsKey_segmentsOf. apply isASCII_Join; [|reflexivity].
  unfold isASCII in Hname. rewrite <- segmentsOf_concat in Hname.
  induction (segmentsOf name) as [|w ws IH]; [constructor|].
  cbn [concat] in Hname. rewrite forallb_app in Hname.
  apply andb_prop in Hname as [Hw Hws].
  cbn [map]. constructor; [rewrite isASCII_ofBytes; exact Hw|apply IH; exact Hws].
Qed.

Lemma deriveKey_ascii options prefix ftype :
  isASCII prefix = true -> isASCII (FieldName ftype) = true ->
  isASCII (Get (Tag ftype) "envconfig") = true ->
  isASCII (deriveKey options prefix ftype) = true.
Proof.
  intros Hp Hn Ht. unfold deriveKey. apply isASCII_ToUpper.
  assert (Hkey : isASCII
                   (if nonEmpty (Str.ToUpper (Get (Tag ftype) "envconfig"))
                    then Str.ToUpper (Get (Tag ftype) "envconfig")
                    else if isTrue (Get (Tag ftype) "split_words")
                            || SplitWords options
                               && negb (isFalse (Get (Tag ftype) "split_words"))
                         then splitWordsKey (FieldName ftype)
                         else FieldName ftype) = true).
  { destruct (nonEmpty _); [apply isASCII_ToUpper; exact Ht|].
    destruct (_ || _); [apply isASCII_splitWordsKey; exact Hn|exact Hn]. }
  destruct (nonEmpty prefix); [|exact Hkey].
  rewrite !isASCII_app, Hp, Hkey. reflexivity.
Qed.

(** As [gatherFields_Forall], each field with its own declaration. *)
Lemma gatherFields_Forall_own (P : varInfo -> Prop) g fields (s : list value) (i : nat) :
  (forall st info, P info -> P (under st info)) ->
  Forall (fun ft => forall f, Forall P (fst (g (fst ft) (snd ft) f))) fields ->
  Forall P (fst (gatherFields g fields s i)).
Proof.
  intros Hunder Hall. revert s i.
  induction Hall as [|[ftype typ] fields Hhd _ IH]; intros s i; [constructor|].
  destruct s as [|f s]; [constructor|]. cbn [gatherFields].
  specialize (IH s (S i)). specialize (Hhd f). cbn [fst snd] in Hhd.
  destruct (gatherFields g fields s (S i)) as [infos s'']. cbn [fst] in *.
  destruct (negb (CanSet ftype) || isTrue (Get (Tag ftype) "ignored")); [exact IH|].
  destruct (g ftype typ f) as [fieldInfos f']. cbn [fst] in *.
  apply List.Forall_app. split; [|exact IH].
  apply List.Forall_forall. intros info (x & <- & Hx)%List.in_map_iff.
  apply Hunder. eapply List.Forall_forall in Hhd; eauto.
Qed.

Lemma asciiFields_Forall (fields : list (StructField * type)) :
  asciiFields asciiNames fields = true ->
  Forall (fun ft => isASCII (FieldName (fst ft)) = true
                    /\ isASCII (Get (Tag (fst ft)) "envconfig") = true
                    /\ asciiNames (snd ft) = true) fields.
Proof.
  induction fields as [|[ftype typ] fields IH]; [constructor|].
  cbn [asciiFields]. intros [[[Hn Ht]%andb_prop Hty]%andb_prop Hrest]%andb_prop.
  constructor; [cbn [fst snd]; auto|apply IH; exact Hrest].
Qed.

Lemma gatherField_ascii (typ : type) :
  forall options prefix ftype (f : value),
    isASCII prefix = true -> isASCII (FieldName ftype) = true ->
    isASCII (Get (Tag ftype) "envconfig") = true -> asciiNames typ = true ->
    Forall (fun info => isASCII (Key info) = true /\ isASCII (Alt info) = true)
      (fst (gatherField options prefix ftype typ f)).
Proof.
  assert (Hone : forall options prefix ftype h,
             isASCII prefix = true -> isASCII (FieldName ftype) = true ->
             isASCII (Get (Tag ftype) "envconfig") = true ->
             Forall (fun info => isASCII (Key info) = true /\ isASCII (Alt info) = true)
               [newInfo options prefix ftype h]).
  { intros options prefix ftype h Hp Hn Ht. constructor; [|constructor].
    cbn [newInfo Key Alt]. split; [apply deriveKey_ascii; assumption|].
    apply isASCII_ToUpper. exact Ht. }
  induction typ as [info k|info elem IH|info elem _|info key elem _ _|info fields IH]
    using type_induction; intros options prefix ftype f Hp Hn Ht Hty;
    try (apply Hone; assumption).
  - cbn [gatherField]. destruct (IsNil f && _); [apply Hone; assumption|].
    cbn [asciiNames] in Hty.
    match goal with
    | |- context [gatherField options prefix ftype elem ?v] =>
        specialize (IH options prefix ftype v Hp Hn Ht Hty);
        destruct (gatherField options prefix ftype elem v) as [infos v']
    end.
    cbn [fst] in *. apply List.Forall_forall.
    intros info0 (x & <- & Hx)%List.in_map_iff.
    eapply List.Forall_forall in IH; [|exact Hx]. exact IH.
  - cbn [gatherField]. destruct (noCapability _); [|apply Hone; assumption].
    destruct f; try constructor.
    cbn [asciiNames] in Hty. apply asciiFields_Forall in Hty.
    match goal with
    | |- context [gatherFields ?g fields ?s 0] =>
        pose proof (fun P Hu => gatherFields_Forall_own P g fields s 0 Hu) as Hs
    end.
    destruct (gatherFields _ fields _ 0) as [infos s']. cbn [fst] in *.
    apply Hs; [intros st info0 Hinfo; exact Hinfo|].
    apply List.Forall_forall. intros [ftype' typ'] Hin f0. cbn [fst snd].
    eapply List.Forall_forall in IH; [|exact Hin].
    eapply List.Forall_forall in Hty; [|exact Hin].
    cbn [fst snd] in *. destruct Hty as (Hn' & Ht' & Hty').
    apply IH; try assumption.
    destruct (Anonymous ftype); [exact Hp|].
    cbn [newInfo Key]. apply deriveKey_ascii; assumption.
Qed.

(** X8.  When the prefix, the names of the fields and their [envconfig]
    tags are ASCII texts, so is every text that discovery upper-cases
    ([Str.ToUpper] is [strings.ToUpper] on those), and every key that
    discovery derives, at any depth, is an ASCII text in upper case, and so
    is every alternate key; under a prefix that is not empty every key
    begins with the upper-cased prefix and an underscore. *)
Theorem gatherInfo_keys prefix (spec : type * value) options
    (infos : list varInfo) (spec' : value) :
  isASCII prefix = true ->
  asciiNames (fst spec) = true ->
  gatherInfo prefix spec options = (Ok infos, spec') ->
  Forall (fun info =>
            Str.ToUpper (Key info) = Key info
            /\ Str.ToUpper (Alt info) = Alt info
            /\ (prefix <> "" ->
                HasPrefix (Key info) (Str.ToUpper prefix ++ "_") = true))
    infos
  /\ Forall (fun info => isASCII (Key info) = true /\ isASCII (Alt info) = true) infos.
Proof.
  intros Hprefix Hnames Hgather. split; [clear Hprefix Hnames; revert Hgather|].
  2:{ revert Hgather. unfold gatherInfo.
      destruct spec as [[i0 sh] v]. cbn [fst snd shapeOf] in *.
      destruct sh as [k|elem|e|k e|fs]; try discriminate.
      destruct v as [| | | | |[[| | | | | | | |s|]|]| | | |]; try discriminate.
      cbn [asciiNames] in Hnames. destruct elem as [i1 sh1]. cbn [shapeOf].
      destruct sh1 as [k|e|e|k e|fields]; try discriminate.
      cbn [asciiNames] in Hnames. apply asciiFields_Forall in Hnames.
      pose proof (gatherFields_Forall_own
                    (fun info => isASCII (Key info) = true /\ isASCII (Alt info) = true)
                    (gatherField options prefix) fields s 0) as Hs.
      destruct (gatherFields _ fields s 0) as [infos' s']. cbn [fst] in *.
      intros [= <- <-]. apply Hs; [intros st info0 Hinfo; exact Hinfo|].
      apply List.Forall_forall. intros [ftype typ] Hin f0. cbn [fst snd].
      eapply List.Forall_forall in Hnames; [|exact Hin].
      cbn [fst snd] in Hnames. destruct Hnames as (Hn & Ht & Hty).
      apply gatherField_ascii; assumption. }
  unfold gatherInfo. destruct (shapeOf (fst spec)); try discriminate.
  destruct (snd spec) as [| | | | |[[| | | | | | | |s|]|]| | | |]; try discriminate.
  destruct (shapeOf elem); try discriminate.
  pose proof (gatherFields_Forall
                (fun info =>
                   Str.ToUpper (Key info) = Key info
                   /\ Str.ToUpper (Alt info) = Alt info
                   /\ (prefix <> "" ->
                       exists rest, Key info = (Str.ToUpper prefix ++ "_" ++ rest)%string))
                (gatherField options prefix) fields s 0) as Hs.
  destruct (gatherFields _ fields s 0) as [infos' s']. cbn [fst] in *.
  intros [= <- <-].
  eapply List.Forall_impl; [|apply Hs].
  - intros info0 (Hk & Ha & Hp). split; [exact Hk|]. split; [exact Ha|].
    intros Hprefix. destruct (Hp Hprefix) as [rest ->].
    rewrite <- append_assoc. apply HasPrefix_app.
  - intros st info0 Hinfo. exact Hinfo.
  - apply List.Forall_forall. intros [ftype typ] _ ftype0 f0. apply gatherField_keys.
Qed.

End Keys.

(** ** Discovery again, and the fields it skips *)

Section Again.
Context `{Parsers}.
Implicit Types (env : gmap string string) (options : Options) (prefix : string).

Lemma allocatedFields_idempotent alloc fields (s : list value) :
  Forall (fun ft => forall f, alloc (snd ft) (alloc (snd ft) f) = alloc (snd ft) f) fields ->
  allocatedFields alloc fields (allocatedFields alloc fields s)
  = allocatedFields alloc fields s.
Proof.
  intros Hall. revert s. induction Hall as [|[ftype typ] fields Hhd _ IH]; intros s.
  - destruct s; reflexivity.
  - destruct s as [|f s]; [reflexivity|]. cbn [allocatedFields]. rewrite IH. f_equal.
    destruct (negb (CanSet ftype) || isTrue (Get (Tag ftype) "ignored")); [reflexivity|].
    apply Hhd.
Qed.

Lemma allocated_idempotent (typ : type) :
  forall f : value, allocated typ (allocated typ f) = allocated typ f.
Proof.
  induction typ as [info k|info elem IH|info elem _|info key elem _ _|info fields IH]
    using type_induction; intros f; try reflexivity.
  - cbn [allocated].
    destruct f as [| | | | |[v|]| | | |];
      try (destruct (Kind_eqb (KindOf elem) Struct) eqn:E; [rewrite IH|rewrite ?E]; reflexivity).
    rewrite IH. reflexivity.
  - cbn [allocated]. destruct (noCapability _) eqn:E; [|reflexivity].
    destruct f; try reflexivity.
    rewrite allocatedFields_idempotent; [reflexivity|].
    eapply List.Forall_impl; [|exact IH]. intros [ftype typ] Htyp. exact Htyp.
Qed.

Lemma gatherFields_infos_allocated g alloc fields (s : list value) (i : nat) :
  Forall (fun ft => forall ftype f,
            fst (g ftype (snd ft) (alloc (snd ft) f)) = fst (g ftype (snd ft) f)) fields ->
  fst (gatherFields g fields (allocatedFields alloc fields s) i)
  = fst (gatherFields g fields s i).
Proof.
  intros Hall. revert s i. induction Hall as [|[ftype typ] fields Hhd _ IH]; intros s i.
  - destruct s; reflexivity.
  - destruct s as [|f s]; [reflexivity|]. cbn [gatherFields allocatedFields].
    specialize (IH s (S i)). specialize (Hhd ftype f). cbn [snd] in Hhd.
    destruct (gatherFields g fields (allocatedFields alloc fields s) (S i)) as [infos1 s1].
    destruct (gatherFields g fields s (S i)) as [infos2 s2]. cbn [fst] in IH. subst infos2.
    destruct (negb (CanSet ftype) || isTrue (Get (Tag ftype) "ignored")); [reflexivity|].
    destruct (g ftype typ (alloc typ f)) as [i1 f1].
    destruct (g ftype typ f) as [i2 f2]. cbn [fst] in *. subst i2. reflexivity.
Qed.

(** Discovery finds the same descriptors in the structure it has left. *)
Lemma gatherField_infos_allocated (typ : type) :
  forall options prefix ftype (f : value),
    fst (gatherField options prefix ftype typ (allocated typ f))
    = fst (gatherField options prefix ftype typ f).
Proof.
  induction typ as [info k|info elem IH|info elem _|info key elem _ _|info fields IH]
    using type_induction; intros options prefix ftype f; try reflexivity.
  - cbn [gatherField allocated].
    destruct (Kind_eqb (KindOf elem) Struct) eqn:E.
    + destruct f as [| | | | |[v|]| | | |]; cbn [IsNil andb negb];
        rewrite ?andb_false_r;
        match goal with
        | |- context [gatherField options prefix ftype elem (allocated elem ?v)] =>
            specialize (IH options prefix ftype v);
            destruct (gatherField options prefix ftype elem (allocated elem v));
            destruct (gatherField options prefix ftype elem v)
        end; cbn [fst] in *; subst; reflexivity.
    + destruct f as [| | | | |[v|]| | | |]; cbn [IsNil andb negb]; try reflexivity.
      specialize (IH options prefix ftype v).
      destruct (gatherField options prefix ftype elem (allocated elem v)).
      destruct (gatherField options prefix ftype elem v). cbn [fst] in *. subst.
      reflexivity.
  - cbn [gatherField allocated]. destruct (noCapability _) eqn:E; [|reflexivity].
    destruct f; try reflexivity.
    match goal with
    | |- context [gatherFields ?g fields (allocatedFields allocated fields ?s) 0] =>
        pose proof (gatherFields_infos_allocated g allocated fields s 0) as Hs
    end.
    destruct (gatherFields _ fields (allocatedFields _ _ _) 0) as [infos1 s1].
    destruct (gatherFields _ fields _ 0) as [infos2 s2]. cbn [fst] in *.
    rewrite Hs; [reflexivity|].
    eapply List.Forall_impl; [|exact IH]. intros [ftype' typ'] Htyp ftype0 f0. apply Htyp.
Qed.

(** Discovery on what an earlier discovery (under any prefix and options)
    has left is discovery on the structure as it was. *)
Lemma gatherInfo_after prefix prefix' options options' (spec : type * value) :
  gatherInfo prefix (fst spec, snd (gatherInfo prefix' spec options')) options
  = gatherInfo prefix spec options.
Proof.
  unfold gatherInfo. cbn [fst snd].
  destruct (shapeOf (fst spec)) as [k|typeOfSpec|e|k e|fs] eqn:Eshape; try reflexivity.
  destruct (snd spec) as [| | | | |[[| | | | | | | |s|]|]| | | |] eqn:Espec;
    try (rewrite ?Eshape; reflexivity).
  destruct (shapeOf typeOfSpec) as [k|e|e|k e|fields] eqn:Efields;
    try (cbn [snd]; rewrite ?Eshape, ?Efields; reflexivity).
  pose proof (gatherFields_allocated (gatherField options' prefix') allocated fields s 0) as H1.
  pose proof (gatherFields_allocated (gatherField options prefix) allocated fields s 0) as H2.
  pose proof (gatherFields_allocated (gatherField options prefix) allocated fields
                (allocatedFields allocated fields s) 0) as H3.
  pose proof (gatherFields_infos_allocated (gatherField options prefix) allocated fields s 0)
    as H4.
  assert (Hall : forall o p,
             Forall (fun ft : StructField * type => forall ftype f,
                       snd (gatherField o p ftype (snd ft) f) = allocated (snd ft) f) fields).
  { intros o p. apply List.Forall_forall. intros [ftype typ] _ ftype0 f0.
    apply gatherField_allocated. }
  rewrite allocatedFields_idempotent in H3
    by (apply List.Forall_forall; intros [ftype typ] _ f0; apply allocated_idempotent).
  specialize (H1 (Hall _ _)). specialize (H2 (Hall _ _)). specialize (H3 (Hall _ _)).
  assert (H4' := H4 ltac:(apply List.Forall_forall; intros [ftype typ] _ ftype0 f0;
                          apply gatherField_infos_allocated)).
  clear H4.
  destruct (gatherFields (gatherField options' prefix') fields s 0) as [infos1 s1].
  cbn [snd] in *. subst s1. rewrite ?Efields.
  destruct (gatherFields (gatherField options prefix) fields
              (allocatedFields allocated fields s) 0) as [infos3 s3].
  destruct (gatherFields (gatherField options prefix) fields s 0) as [infos2 s2].
  cbn [fst snd] in *. subst. reflexivity.
Qed.

(** X9.  Discovery is idempotent: run again on the structure it has left,
    it allocates nothing more and returns the same descriptors. *)
Theorem gatherInfo_idempotent prefix (spec : type * value) options
    (infos : list varInfo) (spec' : value) :
  gatherInfo prefix spec options = (Ok infos, spec') ->
  gatherInfo prefix (fst spec, spec') options = (Ok infos, spec').
Proof.
  intros Hgather.
  pose proof (gatherInfo_after prefix prefix options options spec) as Hafter.
  rewrite Hgather in Hafter. exact Hafter.
Qed.

(** X10.  The cross-check changes the structure exactly as discovery does
    and no further: whether or not [CheckDisallowedWithOptions] was run
    first (under any prefix and options, whatever it answered),
    [ProcessWithOptions] returns the same structure and the same error. *)
Theorem CheckDisallowed_then_Process env (environ : list string) prefix prefix'
    options options' (spec : type * value) :
  fst (CheckDisallowedWithOptions environ prefix' spec options')
  = snd (gatherInfo prefix' spec options')
  /\ ProcessWithOptions env prefix
       (fst spec, fst (CheckDisallowedWithOptions environ prefix' spec options')) options
     = ProcessWithOptions env prefix spec options.
Proof.
  assert (Hfst : fst (CheckDisallowedWithOptions environ prefix' spec options')
                 = snd (gatherInfo prefix' spec options')).
  { unfold CheckDisallowedWithOptions.
    destruct (gatherInfo prefix' spec options') as [[infos|e] spec']; reflexivity. }
  split; [exact Hfst|]. rewrite Hfst. unfold ProcessWithOptions.
  rewrite gatherInfo_after. reflexivity.
Qed.

Lemma processAll_frame env options infos q (s : value) :
  Forall (fun info => diverge (pathOf (Field info)) q) infos ->
  load q (fst (processAll env infos options s)) = load q s.
Proof.
  intros Hall. revert s. induction Hall as [|info infos Hinfo _ IH]; intros s; [reflexivity|].
  cbn [processAll].
  pose proof (processInfo_frame env options info q s Hinfo) as Hf.
  destruct (processInfo env info options s) as [s' e]. cbn [fst] in Hf.
  specialize (IH s'). destruct (processAll env infos options s') as [s'' errs].
  cbn [fst] in *. congruence.
Qed.






End Again.

(** ** The cross-check *)

Section CrossCheck.
Implicit Types (options : Options) (prefix : string) (environ : list string).

Lemma checkEnviron_None vars prefix environ :
  checkEnviron vars prefix environ = None <-> Forall (allowed vars prefix) environ.
Proof.
  unfold allowed. induction environ as [|env environ IH]; cbn [checkEnviron].
  - split; [constructor|reflexivity].
  - destruct (HasPrefix env prefix) eqn:E; cbn [negb].
    + destruct (decide (SplitN2_0 env "=" ∈ vars)) as [Hin|Hout].
      * rewrite IH. split; [intros Hall; constructor; auto|].
        intros Hall. inversion Hall; assumption.
      * split; [discriminate|]. intros Hall. inversion Hall as [|? ? Hhd _]; subst.
        exfalso. apply Hout. apply Hhd. exact E.
    + rewrite IH. split.
      * intros Hall. constructor; [rewrite E; discriminate|exact Hall].
      * intros Hall. inversion Hall; assumption.
Qed.

Lemma checkEnviron_first vars prefix (before : list string) env after :
  Forall (allowed vars prefix) before ->
  HasPrefix env prefix = true ->
  SplitN2_0 env "=" ∉ vars ->
  checkEnviron vars prefix (before ++ env :: after)
  = Some (UnknownVariable (SplitN2_0 env "=")).
Proof.
  intros Hbefore Hprefix Hout. induction Hbefore as [|e before He _ IH].
  - cbn [app checkEnviron]. rewrite Hprefix. cbn [negb].
    destruct (decide _); [contradiction|reflexivity].
  - cbn [app checkEnviron]. unfold allowed in He.
    destruct (HasPrefix e prefix) eqn:E; cbn [negb]; [|exact IH].
    destruct (decide _) as [?|Hn]; [exact IH|]. exfalso. apply Hn. apply He. reflexivity.
Qed.

Lemma HasPrefix_empty (s : string) : HasPrefix s "" = true.
Proof. unfold HasPrefix. cbn. destruct (Str.bytes s); reflexivity. Qed.

(** X12.  After a discovery that succeeds, the cross-check looks at the
    entries of the environment that begin with the upper-cased prefix and
    an underscore (at every entry when the prefix is empty) and takes the
    name of an entry to be what is before its first '='.  It succeeds
    exactly when each such name is the key of a descriptor, and otherwise
    reports the name of the first entry that is not. *)
Theorem CheckDisallowedWithOptions_unknown environ prefix (spec : type * value) options
    (infos : list varInfo) (spec' : value) :
  gatherInfo prefix spec options = (Ok infos, spec') ->
  let filter := if nonEmpty prefix then (Str.ToUpper prefix ++ "_")%string else "" in
  let known env := HasPrefix env filter = true -> In (SplitN2_0 env "=") (map Key infos) in
  (snd (CheckDisallowedWithOptions environ prefix spec options) = None
   <-> forall env, In env environ -> known env)
  /\ (forall before env after,
        environ = before ++ env :: after ->
        (forall e, In e before -> known e) ->
        ~ known env ->
        snd (CheckDisallowedWithOptions environ prefix spec options)
        = Some (UnknownVariable (SplitN2_0 env "=")))
  /\ (prefix = "" -> forall env, known env <-> In (SplitN2_0 env "=") (map Key infos)).
Proof.
  intros Hgather filter known.
  assert (Hfilter : (if nonEmpty prefix then (Str.ToUpper prefix ++ "_")%string else prefix)
                    = filter).
  { subst filter. destruct (nonEmpty prefix) eqn:E; [reflexivity|].
    apply nonEmpty_false in E. exact E. }
  assert (Hknown : forall env,
             allowed (list_to_set (map Key infos)) filter env <-> known env).
  { intros env. unfold allowed. subst known. cbn beta.
    rewrite elem_of_list_to_set, list_elem_of_In. reflexivity. }
  unfold CheckDisallowedWithOptions. rewrite Hgather, Hfilter. cbn [snd].
  split; [|split].
  - rewrite checkEnviron_None, List.Forall_forall.
    split; intros Hall env Hin; apply Hknown, Hall, Hin.
  - intros before env after -> Hbefore Henv.
    apply checkEnviron_first.
    + apply List.Forall_forall. intros e He. apply Hknown, Hbefore, He.
    + destruct (HasPrefix env filter) eqn:E; [reflexivity|].
      exfalso. apply Henv. intros Hp. rewrite E in Hp. discriminate.
    + intros Hin. apply Henv. intros _.
      apply elem_of_list_to_set in Hin. apply list_elem_of_In. exact Hin.
  - intros -> env. subst known filter. cbn [nonEmpty String.eqb negb].
    rewrite HasPrefix_empty. tauto.
Qed.

End CrossCheck.

(** ** The two modes of [ProcessWithOptions] *)

Section Modes.
Context `{Parsers}.
Implicit Types (env : gmap string string) (options : Options) (p q : list step).

(** Two writes through handles that part ways can be made in either order:
    the structure is the same, and so is the error of each. *)
Lemma withField_commute p :
  forall q g h (s : value),
    diverge p q ->
    fst (withField p g (fst (withField q h s))) = fst (withField q h (fst (withField p g s)))
    /\ snd (withField p g (fst (withField q h s))) = snd (withField p g s)
    /\ snd (withField q h (fst (withField p g s))) = snd (withField q h s).
Proof.
  induction p as [|[i|] p IH]; intros [|[j|] q] g h s; cbn [diverge]; try tauto.
  - intros Hd. destruct s as [| | | | | | | |l|]; try (repeat split; reflexivity).
    destruct (decide (i = j)) as [<-|Hne].
    + destruct Hd as [Hd|Hd]; [congruence|].
      cbn [withField]. destruct (l !! i) as [f|] eqn:Ei.
      * destruct (IH q g h f Hd) as (H1 & H2 & H3).
        assert (Hlt : i < length l) by (eapply lookup_lt_Some; exact Ei).
        destruct (withField p g f) as [f1 e1] eqn:Ep.
        destruct (withField q h f) as [f2 e2] eqn:Eq.
        cbn [fst snd withField] in *.
        rewrite !list_lookup_insert_eq by assumption.
        destruct (withField p g f2) as [f21 e21].
        destruct (withField q h f1) as [f12 e12].
        cbn [fst snd] in *. subst.
        rewrite !list_insert_insert_eq. repeat split; reflexivity.
      * cbn [fst snd withField]. rewrite Ei. repeat split; reflexivity.
    + clear Hd. cbn [withField].
      destruct (l !! i) as [f|] eqn:Ei; destruct (l !! j) as [f'|] eqn:Ej.
      * destruct (withField p g f) as [f1 e1] eqn:Ep.
        destruct (withField q h f') as [f2 e2] eqn:Eq.
        cbn [fst snd withField].
        rewrite (list_lookup_insert_ne l j i) by congruence.
        rewrite (list_lookup_insert_ne l i j) by congruence.
        rewrite Ei, Ej, Ep, Eq. cbn [fst snd].
        repeat split; try reflexivity.
        f_equal. apply list_insert_insert_ne. congruence.
      * destruct (withField p g f) as [f1 e1] eqn:Ep.
        cbn [fst snd withField].
        rewrite (list_lookup_insert_ne l i j) by congruence.
        rewrite Ei, Ej, Ep. repeat split; reflexivity.
      * destruct (withField q h f') as [f2 e2] eqn:Eq.
        cbn [fst snd withField].
        rewrite (list_lookup_insert_ne l j i) by congruence.
        rewrite Ei, Ej, Eq. repeat split; reflexivity.
      * cbn [fst snd withField]. rewrite Ei, Ej. repeat split; reflexivity.
  - intros Hd. destruct s as [| | | | |[v|]| | | |]; try (repeat split; reflexivity).
    cbn [withField]. destruct (IH q g h v Hd) as (H1 & H2 & H3).
    destruct (withField p g v) as [v1 e1]. destruct (withField q h v) as [v2 e2].
    cbn [fst snd withField] in *.
    destruct (withField p g v2) as [v21 e21]. destruct (withField q h v1) as [v12 e12].
    cbn [fst snd] in *. subst. repeat split; reflexivity.
Qed.

Lemma coerceInto_fst info text (s : value) :
  fst (coerceInto info text s)
  = fst (withField (pathOf (Field info)) (processField (typeOf (Field info)) text) s).
Proof. unfold coerceInto. destruct (withField _ _ s). reflexivity. Qed.

Lemma coerceInto_snd info text (s : value) :
  snd (coerceInto info text s)
  = option_map (ParseError (Key info) (Name info)
                  (TypeString (infoOf (typeOf (Field info)))) text)
      (snd (withField (pathOf (Field info)) (processField (typeOf (Field info)) text) s)).
Proof. unfold coerceInto. destruct (withField _ _ s). reflexivity. Qed.

(** Two descriptors whose destinations part ways can be resolved in either
    order. *)
Lemma processInfo_commute env options (a b : varInfo) (s : value) :
  apart a b ->
  fst (processInfo env a options (fst (processInfo env b options s)))
  = fst (processInfo env b options (fst (processInfo env a options s)))
  /\ snd (processInfo env a options (fst (processInfo env b options s)))
     = snd (processInfo env a options s)
  /\ snd (processInfo env b options (fst (processInfo env a options s)))
     = snd (processInfo env b options s).
Proof.
  intros Hd.
  destruct (processInfo_cases env a options) as [(ea & _ & Ha)|(ta & Ha)];
    destruct (processInfo_cases env b options) as [(eb & _ & Hb)|(tb & Hb)];
    rewrite ?Ha, ?Hb; cbn [fst snd]; rewrite ?Ha, ?Hb; cbn [fst snd];
    try (repeat split; reflexivity).
  destruct (withField_commute (pathOf (Field a)) (pathOf (Field b))
              (processField (typeOf (Field a)) ta) (processField (typeOf (Field b)) tb) s Hd)
    as (H1 & H2 & H3).
  rewrite !coerceInto_snd, !coerceInto_fst, H1, H2, H3. repeat split; reflexivity.
Qed.

Lemma apart_sym (a b : varInfo) : apart a b -> apart b a.
Proof. apply diverge_sym. Qed.

Lemma ForallOrdPairs_Permutation (A : Type) (R : A -> A -> Prop) (l l' : list A) :
  (forall x y, R x y -> R y x) ->
  Permutation l l' -> ForallOrdPairs R l -> ForallOrdPairs R l'.
Proof.
  intros Hsym Hperm. induction Hperm as [|x l l' Hperm IH|x y l|l l' l'' _ IH1 _ IH2].
  - trivial.
  - intros Hall. inversion Hall as [|? ? Hx Hl]; subst. constructor; [|apply IH; exact Hl].
    eapply Permutation_Forall; eassumption.
  - intros Hall. inversion Hall as [|? ? Hy Hrest]; subst.
    inversion Hrest as [|? ? Hx Hl]; subst.
    inversion Hy as [|? ? Hyx Hyl]; subst.
    constructor; [constructor; [apply Hsym; exact Hyx|exact Hx]|].
    constructor; assumption.
  - intros Hall. apply IH2, IH1, Hall.
Qed.

Lemma processAll_cons env options info infos (s : value) :
  processAll env (info :: infos) options s
  = (fst (processAll env infos options (fst (processInfo env info options s))),
     collect (snd (processInfo env info options s))
       (snd (processAll env infos options (fst (processInfo env info options s))))).
Proof.
  cbn [processAll]. destruct (processInfo env info options s) as [s' e].
  cbn [fst snd]. destruct (processAll env infos options s') as [s'' errs].
  destruct e; reflexivity.
Qed.

(** X13.  In the parallel branch the order in which the descriptors are
    resolved, one after the other, does not matter: for every order the
    structure is the same at the end, and the errors are the same errors,
    in that order. *)
Theorem processAll_any_order env options (infos schedule : list varInfo) :
  Permutation infos schedule ->
  ForallOrdPairs apart infos ->
  forall s : value,
    fst (processAll env schedule options s) = fst (processAll env infos options s)
    /\ Permutation (snd (processAll env schedule options s))
         (snd (processAll env infos options s)).
Proof.
  intros Hperm.
  induction Hperm as [|x l l' Hperm IH|x y l|l l' l'' Hp1 IH1 Hp2 IH2]; intros Hall s.
  - split; reflexivity.
  - inversion Hall as [|? ? Hx Hl]; subst. rewrite !processAll_cons. cbn [fst snd].
    destruct (IH Hl (fst (processInfo env x options s))) as [Hs He].
    split; [exact Hs|]. destruct (snd (processInfo env x options s)); cbn [collect];
      [constructor|]; exact He.
  - inversion Hall as [|? ? Hy Hrest]; subst.
    inversion Hy as [|? ? Hyx _]; subst.
    rewrite !processAll_cons. cbn [fst snd].
    destruct (processInfo_commute env options y x s Hyx) as (H1 & H2 & H3).
    rewrite H1, H2, H3. split; [reflexivity|].
    destruct (snd (processInfo env x options s)), (snd (processInfo env y options s));
      cbn [collect]; try reflexivity. apply perm_swap.
  - assert (Hall' : ForallOrdPairs apart l')
      by (eapply ForallOrdPairs_Permutation; [exact apart_sym|exact Hp1|exact Hall]).
    destruct (IH1 Hall s) as [Hs1 He1]. destruct (IH2 Hall' s) as [Hs2 He2].
    split; [congruence|]. etransitivity; eassumption.
Qed.

Lemma gatherFields_ext g1 g2 fields (s : list value) (i : nat) :
  Forall (fun ft : StructField * type =>
            forall ftype f, g1 ftype (snd ft) f = g2 ftype (snd ft) f) fields ->
  gatherFields g1 fields s i = gatherFields g2 fields s i.
Proof.
  intros Hall. revert s i. induction Hall as [|[ftype typ] fields Hhd _ IH]; intros s i.
  - reflexivity.
  - destruct s as [|f s]; [reflexivity|]. cbn [gatherFields]. rewrite IH.
    specialize (Hhd ftype f). cbn [snd] in Hhd. rewrite Hhd. reflexivity.
Qed.

(** Discovery does not look at the mode. *)
Lemma gatherField_withParallel (b : bool) (typ : type) :
  forall options prefix ftype (f : value),
    gatherField (withParallel b options) prefix ftype typ f
    = gatherField options prefix ftype typ f.
Proof.
  induction typ as [info k|info elem IH|info elem _|info key elem _ _|info fields IH]
    using type_induction; intros options prefix ftype f; try reflexivity.
  - cbn [gatherField]. rewrite IH. reflexivity.
  - cbn [gatherField]. destruct (noCapability _); [|reflexivity].
    destruct f; try reflexivity.
    erewrite gatherFields_ext; [reflexivity|].
    eapply List.Forall_impl; [|exact IH]. intros [ftype' typ'] Htyp ftype0 f0.
    apply Htyp.
Qed.

Lemma gatherInfo_withParallel (b : bool) prefix (spec : type * value) options :
  gatherInfo prefix spec (withParallel b options) = gatherInfo prefix spec options.
Proof.
  unfold gatherInfo. destruct (shapeOf (fst spec)); try reflexivity.
  destruct (snd spec) as [| | | | |[[| | | | | | | |s|]|]| | | |]; try reflexivity.
  destruct (shapeOf elem); try reflexivity.
  erewrite gatherFields_ext; [reflexivity|].
  apply List.Forall_forall. intros [ftype typ] _ ftype0 f0. apply gatherField_withParallel.
Qed.

Lemma processEach_withParallel (b : bool) env options infos (s : value) :
  processEach env infos (withParallel b options) s = processEach env infos options s.
Proof.
  revert s. induction infos as [|info infos IH]; intros s; [reflexivity|].
  cbn [processEach].
  change (processInfo env info (withParallel b options) s)
    with (processInfo env info options s).
  destruct (processInfo env info options s) as [s' [e|]]; [reflexivity|apply IH].
Qed.

Lemma processAll_withParallel (b : bool) env options infos (s : value) :
  processAll env infos (withParallel b options) s = processAll env infos options s.
Proof.
  revert s. induction infos as [|info infos IH]; intros s; [reflexivity|].
  cbn [processAll].
  change (processInfo env info (withParallel b options) s)
    with (processInfo env info options s).
  destruct (processInfo env info options s) as [s' e]. rewrite IH. reflexivity.
Qed.

(** The sequential loop against the parallel branch, on the same
    descriptors. *)
Lemma processEach_processAll env options infos (s : value) :
  match processEach env infos options s with
  | (s', None) => processAll env infos options s = (s', [])
  | (_, Some err) => exists errs, snd (processAll env infos options s) = err :: errs
  end.
Proof.
  revert s. induction infos as [|info infos IH]; intros s; [reflexivity|].
  cbn [processEach processAll].
  destruct (processInfo env info options s) as [s' [e|]].
  - destruct (processAll env infos options s') as [s'' errs]. cbn [snd]. eauto.
  - specialize (IH s'). destruct (processEach env infos options s') as [s'' [e|]].
    + destruct IH as [errs Herrs].
      destruct (processAll env infos options s') as [sp errs']. cbn [snd] in *. eauto.
    + rewrite IH. reflexivity.
Qed.

(** Whatever the order: as for [processAll] in two orders of the same
    descriptors, none of which overlaps another. *)
Lemma processAll_Permutation env options (infos schedule : list varInfo) :
  Permutation infos schedule ->
  ForallOrdPairs apart infos ->
  forall s : value,
    fst (processAll env schedule options s) = fst (processAll env infos options s)
    /\ Permutation (snd (processAll env schedule options s))
         (snd (processAll env infos options s)).
Proof.
  intros Hperm.
  induction Hperm as [|x l l' Hperm IH|x y l|l l' l'' Hp1 IH1 Hp2 IH2]; intros Hall s.
  - split; reflexivity.
  - inversion Hall as [|? ? Hx Hl]; subst. rewrite !processAll_cons. cbn [fst snd].
    destruct (IH Hl (fst (processInfo env x options s))) as [Hs He].
    split; [exact Hs|]. destruct (snd (processInfo env x options s)); cbn [collect];
      [constructor|]; exact He.
  - inversion Hall as [|? ? Hy Hrest]; subst.
    inversion Hy as [|? ? Hyx _]; subst.
    rewrite !processAll_cons. cbn [fst snd].
    destruct (processInfo_commute env options y x s Hyx) as (H1 & H2 & H3).
    rewrite H1, H2, H3. split; [reflexivity|].
    destruct (snd (processInfo env x options s)), (snd (processInfo env y options s));
      cbn [collect]; try reflexivity. apply perm_swap.
  - assert (Hall' : ForallOrdPairs apart l')
      by (eapply ForallOrdPairs_Permutation; [exact apart_sym|exact Hp1|exact Hall]).
    destruct (IH1 Hall s) as [Hs1 He1]. destruct (IH2 Hall' s) as [Hs2 He2].
    split; [congruence|]. etransitivity; eassumption.
Qed.

(** X14.  The sequential mode and the parallel branch, the goroutines of
    which run one after the other in any order [schedule], on a structure
    that discovery accepts and in which no two pointers point to the same
    variable (structures are trees here, so that the fields of two
    descriptors never overlap): one succeeds exactly when the other does,
    and they leave the same structure then; when the sequential mode fails
    at a descriptor, its error is among those the parallel branch
    collects.  [ProcessWithOptions] is the parallel branch in the order of
    discovery. *)
Theorem ProcessWithOptions_modes env prefix (spec : type * value) options
    (infos schedule : list varInfo) (s0 : value) :
  gatherInfo prefix spec options = (Ok infos, VPtr (Some s0)) ->
  ForallOrdPairs apart infos ->
  Permutation infos schedule ->
  (snd (ProcessWithOptions env prefix spec (withParallel false options)) = None
   <-> snd (processAll env schedule (withParallel true options) s0) = [])
  /\ (snd (ProcessWithOptions env prefix spec (withParallel false options)) = None ->
      fst (ProcessWithOptions env prefix spec (withParallel false options))
      = VPtr (Some (fst (processAll env schedule (withParallel true options) s0))))
  /\ (forall err,
        snd (ProcessWithOptions env prefix spec (withParallel false options)) = Some err ->
        In err (snd (processAll env schedule (withParallel true options) s0)))
  /\ ProcessWithOptions env prefix spec (withParallel true options)
     = (VPtr (Some (fst (processAll env infos (withParallel true options) s0))),
        if (0 <? List.length (snd (processAll env infos (withParallel true options) s0)))%nat
        then Some (MultipleErrors (snd (processAll env infos (withParallel true options) s0)))
        else None).
Proof.
  intros Hgather Hapart Hperm.
  destruct (processAll_Permutation env options infos schedule Hperm Hapart s0) as [Hfst Hsnd].
  unfold ProcessWithOptions. rewrite !gatherInfo_withParallel, Hgather.
  cbn [ParallelExcecution withParallel].
  rewrite processEach_withParallel, !processAll_withParallel.
  pose proof (processEach_processAll env options infos s0) as Hrel.
  destruct (processEach env infos options s0) as [s1 [e|]]; cbn [fst snd].
  - destruct Hrel as [errs Herrs]. split; [|split; [|split]].
    + split; [discriminate|]. intros Hnil. rewrite Hnil in Hsnd.
      apply Permutation_nil in Hsnd. congruence.
    + discriminate.
    + intros err [= <-]. eapply Permutation_in; [symmetry; exact Hsnd|].
      rewrite Herrs. left. reflexivity.
    + destruct (processAll env infos options s0) as [sp errs']. reflexivity.
  - rewrite Hrel in *. cbn [fst snd] in *. split; [|split; [|split]].
    + split; [|reflexivity]. intros _. apply Permutation_sym, Permutation_nil in Hsnd.
      exact Hsnd.
    + intros _. rewrite Hfst. reflexivity.
    + discriminate.
    + reflexivity.
Qed.

Lemma processInfo_error env options info (s s' : value) (err : error) :
  processInfo env info options s = (s', Some err) -> resolutionError err.
Proof.
  destruct (processInfo_cases env info options) as [(e & He & Hrun)|(text & Hrun)];
    rewrite Hrun.
  - intros [= _ ->]. destruct He as [|[key Hkey]]; [discriminate|].
    injection Hkey as Hkey. left. eauto.
  - unfold coerceInto. destruct (withField _ _ s) as [s'' [e|]]; cbn [option_map];
      intros [= _ <-]. right. do 5 eexists. reflexivity.
Qed.

Lemma processAll_errors env options infos (s : value) :
  Forall resolutionError (snd (processAll env infos options s)).
Proof.
  revert s. induction infos as [|info infos IH]; intros s; [constructor|].
  cbn [processAll].
  destruct (processInfo env info options s) as [s' e] eqn:E.
  specialize (IH s'). destruct (processAll env infos options s') as [s'' errs].
  cbn [snd] in *. destruct e as [err|]; [|exact IH].
  constructor; [eapply processInfo_error; exact E|exact IH].
Qed.

Lemma processEach_error env options infos (s s' : value) (err : error) :
  processEach env infos options s = (s', Some err) -> resolutionError err.
Proof.
  revert s. induction infos as [|info infos IH]; intros s; [discriminate|].
  cbn [processEach]. destruct (processInfo env info options s) as [s1 [e|]] eqn:E.
  - intros [= <- <-]. eapply processInfo_error. exact E.
  - apply IH.
Qed.

(** X15.  The errors of [ProcessWithOptions]: the error of discovery, with
    the specification untouched; in sequential mode the error of one
    descriptor, which is a missing required value or a [ParseError]; in
    parallel mode [MultipleErrors] of at least one such error. *)
Theorem ProcessWithOptions_errors env prefix (spec : type * value) options
    (spec' : value) (err : error) :
  ProcessWithOptions env prefix spec options = (spec', Some err) ->
  (err = ErrInvalidSpecification /\ spec' = snd spec)
  \/ (ParallelExcecution options = false /\ resolutionError err)
  \/ (ParallelExcecution options = true
      /\ exists errs, err = MultipleErrors errs /\ errs <> []
                      /\ Forall resolutionError errs).
Proof.
  unfold ProcessWithOptions.
  assert (Hfail : forall e spec0, gatherInfo prefix spec options = (Err e, spec0) ->
                                  e = ErrInvalidSpecification /\ spec0 = snd spec).
  { unfold gatherInfo. intros e spec0. destruct (shapeOf (fst spec));
      try (intros [= <- <-]; auto).
    destruct (snd spec) as [| | | | |[[| | | | | | | |s|]|]| | | |];
      try (intros [= <- <-]; auto).
    destruct (shapeOf elem); try (intros [= <- <-]; auto).
    destruct (gatherFields _ _ _ _). discriminate. }
  destruct (gatherInfo prefix spec options) as [[infos|e] spec0] eqn:Eg.
  - destruct spec0 as [| | | | |[s|]| | | |]; try discriminate.
    destruct (ParallelExcecution options).
    + pose proof (processAll_errors env options infos s) as Herrs.
      destruct (processAll env infos options s) as [sp errs]. cbn [snd] in Herrs.
      destruct errs as [|e0 errs]; [discriminate|]. intros [= <- <-].
      right. right. split; [reflexivity|]. eexists. split; [reflexivity|].
      split; [discriminate|exact Herrs].
    + destruct (processEach env infos options s) as [s1 e] eqn:Ee. intros [= <- ->].
      right. left. split; [reflexivity|]. eapply processEach_error. exact Ee.
  - destruct (Hfail e spec0 eq_refl) as [-> ->]. intros [= <- <-]. left. auto.
Qed.

End Modes.


(** ** Names of one word *)

Section OneWord.

Lemma nextWord_word (u lower : list ascii) :
  Forall (fun a => inClass AZ a = true) u ->
  Forall (fun a => inClass NotAZ a = true) lower ->
  nextWord (u ++ lower) = (u ++ lower, []).
Proof.
  intros Hu Hlower.
  assert (Hspan : span NotAZ lower = (lower, [])).
  { pose proof (span_all NotAZ lower [] Hlower eq_refl) as Hs.
    rewrite app_nil_r in Hs. exact Hs. }
  destruct Hu as [|a u Ha Hu].
  - cbn [app]. destruct Hlower as [|c lower Hc Hlower]; [reflexivity|].
    unfold nextWord. cbn [inClass] in Hc. apply negb_true_iff in Hc. rewrite Hc.
    exact Hspan.
  - unfold nextWord. cbn [app]. cbn [inClass] in Ha. rewrite Ha.
    change (a :: u ++ lower) with ((a :: u) ++ lower).
    rewrite (span_all AZ (a :: u) lower)
      by (try (constructor; assumption); apply Forall_NotAZ_headIn; assumption).
    rewrite Hspan. reflexivity.
Qed.

Lemma length_ofBytes (l : list ascii) : String.length (Str.ofBytes l) = List.length l.
Proof. rewrite <- length_bytes, bytes_ofBytes. reflexivity. Qed.

(** X16.  A name that is one word, uppercase letters followed by other
    characters, is kept whole by word splitting unless it has two uppercase
    letters at least and something after them: then it is cut before the
    last uppercase letter, whatever follows (lowercase letters, digits,
    underscores). *)
Theorem splitWordsKey_one_word (u lower : list ascii) :
  Forall (fun a => inClass AZ a = true) u ->
  Forall (fun a => inClass NotAZ a = true) lower ->
  splitWordsKey (Str.ofBytes (u ++ lower))
  = if (2 <=? List.length u)%nat && (1 <=? List.length lower)%nat
    then (Str.ofBytes (List.removelast u) ++ "_"
          ++ Str.ofBytes (List.last u "A"%char :: lower))%string
    else Str.ofBytes (u ++ lower).
Proof.
  intros Hu Hlower. rewrite splitWordsKey_segmentsOf. unfold segmentsOf.
  rewrite bytes_ofBytes, length_ofBytes.
  destruct (u ++ lower) as [|a l] eqn:E.
  - apply app_eq_nil in E as [-> ->]. reflexivity.
  - cbn [List.length wordsOf]. rewrite <- E, (nextWord_word u lower Hu Hlower).
    assert (Hnil : forall n, wordsOf n [] = []) by (intros [|n]; reflexivity).
    rewrite Hnil. cbn [flat_map]. rewrite app_nil_r. unfold splitAcronym.
    rewrite (span_all AZ u lower Hu (Forall_NotAZ_headIn _ Hlower)).
    destruct (_ && _); reflexivity.
Qed.

End OneWord.

(** ** What [ProcessWithOptions] leaves in the fields *)

Section Populated.
Context `{Parsers}.
Implicit Types (env : gmap string string) (options : Options) (p q : list step).

Lemma processInfo_textFor env info options (s : value) :
  processInfo env info options s
  = match textFor env info with
    | Some text => coerceInto info text s
    | None =>
        (s, if requiredByPolicy info options
            then Some (RequiredValueMissing
                         (if nonEmpty (Alt info) then Alt info else Key info))
            else None)
    end.
Proof.
  unfold textFor. destruct (env !! Key info) as [text|] eqn:Ekey.
  - apply processInfo_found. exact Ekey.
  - assert (Hcase : (exists text, Alt info <> "" /\ env !! Alt info = Some text)
                    \/ unset env info).
    { destruct (nonEmpty (Alt info)) eqn:Ealt.
      - destruct (env !! Alt info) as [text|] eqn:Efound.
        + left. exists text. split; [apply nonEmpty_true; exact Ealt|reflexivity].
        + right. split; auto.
      - right. split; [exact Ekey|left; apply nonEmpty_false; exact Ealt]. }
    destruct Hcase as [(text & Halt & Hfound)|Hunset].
    + apply nonEmpty_true in Halt as Hne. rewrite Hne, Hfound.
      apply processInfo_found_alt; assumption.
    + assert (Hnone : (if nonEmpty (Alt info) then env !! Alt info else None) = None).
      { destruct Hunset as [_ [Halt|Halt]].
        - apply nonEmpty_false in Halt. rewrite Halt. reflexivity.
        - rewrite Halt. destruct (nonEmpty (Alt info)); reflexivity. }
      rewrite Hnone.
      destruct (nonEmpty (Get (Tags info) "default")) eqn:Edef.
      * apply processInfo_unset_default; [exact Hunset|apply nonEmpty_true; exact Edef].
      * rewrite processInfo_unset_no_default
          by (try exact Hunset; apply nonEmpty_false; exact Edef).
        destruct (requiredByPolicy info options); reflexivity.
Qed.

(** What is read through a handle after a write through it. *)
Lemma withField_load p g (s v : value) :
  load p s = Some v -> load p (fst (withField p g s)) = Some (fst (g v)).
Proof.
  revert s. induction p as [|[i|] p IH]; intros s.
  - cbn. intros [= ->]. reflexivity.
  - destruct s as [| | | | | | | |l|]; try discriminate. cbn [load withField].
    destruct (l !! i) as [f|] eqn:Ei; [|discriminate]. cbn. intros Hf.
    specialize (IH f Hf). destruct (withField p g f) as [f' e]. cbn [fst load] in *.
    rewrite list_lookup_insert_eq by (eapply lookup_lt_Some; exact Ei). exact IH.
  - destruct s as [| | | | |[s|]| | | |]; try discriminate. cbn [load withField].
    intros Hs. specialize (IH s Hs). destruct (withField p g s) as [s' e]. exact IH.
Qed.

Lemma processInfo_load env options info (s v : value) :
  load (pathOf (Field info)) s = Some v ->
  load (pathOf (Field info)) (fst (processInfo env info options s))
  = Some (resolved env info v).
Proof.
  intros Hv. rewrite processInfo_textFor. unfold resolved.
  destruct (textFor env info) as [text|]; [|exact Hv].
  rewrite coerceInto_fst. apply withField_load. exact Hv.
Qed.

Lemma processAll_load env options infos (s : value) :
  ForallOrdPairs apart infos ->
  forall info v, In info infos ->
    load (pathOf (Field info)) s = Some v ->
    load (pathOf (Field info)) (fst (processAll env infos options s))
    = Some (resolved env info v).
Proof.
  intros Hall. revert s. induction Hall as [|x infos Hx Hall IH]; intros s info v; [intros []|].
  rewrite processAll_cons. cbn [fst]. intros [->|Hin] Hv.
  - rewrite processAll_frame.
    + apply processInfo_load. exact Hv.
    + eapply List.Forall_impl; [|exact Hx]. intros y Hy. apply diverge_sym. exact Hy.
  - apply IH; [exact Hin|]. rewrite processInfo_frame; [exact Hv|].
    eapply List.Forall_forall in Hx; [exact Hx|exact Hin].
Qed.

Lemma processEach_load env options infos (s sf : value) :
  ForallOrdPairs apart infos ->
  processEach env infos options s = (sf, None) ->
  forall info v, In info infos ->
    load (pathOf (Field info)) s = Some v ->
    load (pathOf (Field info)) sf = Some (resolved env info v).
Proof.
  intros Hall Hrun.
  pose proof (processEach_processAll env options infos s) as Hrel. rewrite Hrun in Hrel.
  intros info v Hin Hv. pose proof (processAll_load env options infos s Hall info v Hin Hv) as Hl.
  rewrite Hrel in Hl. exact Hl.
Qed.

(** X17.  For a structure in which no two pointers point to the same
    variable (structures are trees here, so that the fields of two
    descriptors never overlap): after [ProcessWithOptions], in parallel
    mode or when the sequential mode succeeded, every descriptor's field
    holds the coercion of the text found for it (the value of its key, else
    of its alternate key, else its default) into what it held when
    discovery ended, or just that when no text was found; and whatever no
    descriptor is for holds what it held when discovery ended.  In parallel
    mode the structure is the same in whatever order [schedule] the
    goroutines run, one after the other. *)
Theorem ProcessWithOptions_populates env prefix (spec : type * value) options
    (infos : list varInfo) (s0 sf : value) (err : option error) :
  gatherInfo prefix spec options = (Ok infos, VPtr (Some s0)) ->
  ForallOrdPairs apart infos ->
  ProcessWithOptions env prefix spec options = (VPtr (Some sf), err) ->
  ParallelExcecution options = true \/ err = None ->
  (forall info, In info infos ->
     exists v, load (pathOf (Field info)) s0 = Some v
               /\ load (pathOf (Field info)) sf = Some (resolved env info v))
  /\ (forall q, (forall info, In info infos -> diverge (pathOf (Field info)) q) ->
        load q sf = load q s0)
  /\ (ParallelExcecution options = true ->
      forall schedule, Permutation infos schedule ->
        fst (processAll env schedule options s0) = sf).
Proof.
  intros Hgather Hapart Hrun Hmode.
  pose proof (gatherInfo_load _ _ _ _ _ Hgather) as Hload.
  unfold ProcessWithOptions in Hrun. rewrite Hgather in Hrun.
  destruct (ParallelExcecution options) eqn:Epar.
  - destruct (processAll env infos options s0) as [sp errs] eqn:Eall.
    injection Hrun as <- _. split; [|split].
    + intros info Hin. eapply List.Forall_forall in Hload as [v Hv]; [|exact Hin].
      exists v. split; [exact Hv|].
      pose proof (processAll_load env options infos s0 Hapart info v Hin Hv) as Hl.
      rewrite Eall in Hl. exact Hl.
    + intros q Hq. pose proof (processAll_frame env options infos q s0) as Hf.
      rewrite Eall in Hf. apply Hf. apply List.Forall_forall. exact Hq.
    + intros _ schedule Hperm.
      destruct (processAll_Permutation env options infos schedule Hperm Hapart s0) as [Hfst _].
      rewrite Hfst, Eall. reflexivity.
  - destruct Hmode as [Hm|Hm]; [discriminate|subst err].
    destruct (processEach env infos options s0) as [s1 e] eqn:Eeach.
    injection Hrun as <- ->. split; [|split].
    + intros info Hin. eapply List.Forall_forall in Hload as [v Hv]; [|exact Hin].
      exists v. split; [exact Hv|].
      eapply processEach_load; eassumption.
    + intros q Hq. pose proof (processEach_frame env options infos q s0) as Hf.
      rewrite Eeach in Hf. apply Hf. apply List.Forall_forall. exact Hq.
    + discriminate.
Qed.

End Populated.

(** ** What the built-in coercion does with what the field held *)

Section Replaced.
Context `{Parsers}.

(** The switch either leaves the field or replaces it by a value that the
    text alone decides; which of the two, and the error, do not depend on
    what the field held. *)
Lemma switchKind_form (f : type -> string -> value -> value * option error)
    (typ : type) (text : string) :
  exists (r : option value) (e : option error),
    (forall field, switchKind f typ text field = (default field r, e))
    /\ (e <> None -> r = None)
    /\ (coercibleKind (KindOf typ) = true -> KindOf typ <> Ptr -> e = None -> r <> None).
Proof.
  destruct typ as [info sh]. unfold switchKind, KindOf. cbn [shapeOf].
  destruct sh as [k|elem|elem|key elem|fields]; [destruct k|..].
  all: try match goal with
            | |- context [if ?c then ParseDuration ?t else ?p] =>
                destruct (if c then ParseDuration t else p)
            end.
  all: try destruct (Str.ParseBool text).
  all: try destruct (ParseInt text 0 _).
  all: try destruct (ParseUint text 0 _).
  all: try destruct (ParseFloat text _).
  all: try destruct (Kind_eqb _ Uint8).
  all: try destruct (negb _).
  all: try destruct (processElems _ _ _).
  all: try destruct (processPairs _ _ _ _ _ _).
  all: first
         [ solve [eexists (Some _); exists None;
                  split; [intros; reflexivity|split; congruence]]
         | solve [exists None; eexists;
                  split; [intros; reflexivity|split; [reflexivity|congruence]]]
         | solve [exists None, None;
                  split; [intros; reflexivity|split; [reflexivity|intros; discriminate]]]
         | solve [exists None, None;
                  split; [intros; reflexivity|split; [reflexivity|congruence]]] ].
Qed.

Lemma switchKind_again (f : type -> string -> value -> value * option error)
    (typ : type) (text : string) (field : value) :
  switchKind f typ text (fst (switchKind f typ text field)) = switchKind f typ text field.
Proof.
  destruct (switchKind_form f typ text) as (r & e & Hform & _).
  rewrite !Hform. destruct r; reflexivity.
Qed.

(** X18.  A built-in coercion replaces, it does not add: when it succeeds
    into a text, a number, a boolean, a sequence or a mapping, the result
    is the same whatever the field held (a mapping or a sequence that was
    filled before is not merged with).  And coercing the same text a second
    time, into a pointer too, changes nothing and gives the same error. *)
Theorem processField_replaces (typ : type) (text : string) :
  noCapability typ = true ->
  (coercibleKind (KindOf typ) = true -> KindOf typ <> Ptr ->
   forall field x, processField typ text field = (x, None) ->
     forall field', processField typ text field' = (x, None))
  /\ (forall field,
        processField typ text (fst (processField typ text field))
        = processField typ text field).
Proof.
  intros Hcap. split.
  - intros Hkind Hptr field x Hx field'.
    rewrite processField_builtin in * by assumption.
    unfold builtinCoercion in *.
    destruct (shapeOf typ) as [k|elem|elem|key elem|fields] eqn:Eshape;
      try (unfold KindOf in Hptr; rewrite Eshape in Hptr; congruence).
    all: destruct (switchKind_form processField typ text) as (r & e & Hform & _ & Hsome).
    all: rewrite Hform in *; injection Hx as Hx He.
    all: specialize (Hsome Hkind Hptr He); destruct r as [y|]; [|congruence].
    all: cbn in *; congruence.
  - intros field. rewrite !processField_builtin by assumption.
    unfold builtinCoercion.
    destruct (shapeOf typ) as [k|elem|elem|key elem|fields] eqn:Eshape;
      try apply switchKind_again.
    destruct (switchKind_form processField elem text) as (r & e & Hform & _).
    rewrite !Hform. cbn [fst]. rewrite ?Hform. destruct r; reflexivity.
Qed.

End Replaced.

(** * The theorems at concrete structures *)

#[local] Existing Instance Examples.noNumbers.

(** C10 at a complex number, and at a structure met as the element of a
    sequence. *)
Lemma processField_unsupported_kind_witness :
  processField Examples.tComplex "1+2i" (VOther 7) = (VOther 7, None) /\
  processField (Examples.plain (StructOf [(Examples.field "A" [], Examples.tString)]) "T")
    "text" (VStruct [VString "kept"]) = (VStruct [VString "kept"], None).
Proof.
  split.
  - apply processField_unsupported_kind; reflexivity.
  - apply processField_unsupported_kind; reflexivity.
Defined.

(** C1 at a mapping from text to text. *)
Lemma processField_mapping_witness :
  processField Examples.tMapStringString "a:1,b:2" (VMap None)
  = mapCoercionBy atOnlyColon Examples.tString Examples.tString "a:1,b:2" (VMap None)
  /\ processField Examples.tMapStringString "a:1,b:2" (VMap None)
     = (VMap (Some [(VString "a", VString "1"); (VString "b", VString "2")]), None).
Proof.
  split; [|reflexivity].
  apply (processField_mapping Examples.tMapStringString Examples.tString Examples.tString
           "a:1,b:2" (VMap None)); reflexivity.
Defined.

(** C1 as stated fails at "a:b:c": cut at the first ':' the pair would be
    the entry a -> "b:c", but the code refuses a pair with two ':'. *)
Lemma processField_mapping_first_colon_counterexample :
  processField Examples.tMapStringString "a:b:c" (VMap None)
  = (VMap None, Some (InvalidMapEntry "a:b:c"))
  /\ mapCoercionBy atFirstColon Examples.tString Examples.tString "a:b:c" (VMap None)
     = (VMap (Some [(VString "a", VString "b:c")]), None)
  /\ processField Examples.tMapStringString "a:b:c" (VMap None)
     <> mapCoercionBy atFirstColon Examples.tString Examples.tString "a:b:c" (VMap None).
Proof.
  split; [reflexivity|]. split; [reflexivity|]. discriminate.
Qed.

(** C2 at the field [Inner *Inner] of [Holder], under the prefix APP. *)
Lemma gatherField_nested_structure_witness :
  gatherInfo "APP_INNER" (Examples.tInnerPtr, VPtr (Some (VStruct [VString "h"])))
    Examples.defaults
  = (Ok (fst (gatherField Examples.defaults "APP" (Examples.field "Inner" [])
                Examples.tInner (VStruct [VString "h"]))),
     VPtr (Some (snd (gatherField Examples.defaults "APP" (Examples.field "Inner" [])
                        Examples.tInner (VStruct [VString "h"])))))
  /\ map Key (fst (gatherField Examples.defaults "APP" (Examples.field "Inner" [])
                     Examples.tInner (VStruct [VString "h"]))) = ["APP_INNER_HOST"].
Proof.
  split; [|reflexivity].
  apply (gatherField_nested_structure Examples.defaults "APP" (Examples.field "Inner" [])
           Examples.tInner [(Examples.field "Host" [], Examples.tString)] [VString "h"]);
    reflexivity.
Defined.

(** C3 at a required text field, with and without an alternate key. *)
Lemma processInfo_required_witness :
  processInfo ∅ (Examples.textInfo "Host" [("required", "true")] Examples.defaults)
    Examples.defaults (VStruct [VString "h"])
  = (VStruct [VString "h"], Some (RequiredValueMissing "HOST"))
  /\ processInfo ∅
       (Examples.textInfo "Host" [("envconfig", "service_host"); ("required", "true")]
          Examples.defaults)
       Examples.defaults (VStruct [VString "h"])
     = (VStruct [VString "h"], Some (RequiredValueMissing "SERVICE_HOST")).
Proof.
  split.
  - apply (processInfo_required ∅ (Examples.textInfo "Host" [("required", "true")]
                                     Examples.defaults) Examples.defaults).
    + split; [reflexivity|left; reflexivity].
    + reflexivity.
  - apply (processInfo_required ∅
             (Examples.textInfo "Host" [("envconfig", "service_host"); ("required", "true")]
                Examples.defaults) Examples.defaults).
    + split; [reflexivity|right; reflexivity].
    + reflexivity.
Defined.

(** C8 at a required text field with a default. *)
Lemma processInfo_default_witness :
  processInfo ∅
    (Examples.textInfo "Host" [("default", "localhost"); ("required", "true")]
       Examples.defaults)
    Examples.defaults (VStruct [VString ""])
  = (VStruct [VString "localhost"], None).
Proof.
  apply (processInfo_default ∅
           (Examples.textInfo "Host" [("default", "localhost"); ("required", "true")]
              Examples.defaults) Examples.defaults (VStruct [VString ""]) "localhost").
  - split; [reflexivity|left; reflexivity].
  - reflexivity.
  - discriminate.
Defined.



(** C6 at a zero [Holder]: the nil pointer to [Inner] is allocated. *)
Lemma ProcessWithOptions_unbound_witness :
  ProcessWithOptions ∅ "" (Examples.tHolderPtr, VPtr (Some (VStruct [VPtr None; VString ""])))
    Examples.defaults
  = (VPtr (Some (VStruct [VPtr (Some (VStruct [VString ""])); VString ""])), None).
Proof.
  destruct (ProcessWithOptions_unbound ∅ "" Examples.defaults (infoOf Examples.tHolderPtr)
              Examples.tHolder
              [(Examples.field "Inner" [], Examples.tInnerPtr);
               (Examples.field "Name" [], Examples.tString)]
              [VPtr None; VString ""]) as (_ & Hrun & _).
  - reflexivity.
  - apply (Hrun Samples.holderInfos).
    + reflexivity.
    + repeat constructor.
Defined.

(** C6 as stated fails at a zero [Holder] and the empty environment: both
    fields are optional and nothing is set, yet the field [Inner] is not
    nil afterwards. *)
Lemma ProcessWithOptions_zero_value_counterexample :
  (exists infos,
     fst (gatherInfo "" (Examples.tHolderPtr, VPtr (Some (Zero Examples.tHolder)))
            Examples.defaults) = Ok infos
     /\ Forall (unbound ∅ Examples.defaults) infos)
  /\ Process ∅ "" (Examples.tHolderPtr, VPtr (Some (Zero Examples.tHolder)))
     = (VPtr (Some (VStruct [VPtr (Some (VStruct [VString ""])); VString ""])), None)
  /\ fst (Process ∅ "" (Examples.tHolderPtr, VPtr (Some (Zero Examples.tHolder))))
     <> VPtr (Some (Zero Examples.tHolder)).
Proof.
  split; [|split].
  - eexists. split; [reflexivity|]. repeat constructor.
  - reflexivity.
  - discriminate.
Qed.

(** C7 at a [Server] whose name and host are set and whose required port is
    not: the name is populated, the port fails, the host is not looked at. *)
Lemma ProcessWithOptions_fail_fast_witness :
  ProcessWithOptions {[ "NAME" := "web"; "HOST" := "example.org" ]} ""
    (Examples.tServerPtr, VPtr (Some (VStruct [VString ""; VString ""; VString "old"])))
    Examples.defaults
  = (VPtr (Some (VStruct [VString "web"; VString ""; VString "old"])),
     Some (RequiredValueMissing "PORT")).
Proof.
  eapply (ProcessWithOptions_fail_fast {[ "NAME" := "web"; "HOST" := "example.org" ]} ""
            Examples.defaults (infoOf Examples.tServerPtr) Examples.tServer
            [(Examples.field "Name" [], Examples.tString);
             (Examples.field "Port" [("required", "true")], Examples.tString);
             (Examples.field "Host" [], Examples.tString)]
            [VString ""; VString ""; VString "old"]
            [Examples.textAt 0 "Name" []; Examples.textAt 1 "Port" [("required", "true")];
             Examples.textAt 2 "Host" []]
            [Examples.textAt 0 "Name" []] [Examples.textAt 2 "Host" []]
            (Examples.textAt 1 "Port" [("required", "true")])
            (VStruct [VString "web"; VString ""; VString "old"])
            (VStruct [VString "web"; VString ""; VString "old"])
            (RequiredValueMissing "PORT")).
  - reflexivity.
  - reflexivity.
  - reflexivity.
  - repeat first [apply FOP_nil | apply FOP_cons | apply List.Forall_nil
                 | apply List.Forall_cons | (left; discriminate)].
  - reflexivity.
  - vm_compute. reflexivity.
  - vm_compute. reflexivity.
Defined.

(** C7 as stated fails at a structure whose first field is required and
    not set and whose second field is a nil pointer to [Inner], with the
    empty environment: the first descriptor fails, and the field after it
    does not hold its prior value, nil, but a new [Inner]. *)
Lemma ProcessWithOptions_fail_fast_prior_counterexample :
  fst (gatherInfo "" (Samples.tStrictPtr, VPtr (Some (VStruct [VString ""; VPtr None])))
         Examples.defaults)
  = Ok [Samples.textWith "Port" "PORT" [Fld 0] [("required", "true")];
        Samples.textWith "Host" "INNER_HOST" [Fld 1; Elem; Fld 0] []]
  /\ ProcessWithOptions ∅ ""
       (Samples.tStrictPtr, VPtr (Some (VStruct [VString ""; VPtr None]))) Examples.defaults
     = (VPtr (Some (VStruct [VString ""; VPtr (Some (VStruct [VString ""]))])),
        Some (RequiredValueMissing "PORT"))
  /\ load [Fld 1] (VStruct [VString ""; VPtr (Some (VStruct [VString ""]))])
     <> load [Fld 1] (VStruct [VString ""; VPtr None]).
Proof.
  split; [reflexivity|]. split; [reflexivity|]. discriminate.
Qed.

(** C4 at the field [HTTPServer] with the tag split_words:"true", under
    the prefix app. *)
Lemma deriveKey_split_words_witness :
  deriveKey Examples.defaults "app" (Examples.field "HTTPServer" [("split_words", "true")])
  = "APP_HTTP_SERVER".
Proof.
  apply (proj1 (proj2 deriveKey_split_words) Examples.defaults "app"
           (Examples.field "HTTPServer" [("split_words", "true")])); reflexivity.
Defined.

(** ** More properties, at concrete structures *)

(** A number that does not parse leaves an integer as it was, and leaves a
    nil pointer to an integer pointing to zero. *)
Lemma processField_failure_witness :
  fst (processField Examples.tInt "x" (VInt 5)) = VInt 5
  /\ fst (processField Samples.tIntPtr "x" (VPtr None)) = VPtr (Some (VInt 0)).
Proof.
  split.
  - apply (processField_failure Examples.tInt "x" (VInt 5)
             (NumError "ParseInt" "x" "invalid syntax")).
    + reflexivity.
    + reflexivity.
    + discriminate.
  - destruct (processField_failure Samples.tIntPtr "x" (VPtr None)
                (NumError "ParseInt" "x" "invalid syntax")) as [_ Hptr].
    + reflexivity.
    + reflexivity.
    + apply (Hptr Examples.tInt). reflexivity.
Defined.

(** A nil pointer to a text. *)
Lemma processField_pointer_witness :
  processField Samples.tStringPtr "web" (VPtr None) = (VPtr (Some (VString "web")), None).
Proof.
  apply (processField_pointer Samples.tStringPtr Examples.tString "web" (VPtr None)).
  - reflexivity.
  - reflexivity.
  - reflexivity.
  - discriminate.
Defined.

(** A sequence of texts from a value with an empty piece and a space. *)
Lemma processField_text_sequence_witness :
  processField Examples.tSliceString "a,, b" (VSlice None)
  = (VSlice (Some [VString "a"; VString ""; VString " b"]), None)
  /\ Str.Join (Str.Split "a,, b" ",") "," = "a,, b".
Proof.
  destruct (processField_text_sequence Examples.tSliceString Examples.tString "a,, b"
              (VSlice None)) as (Hvalue & Hjoin & _).
  - reflexivity.
  - reflexivity.
  - discriminate.
  - split; [|exact Hjoin]. apply Hvalue; reflexivity.
Defined.

(** A mapping from a value that names the key [a] twice: one entry. *)
Lemma processField_mapping_distinct_witness :
  distinctKeys [(VString "a", VString "2")]
  /\ List.length [(VString "a", VString "2")] <= List.length (Str.Split "a:1,a:2" ",").
Proof.
  apply (processField_mapping_distinct Examples.tMapStringString Examples.tString
           Examples.tString "a:1,a:2" (VMap None) [(VString "a", VString "2")]).
  - reflexivity.
  - reflexivity.
  - reflexivity.
Defined.

(** The destinations in a zero [Holder]. *)
Lemma gatherInfo_destinations_witness :
  ForallOrdPairs apart Samples.holderInfos
  /\ Forall (fun info => exists v,
               load (pathOf (Field info))
                 (VStruct [VPtr (Some (VStruct [VString ""])); VString ""]) = Some v
               /\ leaf (typeOf (Field info)) v)
       Samples.holderInfos.
Proof.
  apply (gatherInfo_destinations ""
           (Examples.tHolderPtr, VPtr (Some (VStruct [VPtr None; VString ""])))
           Examples.defaults).
  reflexivity.
Defined.

(** The keys of [Server] under the prefix app. *)
Lemma gatherInfo_keys_witness :
  Forall (fun info =>
            Str.ToUpper (Key info) = Key info
            /\ Str.ToUpper (Alt info) = Alt info
            /\ ("app" <> "" -> HasPrefix (Key info) (Str.ToUpper "app" ++ "_") = true))
    Samples.appServerInfos
  /\ Forall (fun info => isASCII (Key info) = true /\ isASCII (Alt info) = true)
       Samples.appServerInfos.
Proof.
  apply (gatherInfo_keys "app"
           (Examples.tServerPtr, VPtr (Some (VStruct [VString ""; VString ""; VString "old"])))
           Examples.defaults Samples.appServerInfos
           (VPtr (Some (VStruct [VString ""; VString ""; VString "old"])))).
  - reflexivity.
  - reflexivity.
  - reflexivity.
Defined.

(** Discovery again on the [Holder] that discovery has left. *)
Lemma gatherInfo_idempotent_witness :
  gatherInfo ""
    (Examples.tHolderPtr, VPtr (Some (VStruct [VPtr (Some (VStruct [VString ""])); VString ""])))
    Examples.defaults
  = (Ok Samples.holderInfos,
     VPtr (Some (VStruct [VPtr (Some (VStruct [VString ""])); VString ""]))).
Proof.
  apply (gatherInfo_idempotent ""
           (Examples.tHolderPtr, VPtr (Some (VStruct [VPtr None; VString ""])))
           Examples.defaults Samples.holderInfos).
  reflexivity.
Defined.


(** The cross-check of [Server] under the prefix app: the entry HOME is not
    looked at, APP_PORTT is the first unknown name. *)
Lemma CheckDisallowedWithOptions_unknown_witness :
  snd (CheckDisallowedWithOptions
         ["APP_NAME=web"; "HOME=/root"; "APP_PORTT=80"; "APP_ZZZ=1"] "app"
         (Examples.tServerPtr, VPtr (Some (VStruct [VString ""; VString ""; VString "old"])))
         Examples.defaults)
  = Some (UnknownVariable "APP_PORTT").
Proof.
  pose proof (CheckDisallowedWithOptions_unknown
                ["APP_NAME=web"; "HOME=/root"; "APP_PORTT=80"; "APP_ZZZ=1"] "app"
                (Examples.tServerPtr,
                 VPtr (Some (VStruct [VString ""; VString ""; VString "old"])))
                Examples.defaults Samples.appServerInfos
                (VPtr (Some (VStruct [VString ""; VString ""; VString "old"])))
                eq_refl) as Hcheck.
  cbv zeta in Hcheck. destruct Hcheck as (_ & Hfirst & _).
  apply (Hfirst ["APP_NAME=web"; "HOME=/root"] "APP_PORTT=80" ["APP_ZZZ=1"]).
  - reflexivity.
  - intros e [<-|[<-|[]]].
    + intros _. left. reflexivity.
    + intros Hp. vm_compute in Hp. discriminate.
  - intros Hk. specialize (Hk eq_refl). vm_compute in Hk.
    destruct Hk as [Hk|[Hk|[Hk|[]]]]; discriminate.
Defined.

(** The descriptors of [Server], the first two taken in the other order. *)
Lemma processAll_any_order_witness :
  fst (processAll {[ "NAME" := "web" ]}
         [Examples.textAt 1 "Port" [("required", "true")]; Examples.textAt 0 "Name" [];
          Examples.textAt 2 "Host" []]
         Samples.parallel (VStruct [VString ""; VString ""; VString "old"]))
  = fst (processAll {[ "NAME" := "web" ]} Samples.serverInfos Samples.parallel
           (VStruct [VString ""; VString ""; VString "old"]))
  /\ Permutation
       (snd (processAll {[ "NAME" := "web" ]}
               [Examples.textAt 1 "Port" [("required", "true")]; Examples.textAt 0 "Name" [];
                Examples.textAt 2 "Host" []]
               Samples.parallel (VStruct [VString ""; VString ""; VString "old"])))
       (snd (processAll {[ "NAME" := "web" ]} Samples.serverInfos Samples.parallel
               (VStruct [VString ""; VString ""; VString "old"]))).
Proof.
  apply (processAll_any_order {[ "NAME" := "web" ]} Samples.parallel Samples.serverInfos).
  - apply perm_swap.
  - repeat first [apply FOP_nil | apply FOP_cons | apply List.Forall_nil
                 | apply List.Forall_cons | (left; discriminate)].
Defined.

(** The error of a [Server] whose required port is not set. *)
Lemma ProcessWithOptions_errors_witness :
  (RequiredValueMissing "PORT" = ErrInvalidSpecification
   /\ VPtr (Some (VStruct [VString "web"; VString ""; VString "old"]))
      = VPtr (Some (VStruct [VString ""; VString ""; VString "old"])))
  \/ (ParallelExcecution Examples.defaults = false
      /\ resolutionError (RequiredValueMissing "PORT"))
  \/ (ParallelExcecution Examples.defaults = true
      /\ exists errs, RequiredValueMissing "PORT" = MultipleErrors errs /\ errs <> []
                      /\ Forall resolutionError errs).
Proof.
  apply (ProcessWithOptions_errors {[ "NAME" := "web"; "HOST" := "example.org" ]} ""
           (Examples.tServerPtr, VPtr (Some (VStruct [VString ""; VString ""; VString "old"])))
           Examples.defaults
           (VPtr (Some (VStruct [VString "web"; VString ""; VString "old"])))
           (RequiredValueMissing "PORT")).
  vm_compute. reflexivity.
Defined.

(** The name HTTPServer. *)
Lemma splitWordsKey_one_word_witness :
  splitWordsKey "HTTPServer" = "HTTP_Server".
Proof.
  apply (splitWordsKey_one_word
           ["H"; "T"; "T"; "P"; "S"]%char ["e"; "r"; "v"; "e"; "r"]%char).
  - repeat constructor.
  - repeat constructor.
Defined.

(** A [Server] whose three keys are set: the field of the port. *)
Lemma ProcessWithOptions_populates_witness :
  exists v,
    load [Fld 1] (VStruct [VString ""; VString ""; VString "old"]) = Some v
    /\ load [Fld 1] (VStruct [VString "web"; VString "80"; VString "example.org"])
       = Some (resolved {[ "NAME" := "web"; "PORT" := "80"; "HOST" := "example.org" ]}
                 (Examples.textAt 1 "Port" [("required", "true")]) v).
Proof.
  destruct (ProcessWithOptions_populates
              {[ "NAME" := "web"; "PORT" := "80"; "HOST" := "example.org" ]} ""
              (Examples.tServerPtr,
               VPtr (Some (VStruct [VString ""; VString ""; VString "old"])))
              Examples.defaults Samples.serverInfos
              (VStruct [VString ""; VString ""; VString "old"])
              (VStruct [VString "web"; VString "80"; VString "example.org"]) None)
    as (Hfields & _ & _).
  - reflexivity.
  - repeat first [apply FOP_nil | apply FOP_cons | apply List.Forall_nil
                 | apply List.Forall_cons | (left; discriminate)].
  - vm_compute. reflexivity.
  - right. reflexivity.
  - apply (Hfields (Examples.textAt 1 "Port" [("required", "true")])).
    right. left. reflexivity.
Defined.

(** A [Server] whose required port is not set, the goroutines of the first
    two fields in the other order. *)
Lemma ProcessWithOptions_modes_witness :
  In (RequiredValueMissing "PORT")
    (snd (processAll {[ "NAME" := "web" ]}
            [Examples.textAt 1 "Port" [("required", "true")]; Examples.textAt 0 "Name" [];
             Examples.textAt 2 "Host" []]
            (withParallel true Examples.defaults)
            (VStruct [VString ""; VString ""; VString "old"]))).
Proof.
  destruct (ProcessWithOptions_modes {[ "NAME" := "web" ]} ""
              (Examples.tServerPtr,
               VPtr (Some (VStruct [VString ""; VString ""; VString "old"])))
              Examples.defaults Samples.serverInfos
              [Examples.textAt 1 "Port" [("required", "true")]; Examples.textAt 0 "Name" [];
               Examples.textAt 2 "Host" []]
              (VStruct [VString ""; VString ""; VString "old"])) as (_ & _ & Herr & _).
  - reflexivity.
  - repeat first [apply FOP_nil | apply FOP_cons | apply List.Forall_nil
                 | apply List.Forall_cons | (left; discriminate)].
  - apply perm_swap.
  - apply Herr. vm_compute. reflexivity.
Defined.

(** A mapping that held an entry: the entry is gone. *)
Lemma processField_replaces_witness :
  processField Examples.tMapStringString "a:1"
    (VMap (Some [(VString "b", VString "2")]))
  = (VMap (Some [(VString "a", VString "1")]), None).
Proof.
  destruct (processField_replaces Examples.tMapStringString "a:1") as [Hreplaced _].
  - reflexivity.
  - apply (Hreplaced eq_refl ltac:(discriminate) (VMap None)). reflexivity.
Defined.
